(** * Font registry and family-name resolver of [src/Font.js]

    A shallow embedding of the module: the two module-level objects
    [loaded] and [loadPromises], the synchronous resolver
    [processFontFamily], and [loadAsync] with its asynchronous
    continuation, run on a small model of the JavaScript job queue
    (promises, their reactions, and the microtask queue). *)

From Stdlib Require Import ZArith String Ascii List Lia.
From stdpp Require Import base option list gmap strings.

Local Open Scope string_scope.
Local Open Scope list_scope.

(** ** JavaScript values the module handles *)

(** A thrown value or a rejection reason. *)
Inductive error :=
  | Error (message : string)
  | InvariantViolation (message : string)
  | TypeError (message : string)
  | Foreign (reason : string).

#[global] Instance error_eq_dec : EqDecision error.
Proof. solve_decision. Defined.

(** Result of a synchronous call that may throw. *)
Inductive completion (A : Type) :=
  | Normal (a : A)
  | Throw (e : error).
Arguments Normal {A} a.
Arguments Throw {A} e.

(** [?string]: the argument and the result of the resolver. *)
Inductive maybe_string :=
  | JsNull
  | JsUndefined
  | JsString (s : string).

Abbreviation asset_id := nat.

(** [type FontSource = string | number | Asset]. *)
Inductive FontSource :=
  | SrcString (uri : string)
  | SrcNumber (moduleId : Z)
  | SrcAsset (asset : asset_id).

(** The fields of an [Asset] the module reads. *)
Record Asset := { downloaded : bool; localUri : maybe_string }.

Definition blank_asset : Asset := {| downloaded := false; localUri := JsNull |}.

(** What the module imports: [Constants], [__DEV__], [Asset.fromModule]. *)
Record Env := {
  systemFonts : list string;
  sessionId : string;
  dev : bool;
  fromModule : Z -> asset_id
}.

(** ** Strings *)

Definition dquote : string := String (ascii_of_nat 34) EmptyString.
Definition newline : string := String (ascii_of_nat 10) EmptyString.

(** [String.prototype.includes]. *)
Fixpoint includes (hay needle : string) : bool :=
  String.prefix needle hay ||
  match hay with
  | EmptyString => false
  | String _ rest => includes rest needle
  end.

(** [Array.prototype.includes] on an array of strings. *)
Definition array_includes (l : list string) (x : string) : bool :=
  bool_decide (x ∈ l).

(** ** Plain objects used as maps *)

(** Own property names of [Object.prototype]; every value there is truthy. *)
Definition object_prototype_keys : list string :=
  [ "constructor"; "__defineGetter__"; "__defineSetter__"; "hasOwnProperty";
    "__lookupGetter__"; "__lookupSetter__"; "isPrototypeOf";
    "propertyIsEnumerable"; "toString"; "valueOf"; "__proto__";
    "toLocaleString" ].

Definition inherited (key : string) : bool :=
  bool_decide (key ∈ object_prototype_keys).

(** Outcome of [obj[key]] on an object literal whose own properties are [obj]. *)
Inductive property (A : Type) :=
  | Own (a : A)
  | Inherited
  | Missing.
Arguments Own {A} a.
Arguments Inherited {A}.
Arguments Missing {A}.

Definition get_property {A} (obj : gmap string A) (key : string) : property A :=
  match obj !! key with
  | Some a => Own a
  | None => if inherited key then Inherited else Missing
  end.

(** [obj.hasOwnProperty(key)]: the method itself is looked up on [obj]. *)
Definition hasOwnProperty {A} (obj : gmap string A) (key : string)
  : completion bool :=
  match get_property obj "hasOwnProperty" with
  | Inherited => Normal (bool_decide (is_Some (obj !! key)))
  | _ => Throw (TypeError "hasOwnProperty is not a function")
  end.

(** ** Promises, suspended frames and the job queue *)

Abbreviation pid := nat.

Inductive outcome :=
  | Fulfilled
  | Rejected (e : error).

Inductive pstate :=
  | Pending
  | Settled (o : outcome).

#[global] Instance outcome_eq_dec : EqDecision outcome.
Proof. solve_decision. Defined.

#[global] Instance pstate_eq_dec : EqDecision pstate.
Proof. solve_decision. Defined.

(** An async function suspended at an [await] (or a reaction of
    [Promise.all]); the last field is the promise the frame settles. *)
Inductive frame :=
  | AwaitDownload (name : string) (asset : asset_id) (s : pid)
  | AwaitNative (name : string) (asset : asset_id) (s : pid)
  | AwaitSingle (name : string) (p : pid)
  | AwaitShared (name : string) (q : pid)
  | ReturnShared (name : string) (q : pid)
  | AwaitAll (q : pid)
  | AllElem (a : pid) (i : nat).

#[global] Instance frame_eq_dec : EqDecision frame.
Proof. solve_decision. Defined.

(** Bookkeeping of one [Promise.all]. *)
Record all_record := { remaining : nat; called : list bool }.

(** Calls made to the collaborators, in order. *)
Inductive ext_call :=
  | CallDownload (name : string) (asset : asset_id) (d : pid)
  | CallNative (nativeName : string) (uri : maybe_string) (n : pid).

Inductive level := LevelError | LevelWarn.

Record state := mkState {
  loaded : gmap string bool;
  loadPromises : gmap string pid;
  promises : list pstate;
  waiting : list (pid * frame);
  queue : list (frame * outcome);
  alls : gmap pid all_record;
  assets : gmap asset_id Asset;
  calls : list ext_call;
  console : list (level * string)
}.

Definition initial : state :=
  mkState ∅ ∅ [] [] [] ∅ ∅ [] [].

Definition set_loaded (f : gmap string bool -> gmap string bool) (st : state) :=
  mkState (f (loaded st)) (loadPromises st) (promises st) (waiting st)
          (queue st) (alls st) (assets st) (calls st) (console st).
Definition set_loadPromises (f : gmap string pid -> gmap string pid) (st : state) :=
  mkState (loaded st) (f (loadPromises st)) (promises st) (waiting st)
          (queue st) (alls st) (assets st) (calls st) (console st).
Definition set_promises (f : list pstate -> list pstate) (st : state) :=
  mkState (loaded st) (loadPromises st) (f (promises st)) (waiting st)
          (queue st) (alls st) (assets st) (calls st) (console st).
Definition set_waiting (f : list (pid * frame) -> list (pid * frame)) (st : state) :=
  mkState (loaded st) (loadPromises st) (promises st) (f (waiting st))
          (queue st) (alls st) (assets st) (calls st) (console st).
Definition set_queue (f : list (frame * outcome) -> list (frame * outcome)) (st : state) :=
  mkState (loaded st) (loadPromises st) (promises st) (waiting st)
          (f (queue st)) (alls st) (assets st) (calls st) (console st).
Definition set_alls (f : gmap pid all_record -> gmap pid all_record) (st : state) :=
  mkState (loaded st) (loadPromises st) (promises st) (waiting st)
          (queue st) (f (alls st)) (assets st) (calls st) (console st).
Definition set_assets (f : gmap asset_id Asset -> gmap asset_id Asset) (st : state) :=
  mkState (loaded st) (loadPromises st) (promises st) (waiting st)
          (queue st) (alls st) (f (assets st)) (calls st) (console st).
Definition set_calls (f : list ext_call -> list ext_call) (st : state) :=
  mkState (loaded st) (loadPromises st) (promises st) (waiting st)
          (queue st) (alls st) (assets st) (f (calls st)) (console st).
Definition set_console (f : list (level * string) -> list (level * string)) (st : state) :=
  mkState (loaded st) (loadPromises st) (promises st) (waiting st)
          (queue st) (alls st) (assets st) (calls st) (f (console st)).

(** State of promise [p]; an unallocated id reads as pending. *)
Definition pstate_of (st : state) (p : pid) : pstate :=
  default Pending (promises st !! p).

(** A promise object is created pending. *)
Definition new_promise (st : state) : state * pid :=
  (set_promises (fun ps => ps ++ [Pending]) st, length (promises st)).

(** [await w] / [w.then(...)]: the frame waits on [w]; if [w] is already
    settled its job is queued at once. *)
Definition subscribe (w : pid) (f : frame) (st : state) : state :=
  match pstate_of st w with
  | Settled o => set_queue (fun q => q ++ [(f, o)]) st
  | Pending => set_waiting (fun l => l ++ [(w, f)]) st
  end.

(** Settling a pending promise queues one job per frame waiting on it;
    settling a settled promise does nothing. *)
Definition settle (p : pid) (o : outcome) (st : state) : state :=
  match promises st !! p with
  | Some Pending =>
      let mine := filter (fun wf => wf.1 = p) (waiting st) in
      let rest := filter (fun wf => wf.1 <> p) (waiting st) in
      mkState (loaded st) (loadPromises st) (<[p := Settled o]> (promises st))
              rest (queue st ++ map (fun wf => (wf.2, o)) mine)
              (alls st) (assets st) (calls st) (console st)
  | _ => st
  end.

(** ** The module *)

Definition fontMap := list (string * FontSource).

(** [fontMap[name]] for an own key of the object literal. *)
Fixpoint object_get (m : fontMap) (key : string) : option FontSource :=
  match m with
  | [] => None
  | (k, v) :: rest => if decide (k = key) then Some v else object_get rest key
  end.

(** The first argument of [loadAsync]. *)
Inductive load_arg :=
  | ArgName (name : string) (source : option FontSource)
  | ArgMap (m : fontMap)
  | ArgArray (ms : list fontMap).

(** Truthiness of the second argument of [loadAsync]: [undefined], the
    empty string and the number zero are falsy. *)
Definition truthy_source (src : option FontSource) : bool :=
  match src with
  | None => false
  | Some (SrcString s) => negb (bool_decide (s = EmptyString))
  | Some (SrcNumber n) => negb (bool_decide (n = 0%Z))
  | Some (SrcAsset _) => true
  end.

(** [invariant(condition, message)]. *)
Definition invariant (condition : bool) (message : string) : completion unit :=
  if condition then Normal tt else Throw (InvariantViolation message).

(** Truthiness of [loaded[name]] and of [loadPromises[name]]. *)
Definition truthy_flag (v : property bool) : bool :=
  match v with
  | Own b => b
  | Inherited => true
  | Missing => false
  end.

Definition ext_pid (c : ext_call) : pid :=
  match c with
  | CallDownload _ _ d => d
  | CallNative _ _ n => n
  end.

Definition asset_of (st : state) (a : asset_id) : Asset :=
  default blank_asset (assets st !! a).

Definition console_error (msg : string) (st : state) : state :=
  set_console (fun l => l ++ [(LevelError, msg)]) st.

Definition console_warn (msg : string) (st : state) : state :=
  set_console (fun l => l ++ [(LevelWarn, msg)]) st.

(** [Array.prototype.map] over calls that allocate promises. *)
Fixpoint call_each {A} (f : A -> state -> state * pid) (l : list A) (st : state)
  : state * list pid :=
  match l with
  | [] => (st, [])
  | x :: rest =>
      let '(st1, q) := f x st in
      let '(st2, qs) := call_each f rest st1 in
      (st2, q :: qs)
  end.

Fixpoint subscribe_all (a : pid) (i : nat) (elems : list pid) (st : state) : state :=
  match elems with
  | [] => st
  | e :: rest => subscribe_all a (S i) rest (subscribe e (AllElem a i) st)
  end.

(** [Promise.all(elems)]. *)
Definition Promise_all (elems : list pid) (st : state) : state * pid :=
  let '(st1, a) := new_promise st in
  let r := {| remaining := length elems; called := replicate (length elems) false |} in
  let st2 := subscribe_all a 0 elems (set_alls (fun m => <[a := r]> m) st1) in
  (match elems with [] => settle a Fulfilled st2 | _ => st2 end, a).

Section Module.
Variable E : Env.

Definition noSourceMessage (name : string) : string :=
  "No source from which to load font " +:+ dquote +:+ name +:+ dquote.

Definition remoteUriMessage : string :=
  "Loading fonts from remote URIs is temporarily not supported. Please download the font file and load it using require. See: https://docs.expo.io/versions/latest/guides/using-custom-fonts.html#downloading-the-font".

Definition downloadFailedMessage (name : string) : string :=
  "Failed to download asset for font " +:+ dquote +:+ name +:+ dquote.

Definition usedBeforeLoadedMessage (name : string) : string :=
  "You started loading '" +:+ name +:+ "', but used it before it finished loading"
  +:+ newline +:+ newline
  +:+ "- You need to wait for Font.loadAsync to complete before using the font."
  +:+ newline +:+ newline
  +:+ "- We recommend loading all fonts before rendering the app, and rendering only "
  +:+ "Expo.AppLoading while waiting for loading to complete.".

Definition notLoadedMessage (name : string) : string :=
  "fontFamily '" +:+ name +:+ "' is not a system font and has not been loaded through "
  +:+ "Font.loadAsync." +:+ newline +:+ newline
  +:+ "- If you intended to use a system font, make sure you typed the name "
  +:+ "correctly and that it is supported by your device operating system."
  +:+ newline +:+ newline
  +:+ "- If this is a custom font, be sure to load it with Font.loadAsync.".

Definition arrayDeprecatedMessage : string :=
  "Passing in an array to Font.loadAsync like Font.loadAsync([fontMap1, fontMap2, fontMap3]) is deprecated and will be removed in SDK 25. Instead, pass in a single font map. The object spread syntax may help with this: Font.loadAsync({ ...fontMap1, ...fontMap2, ...fontMap3 })".

Definition _getNativeFontName (name : string) : string :=
  sessionId E +:+ "-" +:+ name.

Definition isLoaded (st : state) (name : string) : completion bool :=
  hasOwnProperty (loaded st) name.

Definition isLoading (st : state) (name : string) : completion bool :=
  hasOwnProperty (loadPromises st) name.

(** The diagnostic of the development build (lines 48-65). *)
Definition diagnose (s : string) (st : state) : state * completion unit :=
  if dev E then
    match isLoading st s with
    | Throw e => (st, Throw e)
    | Normal true => (console_error (usedBeforeLoadedMessage s) st, Normal tt)
    | Normal false => (console_error (notLoadedMessage s) st, Normal tt)
    end
  else (st, Normal tt).

Definition processFontFamily (name : maybe_string) (st : state)
  : state * completion maybe_string :=
  match name with
  | JsNull | JsUndefined => (st, Normal name)
  | JsString s =>
      if bool_decide (s = EmptyString) || array_includes (systemFonts E) s
         || bool_decide (s = "System")
      then (st, Normal name)
      else if includes s "FuturaBT" then (st, Normal name)
      else if includes s (sessionId E) then (st, Normal name)
      else
        match isLoaded st s with
        | Throw e => (st, Throw e)
        | Normal false =>
            match diagnose s st with
            | (st1, Throw e) => (st1, Throw e)
            | (st1, Normal _) => (st1, Normal (JsString "System"))
            end
        | Normal true =>
            (st, Normal (JsString ("ExpoFont-" +:+ _getNativeFontName s)))
        end
  end.

(** [_getAssetForSource]; an [undefined] argument never gets here (it
    is stopped by the [invariant] before), so its case is a throw. *)
Definition _getAssetForSource (src : option FontSource) : completion asset_id :=
  match src with
  | Some (SrcString _) => Throw (Error remoteUriMessage)
  | Some (SrcNumber n) => Normal (fromModule E n)
  | Some (SrcAsset a) => Normal a
  | None => Throw (TypeError "undefined is not an asset")
  end.

(** [asset.downloadAsync()]: the collaborator hands back a promise that
    it settles later. *)
Definition downloadAsync (name : string) (asset : asset_id) (st : state)
  : state * pid :=
  let '(st1, d) := new_promise st in
  (set_calls (fun l => l ++ [CallDownload name asset d]) st1, d).

(** [ExpoFontLoader.loadAsync(nativeName, localUri)]. *)
Definition ExpoFontLoader_loadAsync (nativeName : string) (uri : maybe_string)
  (st : state) : state * pid :=
  let '(st1, n) := new_promise st in
  (set_calls (fun l => l ++ [CallNative nativeName uri n]) st1, n).

(** [_loadSingleFontAsync(name, asset)] up to its first [await]. *)
Definition _loadSingleFontAsync (name : string) (asset : asset_id) (st : state)
  : state * pid :=
  let '(st1, s) := new_promise st in
  let '(st2, d) := downloadAsync name asset st1 in
  (subscribe d (AwaitDownload name asset s) st2, s).

(** [loadAsync(name, source)] for a string first argument, up to its first
    [await] (lines 98-124). The promise of the async function is [q]. *)
Definition loadAsync_name (name : string) (src : option FontSource) (st : state)
  : state * pid :=
  let '(st0, q) := new_promise st in
  if truthy_flag (get_property (loaded st0) name) then (settle q Fulfilled st0, q)
  else
    match get_property (loadPromises st0) name with
    | Own p => (subscribe p (ReturnShared name q) st0, q)
    | Inherited => (settle q Fulfilled st0, q)
    | Missing =>
        match invariant (truthy_source src) (noSourceMessage name),
              _getAssetForSource src with
        | Throw e, _ => (settle q (Rejected e) st0, q)
        | Normal _, Throw e => (settle q (Rejected e) st0, q)
        | Normal _, Normal asset =>
            let '(st1, p) := new_promise st0 in
            let '(st2, s) := _loadSingleFontAsync name asset st1 in
            let st3 := subscribe s (AwaitSingle name p) st2 in
            let st4 := set_loadPromises (fun m => <[name := p]> m) st3 in
            (subscribe p (AwaitShared name q) st4, q)
        end
    end.

(** [loadAsync(fontMap)] (lines 91-95). *)
Definition loadAsync_map (m : fontMap) (st : state) : state * pid :=
  let '(st0, q) := new_promise st in
  let names := map fst m in
  let '(st1, qs) :=
    call_each (fun name => loadAsync_name name (object_get m name)) names st0 in
  let '(st2, a) := Promise_all qs st1 in
  (subscribe a (AwaitAll q) st2, q).

(** [loadAsync([fontMap1, ...])] (lines 85-90). *)
Definition loadAsync_array (ms : list fontMap) (st : state) : state * pid :=
  let '(st0, q) := new_promise st in
  let st1 := console_warn arrayDeprecatedMessage st0 in
  let '(st2, qs) := call_each loadAsync_map ms st1 in
  let '(st3, a) := Promise_all qs st2 in
  (subscribe a (AwaitAll q) st3, q).

Definition loadAsync (arg : load_arg) (st : state) : state * pid :=
  match arg with
  | ArgName name src => loadAsync_name name src st
  | ArgMap m => loadAsync_map m st
  | ArgArray ms => loadAsync_array ms st
  end.

(** One resolve-element reaction of [Promise.all]. *)
Definition all_element (a : pid) (i : nat) (st : state) : state :=
  match alls st !! a with
  | Some r =>
      match called r !! i with
      | Some false =>
          let r' := {| remaining := remaining r - 1;
                       called := <[i := true]> (called r) |} in
          let st1 := set_alls (fun m => <[a := r']> m) st in
          if decide (remaining r' = 0) then settle a Fulfilled st1 else st1
      | _ => st
      end
  | None => st
  end.

(** Resuming a suspended frame with the outcome of the promise it
    awaited, up to its next [await] or its end. *)
Definition resume (f : frame) (o : outcome) (st : state) : state :=
  match f with
  | AwaitDownload name asset s =>
      match o with
      | Rejected e => settle s (Rejected e) st
      | Fulfilled =>
          if downloaded (asset_of st asset) then
            let '(st1, n) :=
              ExpoFontLoader_loadAsync (_getNativeFontName name)
                                       (localUri (asset_of st asset)) st in
            subscribe n (AwaitNative name asset s) st1
          else settle s (Rejected (Error (downloadFailedMessage name))) st
      end
  | AwaitNative _ _ s => settle s o st
  | AwaitSingle name p =>
      let st1 :=
        match o with
        | Fulfilled => set_loaded (fun m => <[name := true]> m) st
        | Rejected _ => st
        end in
      settle p o (set_loadPromises (fun m => delete name m) st1)
  | AwaitShared _ q => settle q o st
  | ReturnShared _ q => settle q o st
  | AwaitAll q => settle q o st
  | AllElem a i =>
      match o with
      | Fulfilled => all_element a i st
      | Rejected e => settle a (Rejected e) st
      end
  end.

(** Run the job at the head of the microtask queue. *)
Definition tick (st : state) : state :=
  match queue st with
  | [] => st
  | (f, o) :: rest => resume f o (set_queue (fun _ => rest) st)
  end.

Definition is_external (st : state) (d : pid) : bool :=
  bool_decide (d ∈ map ext_pid (calls st)).

(** What can happen to the module. *)
Inductive event :=
  | EvLoad (arg : load_arg)
  | EvResolve (name : maybe_string)
  | EvTick
  | EvSettle (d : pid) (o : outcome)
  | EvAsset (asset : asset_id) (fields : Asset).

Definition apply_event (ev : event) (st : state) : state :=
  match ev with
  | EvLoad arg => (loadAsync arg st).1
  | EvResolve name => (processFontFamily name st).1
  | EvTick => tick st
  | EvSettle d o => if is_external st d then settle d o st else st
  | EvAsset a fields => set_assets (fun m => <[a := fields]> m) st
  end.

Definition run (evs : list event) (st : state) : state :=
  fold_left (fun s ev => apply_event ev s) evs st.

Inductive reachable : state -> Prop :=
  | reachable_initial : reachable initial
  | reachable_step st ev : reachable st -> reachable (apply_event ev st).

(** Weight of the live frames: every job lowers it. *)
Definition frame_weight (f : frame) : nat :=
  match f with
  | AwaitDownload _ _ _ => 2
  | _ => 1
  end.

Definition pending_work (st : state) : nat :=
  sum_list (map (fun wf => frame_weight wf.2) (waiting st))
  + sum_list (map (fun fo => frame_weight fo.1) (queue st)).

(** Run the microtask queue until it is empty. *)
Definition drain (st : state) : state :=
  Nat.iter (pending_work st) tick st.

End Module.

(** * Auxiliary definitions: invariants, relations between states, sample data *)

(** ** Live frames and the invariant of reachable states *)

(** The promise a suspended frame settles when it ends; the reactions of
    [Promise.all] share theirs and are accounted for apart. *)
Definition target (f : frame) : option pid :=
  match f with
  | AwaitDownload _ _ s => Some s
  | AwaitNative _ _ s => Some s
  | AwaitSingle _ p => Some p
  | AwaitShared _ q => Some q
  | ReturnShared _ q => Some q
  | AwaitAll q => Some q
  | AllElem _ _ => None
  end.

(** The live frames: those waiting on a promise and those whose job is
    queued. *)
Definition frames (st : state) : list frame :=
  (waiting st).*2 ++ (queue st).*1.

(** The promises somebody is still going to settle: targets of live
    frames and promises handed out by the collaborators. *)
Definition owners (st : state) : list pid :=
  omap target (frames st) ++ map ext_pid (calls st).

(** A registration of [name] that the native module has acknowledged. *)
Definition registered (E : Env) (st : state) (name : string) : Prop :=
  exists uri n, CallNative (_getNativeFontName E name) uri n ∈ calls st
                /\ promises st !! n = Some (Settled Fulfilled).

(** The frames of [loadAsync] itself, for callers of [name]. *)
Definition is_shared (f : frame) (name : string) (q : pid) : Prop :=
  f = AwaitShared name q \/ f = ReturnShared name q.

(** The frames of [_loadSingleFontAsync] for [name]. *)
Definition is_single (f : frame) (name : string) (s : pid) : Prop :=
  exists a, f = AwaitDownload name a s \/ f = AwaitNative name a s.

(** Elements of a [Promise.all] whose reaction has not run. *)
Definition count_false (l : list bool) : nat :=
  length (filter (fun b => b = false) l).

(** Every pending promise is settled by at most one party: the frame
    that targets it, the collaborator that returned it, or the
    [Promise.all] it belongs to. *)
Record Runtime (st : state) : Prop := {
  wait_pending : forall w f, (w, f) ∈ waiting st -> promises st !! w = Some Pending;
  target_pending : forall f t,
    f ∈ frames st -> target f = Some t -> promises st !! t = Some Pending;
  ext_bound : forall d, d ∈ map ext_pid (calls st) -> d < length (promises st);
  all_bound : forall a, is_Some (alls st !! a) -> a < length (promises st);
  owners_nodup : NoDup (owners st);
  all_disjoint : forall a, is_Some (alls st !! a) -> a ∉ owners st;
  all_known : forall a i, AllElem a i ∈ frames st -> is_Some (alls st !! a);
  all_count : forall a r, alls st !! a = Some r ->
    remaining r = count_false (called r)
    /\ (promises st !! a = Some (Settled Fulfilled) -> remaining r = 0)
}.

(** The two maps agree with the frames of the loads in progress. *)
Record Registry (E : Env) (st : state) : Prop := {
  entry_frame : forall name p,
    loadPromises st !! name = Some p -> AwaitSingle name p ∈ frames st;
  frame_entry : forall name p,
    AwaitSingle name p ∈ frames st -> loadPromises st !! name = Some p;
  entry_fresh : forall name p,
    loadPromises st !! name = Some p ->
    loaded st !! name = None /\ inherited name = false;
  loaded_own : forall name b,
    loaded st !! name = Some b -> b = true /\ inherited name = false;
  single_chain : forall f name s,
    f ∈ frames st -> is_single f name s ->
    exists p, (s, AwaitSingle name p) ∈ waiting st;
  single_owner : forall s name p,
    (s, AwaitSingle name p) ∈ waiting st ->
    exists f, f ∈ frames st /\ is_single f name s;
  shared_wait : forall w f name q,
    (w, f) ∈ waiting st -> is_shared f name q -> AwaitSingle name w ∈ frames st;
  shared_done : forall f name q,
    (f, Fulfilled) ∈ queue st -> is_shared f name q -> is_Some (loaded st !! name);
  native_wait : forall n name a s,
    (n, AwaitNative name a s) ∈ waiting st ->
    exists uri, CallNative (_getNativeFontName E name) uri n ∈ calls st;
  native_done : forall name a s,
    (AwaitNative name a s, Fulfilled) ∈ queue st -> registered E st name;
  single_done : forall name p,
    (AwaitSingle name p, Fulfilled) ∈ queue st -> registered E st name;
  loaded_registered : forall name,
    is_Some (loaded st !! name) -> registered E st name
}.

(** The invariant of reachable states. *)
Definition Inv (E : Env) (st : state) : Prop := Runtime st /\ Registry E st.

(** Closes the goals about the empty maps and lists of [initial]. *)
Ltac empty_case :=
  repeat match goal with
  | H : _ ∈ [] |- _ => by apply not_elem_of_nil in H
  | H : ∅ !! _ = Some _ |- _ => by rewrite lookup_empty in H
  | H : is_Some (∅ !! _) |- _ => rewrite lookup_empty in H; by destruct H
  | H : _ ∈ frames initial |- _ => by apply not_elem_of_nil in H
  | |- NoDup _ => constructor
  end.

(** The state once the job at the head of the queue has been taken. *)
Definition popped (rest : list (frame * outcome)) (st : state) : state :=
  set_queue (fun _ => rest) st.

(** An optional value as a list of at most one element. *)
Definition option_list {A} (x : option A) : list A :=
  match x with Some a => [a] | None => [] end.

(** Carries a field of [Registry] over to a state with the same maps and
    frames, where [Hr] carries [registered] over. *)
Ltac registry_lift HI Hr :=
  first
    [ by apply HI
    | intros; apply Hr; first [ by eapply (native_done _ _ HI)
                              | by eapply (single_done _ _ HI)
                              | by eapply (loaded_registered _ _ HI) ] ].

(** The frames of the fan-out, which touch neither map. *)
Definition plain (f : frame) : Prop :=
  match f with
  | AllElem _ _ | AwaitAll _ => True
  | _ => False
  end.

(** ** Calls of [loadAsync] *)

(** A call allocates promises and frames above the existing ones and
    leaves the existing promises, frames and bookkeeping as they are. *)
Record grows (st st' : state) : Prop := {
  grows_length : length (promises st) <= length (promises st');
  grows_promises : forall y,
    y < length (promises st) -> promises st' !! y = promises st !! y;
  grows_owners : forall t,
    t ∈ owners st' -> t ∈ owners st \/ length (promises st) <= t;
  grows_alls : forall a,
    a < length (promises st) -> alls st' !! a = alls st !! a;
  grows_waiting : forall w f, (w, f) ∈ waiting st -> (w, f) ∈ waiting st';
  grows_queue : forall f o, (f, o) ∈ queue st -> (f, o) ∈ queue st'
}.

(** The state in which [loadAsync(name, source)] leaves a new load. *)
Definition started (st : state) (name : string) (asset : nat) : state :=
  let q := length (promises st) in
  mkState (loaded st) (<[name := S q]> (loadPromises st))
          (promises st ++ replicate 4 Pending)
          (waiting st ++ [(S (S (S q)), AwaitDownload name asset (S (S q)));
                          (S (S q), AwaitSingle name (S q));
                          (S q, AwaitShared name q)])
          (queue st) (alls st) (assets st)
          (calls st ++ [CallDownload name asset (S (S (S q)))]) (console st).

(** Reduces the projections of a state built with the setters, and
    nothing else. *)
Ltac st_simpl :=
  cbn [fst snd loaded loadPromises promises waiting queue alls assets calls
       console set_loaded set_loadPromises set_promises set_waiting set_queue
       set_alls set_assets set_calls set_console new_promise popped
       console_warn console_error].

Tactic Notation "st_simpl" "in" hyp(H) :=
  cbn [fst snd loaded loadPromises promises waiting queue alls assets calls
       console set_loaded set_loadPromises set_promises set_waiting set_queue
       set_alls set_assets set_calls set_console new_promise popped
       console_warn console_error] in H.

(** What a call of [loadAsync(name, source)] does before it first
    suspends, with the promise ids made explicit. *)
Definition loadAsync_name_result (E : Env) (name : string)
  (src : option FontSource) (st : state) : state :=
  let q := length (promises st) in
  let st0 := (new_promise st).1 in
  if truthy_flag (get_property (loaded st) name) then settle q Fulfilled st0
  else
    match get_property (loadPromises st) name with
    | Own p => subscribe p (ReturnShared name q) st0
    | Inherited => settle q Fulfilled st0
    | Missing =>
        match invariant (truthy_source src) (noSourceMessage name),
              _getAssetForSource E src with
        | Throw e, _ => settle q (Rejected e) st0
        | Normal _, Throw e => settle q (Rejected e) st0
        | Normal _, Normal asset => started st name asset
        end
    end.

(** A call keeps the invariant, allocates its own promise and touches
    nothing that existed. *)
Definition call_ok (E : Env) (c : state -> state * pid) : Prop :=
  forall st, Inv E st ->
    Inv E (c st).1 /\ grows st (c st).1 /\ (c st).2 < length (promises (c st).1).

(** The common shape of the map and array branches. *)
Definition fan_out {A} (f : A -> state -> state * pid) (l : list A)
  (st0 : state) (q : pid) : state * pid :=
  let '(st1, qs) := call_each f l st0 in
  let '(st2, a) := Promise_all qs st1 in
  (subscribe a (AwaitAll q) st2, q).

(** What a call may do to the two maps: [loaded] is never written, and
    [loadPromises] only gains entries. *)
Record call_maps (st st' : state) : Prop := {
  call_loaded : loaded st' = loaded st;
  call_entries : forall name p,
    loadPromises st !! name = Some p -> loadPromises st' !! name = Some p;
  call_calls : forall c, c ∈ calls st -> c ∈ calls st'
}.

(** ** The resolver and the sources of a load *)

(** The inputs the resolver hands back as they are. *)
Definition bypasses (E : Env) (name : maybe_string) : Prop :=
  match name with
  | JsNull | JsUndefined => True
  | JsString s =>
      s = EmptyString \/ s ∈ systemFonts E \/ s = "System"
      \/ includes s "FuturaBT" = true \/ includes s (sessionId E) = true
  end.

(** The registry as the resolver may see it change. *)
Definition same_registry (st st' : state) : Prop :=
  loaded st' = loaded st /\ loadPromises st' = loadPromises st
  /\ promises st' = promises st /\ waiting st' = waiting st
  /\ queue st' = queue st /\ alls st' = alls st /\ assets st' = assets st
  /\ calls st' = calls st.

(** The diagnostic of a development build for a name that is not loaded. *)
Definition diagnostic (E : Env) (st : state) (s : string) : list (level * string) :=
  if dev E then
    [(LevelError,
      if bool_decide (is_Some (loadPromises st !! s))
      then usedBeforeLoadedMessage s else notLoadedMessage s)]
  else [].



(** The asset a source stands for, when [loadAsync] accepts it. *)
Definition usable (E : Env) (src : option FontSource) : option nat :=
  match src with
  | Some (SrcAsset a) => Some a
  | Some (SrcNumber n) => if bool_decide (n = 0%Z) then None else Some (fromModule E n)
  | _ => None
  end.

(** ** Promises that follow another promise *)

(** Frames that settle their promise with the outcome of the promise
    they awaited. *)
Definition forwards (f : frame) : Prop :=
  match f with
  | AwaitDownload _ _ _ | AllElem _ _ => False
  | _ => True
  end.

(** [q] follows [p]: a forwarding frame that settles [q] waits on [p], or
    its job is queued with the outcome of [p], or both are settled alike. *)
Definition follows (st : state) (q p : pid) : Prop :=
  exists f, target f = Some q /\ forwards f /\
    ((promises st !! p = Some Pending /\ promises st !! q = Some Pending
      /\ (p, f) ∈ waiting st)
     \/ (exists o, promises st !! p = Some (Settled o)
                   /\ promises st !! q = Some Pending /\ (f, o) ∈ queue st)
     \/ (exists o, promises st !! p = Some (Settled o)
                   /\ promises st !! q = Some (Settled o))).

(** Same promises, waiting frames and queue. *)
Definition similar (st st' : state) : Prop :=
  promises st' = promises st /\ waiting st' = waiting st /\ queue st' = queue st.

(** ** Calls made for one name *)

(** A call of [asset.downloadAsync()] for [name]. *)
Definition is_download (name : string) (c : ext_call) : Prop :=
  match c with
  | CallDownload n _ _ => n = name
  | CallNative _ _ _ => False
  end.

(** A call of [ExpoFontLoader.loadAsync] with the native name of [name]. *)
Definition is_registration (E : Env) (name : string) (c : ext_call) : Prop :=
  match c with
  | CallDownload _ _ _ => False
  | CallNative n _ _ => n = _getNativeFontName E name
  end.

(** A frame of [name] that waits for its download. *)
Definition is_downloading (name : string) (f : frame) : Prop :=
  match f with
  | AwaitDownload n _ _ => n = name
  | _ => False
  end.

#[global] Instance is_download_dec name c : Decision (is_download name c).
Proof. destruct c; simpl; apply _. Defined.

#[global] Instance is_registration_dec E name c : Decision (is_registration E name c).
Proof. destruct c; simpl; apply _. Defined.

#[global] Instance is_downloading_dec name f : Decision (is_downloading name f).
Proof. destruct f; simpl; apply _. Defined.

(** Calls of [asset.downloadAsync()] made for [name]. *)
Definition downloads_of (name : string) (st : state) : nat :=
  length (filter (is_download name) (calls st)).

(** Calls of [ExpoFontLoader.loadAsync] made for [name]. *)
Definition registrations_of (E : Env) (name : string) (st : state) : nat :=
  length (filter (is_registration E name) (calls st)).

(** Loads of [name] that still wait for their download. *)
Definition downloading (name : string) (st : state) : nat :=
  length (filter (is_downloading name) (frames st)).

(** Both counts and the pending downloads of [name] are unchanged. *)
Record same_counts (E : Env) (name : string) (st st' : state) : Prop := {
  same_downloads : downloads_of name st' = downloads_of name st;
  same_registrations : registrations_of E name st' = registrations_of E name st;
  same_downloading : downloading name st' = downloading name st
}.

(** The name is in flight before each of the events. *)
Fixpoint in_flight_during (E : Env) (name : string) (evs : list event)
  (st : state) : Prop :=
  match evs with
  | [] => True
  | ev :: rest =>
      is_Some (loadPromises st !! name)
      /\ in_flight_during E name rest (apply_event E ev st)
  end.

(** [p] is the shared operation of [name]: in flight under that name, or
    fulfilled with the name in the Loaded Set, or rejected. *)
Definition op_for (st : state) (p : pid) (name : string) : Prop :=
  (promises st !! p = Some Pending /\ loadPromises st !! name = Some p)
  \/ (promises st !! p = Some (Settled Fulfilled) /\ is_Some (loaded st !! name))
  \/ (exists e, promises st !! p = Some (Settled (Rejected e))).

(** [p], the shared operation of [name], has failed with [e] or is about
    to: no job can download, register or load [name] any more. *)
Definition failing (E : Env) (name : string) (p : pid) (e : error) (r0 : nat)
  (s : state) : Prop :=
  reachable E s
  /\ loaded s !! name = None
  /\ registrations_of E name s = r0
  /\ (forall a t, AwaitDownload name a t ∉ frames s)
  /\ ((loadPromises s !! name = Some p
       /\ (AwaitSingle name p, Rejected e) ∈ queue s)
      \/ (loadPromises s !! name = None
          /\ promises s !! p = Some (Settled (Rejected e)))).

(** ** [Promise.all] and its elements *)

(** From [st] to [st'] the only new reactions belong to a [Promise.all]
    created after [st]. *)
Record keeps_all (st st' : state) : Prop := {
  keeps_waiting : forall w a i,
    (w, AllElem a i) ∈ waiting st' ->
    (w, AllElem a i) ∈ waiting st \/ length (promises st) <= a;
  keeps_queue : forall a i o,
    (AllElem a i, o) ∈ queue st' ->
    (AllElem a i, o) ∈ queue st \/ length (promises st) <= a
}.

(** Element [i] of the [Promise.all] [a], whose promise is [q] and whose
    reaction has run ([c = Some true]) or not: either the reaction has
    run on a fulfilled element, or it waits on [q], or its job is pending
    with the outcome of [q], or [q] is rejected and so is [a]. The jobs
    are those of [jobs]. *)
Definition elem_state (jobs : list (frame * outcome)) (st : state) (a : pid)
  (c : option bool) (i : nat) (q : pid) : Prop :=
  (c = Some true /\ promises st !! q = Some (Settled Fulfilled))
  \/ (c = Some false
      /\ ((promises st !! q = Some Pending /\ (q, AllElem a i) ∈ waiting st)
          \/ (exists o, promises st !! q = Some (Settled o)
                        /\ (AllElem a i, o) ∈ jobs)
          \/ (exists e e', promises st !! q = Some (Settled (Rejected e))
                /\ promises st !! a = Some (Settled (Rejected e'))))).

(** [a] is the [Promise.all] of the promises [qs]; [extra] holds the job
    that is being run, if any. *)
Record gathers_with (extra : list (frame * outcome)) (st : state) (a : pid)
  (qs : list pid) : Prop := {
  gathers_alloc : is_Some (promises st !! a);
  gathers_elems : exists r, alls st !! a = Some r
    /\ forall i q, qs !! i = Some q ->
         elem_state (extra ++ queue st) st a (called r !! i) i q;
  gathers_waiting : forall w i, (w, AllElem a i) ∈ waiting st -> qs !! i = Some w;
  gathers_queue : forall i o, (AllElem a i, o) ∈ extra ++ queue st ->
    exists q, qs !! i = Some q /\ promises st !! q = Some (Settled o);
  gathers_rejected : forall e, promises st !! a = Some (Settled (Rejected e)) ->
    exists i q, qs !! i = Some q /\ promises st !! q = Some (Settled (Rejected e))
}.

(** [a] is the [Promise.all] of [qs], between two jobs. *)
Definition gathers (st : state) (a : pid) (qs : list pid) : Prop :=
  gathers_with [] st a qs.

(** The promises that [loadAsync(fontMap)] hands to [Promise.all], one
    for each key. *)
Definition map_elements (E : Env) (m : fontMap) (st : state) : list pid :=
  (call_each (fun name => loadAsync_name E name (object_get m name))
             (map fst m) (new_promise st).1).2.

(** The promise of that [Promise.all]. *)
Definition map_all (E : Env) (m : fontMap) (st : state) : pid :=
  length (promises
    (call_each (fun name => loadAsync_name E name (object_get m name))
               (map fst m) (new_promise st).1).1).

(** [q], returned by a call for [name], follows the shared operation of
    the name, or the call found the name loaded, or it was refused. *)
Definition tracks (st : state) (q : pid) (name : string) : Prop :=
  (exists p, follows st q p /\ op_for st p name)
  \/ (promises st !! q = Some (Settled Fulfilled)
      /\ (is_Some (loaded st !! name) \/ inherited name = true))
  \/ (exists e, promises st !! q = Some (Settled (Rejected e))).

(** The state after a call with a mapping and some further events. *)
Definition after_map (E : Env) (m : fontMap) (evs : list event) (st : state)
  : state :=
  run E evs (loadAsync E (ArgMap m) st).1.

(** ** The end of a load, the fan-out of both branches, and the calls requested *)

(** [p], the shared operation of [name], has succeeded or is about to. *)
Definition succeeding (E : Env) (name : string) (p : pid) (s : state) : Prop :=
  reachable E s
  /\ ((loadPromises s !! name = Some p
       /\ (AwaitSingle name p, Fulfilled) ∈ queue s)
      \/ (loadPromises s !! name = None
          /\ is_Some (loaded s !! name)
          /\ promises s !! p = Some (Settled Fulfilled))).

(** The [Promise.all] [a] of [n] promises is settled by the time its
    count of remaining elements reaches zero. *)
Definition live_all (st : state) (a : pid) (n : nat) : Prop :=
  a < length (promises st)
  /\ exists r, alls st !! a = Some r /\ length (called r) = n
               /\ (promises st !! a = Some Pending -> 0 < remaining r).

(** The promises a fan-out hands to [Promise.all], and the promise of that
    [Promise.all]. *)
Definition fan_elements {A} (f : A -> state -> state * pid) (l : list A)
  (st0 : state) : list pid :=
  (call_each f l st0).2.

Definition fan_all {A} (f : A -> state -> state * pid) (l : list A)
  (st0 : state) : pid :=
  length (promises (call_each f l st0).1).

(** The promises that [loadAsync([fontMap1, ...])] hands to [Promise.all],
    one for each mapping. *)
Definition array_elements (E : Env) (ms : list fontMap) (st : state) : list pid :=
  fan_elements (loadAsync_map E) ms
    (console_warn arrayDeprecatedMessage (new_promise st).1).

(** The state after a call with an array and some further events. *)
Definition after_array (E : Env) (ms : list fontMap) (evs : list event)
  (st : state) : state :=
  run E evs (loadAsync E (ArgArray ms) st).1.

(** [q] is the promise of a call with a mapping whose keys are [names]. *)
Definition covers (st : state) (q : pid) (names : list string) : Prop :=
  exists a qs, follows st q a /\ gathers st a qs
               /\ length qs = length names
               /\ forall i name qi, names !! i = Some name -> qs !! i = Some qi ->
                                    tracks st qi name.

(** A collaborator call without the promise it returned. *)
Definition request (c : ext_call) : (string * asset_id) + (string * maybe_string) :=
  match c with
  | CallDownload name asset _ => inl (name, asset)
  | CallNative nativeName uri _ => inr (nativeName, uri)
  end.

(** The download [loadAsync(name, fontMap[name])] asks for when [name] is
    neither loaded nor in flight: none if the source is refused. *)
Definition wanted (E : Env) (m : fontMap) (name : string)
  : option ((string * asset_id) + (string * maybe_string)) :=
  (fun asset => inl (name, asset)) <$> usable E (object_get m name).

(** ** Environments, states and runs used as examples *)

(** A development build with two system fonts and session "abc". *)
Definition sample_env : Env :=
  {| systemFonts := ["Helvetica"; "Courier"];
     sessionId := "abc";
     dev := true;
     fromModule := Z.to_nat |}.

(** An environment in which "Foo" is itself a system font. *)
Definition foo_env : Env :=
  {| systemFonts := ["Foo"];
     sessionId := "abc";
     dev := false;
     fromModule := Z.to_nat |}.

(** The events of a load that succeeds when started in [initial]: the
    asset is downloaded, then the native registration is acknowledged. *)
Definition success_events : list event :=
  [ EvAsset 1 {| downloaded := true; localUri := JsString "/cache/Foo.ttf" |};
    EvSettle 3 Fulfilled; EvTick;
    EvSettle 4 Fulfilled; EvTick; EvTick; EvTick ].

(** The state right after [loadAsync("Foo", asset 1)] in a fresh module. *)
Definition foo_loading : state :=
  (loadAsync sample_env (ArgName "Foo" (Some (SrcAsset 1))) initial).1.

(** The events of [success_events] up to the job that ends the load. *)
Definition in_flight_events : list event := take 5 success_events.

(** The download of "Foo" has completed, but the asset is not downloaded. *)
Definition foo_download_done : state :=
  run sample_env [EvSettle 3 Fulfilled] foo_loading.

(** The job that ends the failed load of "Foo" is next. *)
Definition foo_failing : state :=
  run sample_env [EvTick] foo_download_done.

(** The mapping [{A: asset 1, B: asset 2}]. *)
Definition font_pair : fontMap := [("A", SrcAsset 1); ("B", SrcAsset 2)].

(** The download of "B" completes without the asset, the queue is run;
    then "A" is downloaded and registered. *)
Definition pair_events : list event :=
  [ EvSettle 8 Fulfilled; EvTick; EvTick; EvTick; EvTick; EvTick;
    EvAsset 1 {| downloaded := true; localUri := JsString "/cache/A.ttf" |};
    EvSettle 4 Fulfilled; EvTick;
    EvSettle 10 Fulfilled; EvTick; EvTick; EvTick; EvTick ].

(** The state after an attempt to load a font named "__proto__". *)
Definition proto_attempt : state :=
  run sample_env [EvLoad (ArgName "__proto__" (Some (SrcAsset 1))); EvTick] initial.

(** An environment whose session identifier is empty. *)
Definition anonymous_env : Env :=
  {| systemFonts := ["Helvetica"];
     sessionId := EmptyString;
     dev := true;
     fromModule := Z.to_nat |}.

(** The download of "Foo" is rejected by the asset. *)
Definition foo_download_rejected : state :=
  run sample_env [EvSettle 3 (Rejected (Foreign "offline"))] foo_loading.

(** The native module has acknowledged the registration of "Foo". *)
Definition foo_registered : state :=
  run sample_env (take 4 success_events) foo_loading.

(** The mapping [{A: asset 1}] and the events of its successful load. *)
Definition font_single : fontMap := [("A", SrcAsset 1)].

Definition single_events : list event :=
  [ EvAsset 1 {| downloaded := true; localUri := JsString "/cache/A.ttf" |};
    EvSettle 4 Fulfilled; EvTick;
    EvSettle 6 Fulfilled; EvTick; EvTick; EvTick ].

(** The array [[{A: asset 1}, {B: asset 2}]] and the events of its
    successful load. *)
Definition font_array : list fontMap := [[("A", SrcAsset 1)]; [("B", SrcAsset 2)]].

Definition array_events : list event :=
  [ EvAsset 1 {| downloaded := true; localUri := JsString "/cache/A.ttf" |};
    EvAsset 2 {| downloaded := true; localUri := JsString "/cache/B.ttf" |};
    EvSettle 5 Fulfilled; EvSettle 11 Fulfilled; EvTick; EvTick;
    EvSettle 14 Fulfilled; EvSettle 15 Fulfilled;
    EvTick; EvTick; EvTick; EvTick; EvTick; EvTick; EvTick; EvTick; EvTick; EvTick;
    EvTick; EvTick; EvTick ].

(** A mapping with a remote URI between two assets. *)
Definition font_mixed : fontMap :=
  [("A", SrcAsset 1); ("B", SrcString "https://example.com/b.ttf"); ("C", SrcNumber 7)].

(** * Properties *)

(** ** Ownership of promises *)

Lemma elem_frames st f :
  f ∈ frames st <-> (exists w, (w, f) ∈ waiting st) \/ (exists o, (f, o) ∈ queue st).
Proof.
  unfold frames. rewrite elem_of_app, !list_elem_of_fmap. split.
  - intros [[[w g] [-> H]]|[[g o] [-> H]]]; eauto.
  - intros [[w H]|[o H]]; [left; exists (w, f)|right; exists (f, o)]; eauto.
Qed.

Section Settle.

Variables (p : pid) (o : outcome) (st : state).

Hypothesis Hp : promises st !! p = Some Pending.

Lemma settle_waiting w f :
  (w, f) ∈ waiting (settle p o st) <-> (w, f) ∈ waiting st /\ w <> p.
Proof.
  unfold settle. rewrite Hp. simpl. rewrite list_elem_of_filter. simpl. tauto.
Qed.

Lemma settle_queue f o' :
  (f, o') ∈ queue (settle p o st)
  <-> (f, o') ∈ queue st \/ (o' = o /\ (p, f) ∈ waiting st).
Proof.
  unfold settle. rewrite Hp. simpl.
  rewrite elem_of_app, list_elem_of_fmap. split.
  - intros [H|[[w g] [Heq H]]]; [tauto|].
    apply list_elem_of_filter in H as [Hw H]. simpl in *.
    inversion Heq; subst. tauto.
  - intros [H|[-> H]]; [tauto|]. right. exists (p, f). split; [done|].
    apply list_elem_of_filter. done.
Qed.

Lemma settle_promises x :
  promises (settle p o st) !! x
  = if decide (x = p) then Some (Settled o) else promises st !! x.
Proof.
  unfold settle. rewrite Hp. simpl. destruct (decide (x = p)) as [->|Hne].
  - apply list_lookup_insert_eq. by eapply lookup_lt_Some.
  - by apply list_lookup_insert_ne.
Qed.

Lemma settle_frames : frames (settle p o st) ≡ₚ frames st.
Proof.
  unfold settle, frames. rewrite Hp. simpl.
  rewrite fmap_app, <- list_fmap_compose.
  replace (fst ∘ (fun wf : pid * frame => (wf.2, o))) with (@snd pid frame) by done.
  rewrite <- (filter_app_complement (fun wf : pid * frame => wf.1 = p) (waiting st)) at 3.
  rewrite fmap_app. set (A := (filter _ (waiting st)).*2).
  set (B := (filter _ (waiting st)).*2). set (C := (queue st).*1).
  rewrite (Permutation_app_comm C B), app_assoc. apply Permutation_app_tail.
  apply Permutation_app_comm.
Qed.

End Settle.

Lemma settle_fields p o st :
  loaded (settle p o st) = loaded st /\ loadPromises (settle p o st) = loadPromises st
  /\ alls (settle p o st) = alls st /\ assets (settle p o st) = assets st
  /\ calls (settle p o st) = calls st /\ console (settle p o st) = console st
  /\ length (promises (settle p o st)) = length (promises st).
Proof.
  unfold settle. destruct (promises st !! p) as [[|?]|]; simpl; repeat split; try done.
  by rewrite length_insert.
Qed.

Lemma settle_idle p o st :
  promises st !! p <> Some Pending -> settle p o st = st.
Proof. unfold settle. destruct (promises st !! p) as [[|?]|]; congruence. Qed.

Lemma subscribe_pending w f st :
  pstate_of st w = Pending ->
  subscribe w f st = set_waiting (fun l => l ++ [(w, f)]) st.
Proof. unfold subscribe. by intros ->. Qed.

Lemma subscribe_settled w f o st :
  promises st !! w = Some (Settled o) ->
  subscribe w f st = set_queue (fun q => q ++ [(f, o)]) st.
Proof. unfold subscribe, pstate_of. by intros ->. Qed.

Lemma pstate_of_pending st w :
  promises st !! w = Some Pending -> pstate_of st w = Pending.
Proof. unfold pstate_of. by intros ->. Qed.

Lemma pstate_of_fresh st w :
  length (promises st) <= w -> pstate_of st w = Pending.
Proof. unfold pstate_of. intros H. by rewrite (lookup_ge_None_2 _ _ H). Qed.

(** ** The invariant of reachable states *)

Lemma Inv_initial E : Inv E initial.
Proof. split; split; simpl; intros; empty_case. Qed.

Lemma registered_mono E st st' name :
  (forall c, c ∈ calls st -> c ∈ calls st') ->
  (forall n, promises st !! n = Some (Settled Fulfilled) ->
             promises st' !! n = Some (Settled Fulfilled)) ->
  registered E st name -> registered E st' name.
Proof. intros Hc Hp (uri & n & H1 & H2). exists uri, n. auto. Qed.

Lemma target_owner st f t : f ∈ frames st -> target f = Some t -> t ∈ owners st.
Proof.
  intros Hf Ht. unfold owners. apply elem_of_app. left.
  apply list_elem_of_omap. eauto.
Qed.

Lemma ext_owner st d : d ∈ map ext_pid (calls st) -> d ∈ owners st.
Proof. intros. unfold owners. apply elem_of_app. by right. Qed.

Lemma call_owner st c : c ∈ calls st -> ext_pid c ∈ owners st.
Proof. intros. apply ext_owner, list_elem_of_fmap. eauto. Qed.

Section Pop.

Variables (st : state) (f : frame) (o : outcome)
          (rest : list (frame * outcome)).

Hypothesis HI : Runtime st.

Hypothesis Hq : queue st = (f, o) :: rest.

Let mid := popped rest st.

Lemma pop_frames : frames st ≡ₚ f :: frames mid.
Proof using HI Hq.
  unfold frames, mid, popped. simpl. rewrite Hq. simpl.
  by rewrite Permutation_middle.
Qed.

Lemma pop_frame_in g : g ∈ frames mid -> g ∈ frames st.
Proof using HI Hq. rewrite pop_frames. intros; apply elem_of_cons; by right. Qed.

Lemma pop_frame_cases g : g ∈ frames st -> g = f \/ g ∈ frames mid.
Proof using HI Hq. rewrite pop_frames. apply elem_of_cons. Qed.

Lemma pop_queue_in g o' : (g, o') ∈ rest -> (g, o') ∈ queue st.
Proof using HI Hq. rewrite Hq. intros; apply elem_of_cons; by right. Qed.

Lemma pop_head_in : (f, o) ∈ queue st.
Proof using HI Hq. rewrite Hq. apply elem_of_cons; by left. Qed.

Lemma pop_head_frame : f ∈ frames st.
Proof using HI Hq. rewrite pop_frames. apply elem_of_cons; by left. Qed.

Lemma pop_owners_sub x : x ∈ owners mid -> x ∈ owners st.
Proof using HI Hq.
  unfold owners. rewrite !elem_of_app, !list_elem_of_omap.
  intros [(g & Hg & Ht)|H]; [left|by right].
  exists g. split; [by apply pop_frame_in|done].
Qed.

Lemma pop_owners_nodup : NoDup (owners mid).
Proof using HI Hq.
  pose proof (owners_nodup _ HI) as Hn. unfold owners in *.
  rewrite pop_frames in Hn. simpl in Hn.
  destruct (target f); simpl in Hn; [by apply NoDup_cons in Hn as [_ ?]|done].
Qed.

Lemma pop_target_free t : target f = Some t -> t ∉ owners mid.
Proof using HI Hq.
  intros Ht. pose proof (owners_nodup _ HI) as Hn. unfold owners in *.
  rewrite pop_frames in Hn. simpl in Hn. rewrite Ht in Hn. simpl in Hn.
  by apply NoDup_cons in Hn as [? _].
Qed.

Lemma pop_target_pending t : target f = Some t -> promises st !! t = Some Pending.
Proof using HI Hq. intros. eapply target_pending; eauto using pop_head_frame. Qed.

(** A frame that is still live after the head was popped does not
    share its target. *)
Lemma pop_other_target g t :
  target f = Some t -> g ∈ frames mid -> target g <> Some t.
Proof using HI Hq.
  intros Ht Hg Hgt. apply (pop_target_free t Ht). by eapply target_owner.
Qed.

Lemma pop_not_ext t c : target f = Some t -> c ∈ calls st -> ext_pid c <> t.
Proof using HI Hq.
  intros Ht Hc <-. apply (pop_target_free _ Ht).
  apply ext_owner. simpl. apply list_elem_of_fmap. eauto.
Qed.

Lemma pop_not_all t : target f = Some t -> alls st !! t = None.
Proof using HI Hq.
  intros Ht. destruct (alls st !! t) eqn:Ha; [|done].
  exfalso. eapply (all_disjoint _ HI t); [by rewrite Ha|].
  eapply target_owner; eauto using pop_head_frame.
Qed.

End Pop.

(** ** The runtime invariant under the primitive steps *)

Lemma frames_eq st st' :
  waiting st' = waiting st -> queue st' = queue st -> frames st' = frames st.
Proof. unfold frames. by intros -> ->. Qed.

Lemma owners_eq st st' :
  waiting st' = waiting st -> queue st' = queue st -> calls st' = calls st ->
  owners st' = owners st.
Proof. unfold owners, frames. by intros -> -> ->. Qed.

Lemma Runtime_fields st st' :
  promises st' = promises st -> waiting st' = waiting st ->
  queue st' = queue st -> alls st' = alls st -> calls st' = calls st ->
  Runtime st -> Runtime st'.
Proof.
  intros Hp Hw Hq Ha Hc [].
  pose proof (frames_eq _ _ Hw Hq) as Hf. pose proof (owners_eq _ _ Hw Hq Hc) as Ho.
  split; rewrite ?Hp, ?Hw, ?Hq, ?Ha, ?Hc, ?Hf, ?Ho; done.
Qed.

Lemma Runtime_pop st f o rest :
  Runtime st -> queue st = (f, o) :: rest -> Runtime (popped rest st).
Proof.
  intros HI Hq. pose proof (pop_frame_in st f o rest HI Hq) as Hsub.
  split; simpl.
  - apply HI.
  - intros g t Hg. eapply target_pending; eauto.
  - apply HI.
  - apply HI.
  - by eapply pop_owners_nodup.
  - intros a Ha Hin. eapply all_disjoint; eauto. by eapply pop_owners_sub.
  - intros a i Hg. eapply all_known; eauto.
  - apply HI.
Qed.

Lemma owners_settle x o st : owners (settle x o st) ≡ₚ owners st.
Proof.
  destruct (decide (promises st !! x = Some Pending)) as [Hp|Hp].
  - unfold owners. rewrite (settle_frames x o st Hp).
    by rewrite (proj1 (proj2 (proj2 (proj2 (proj2 (settle_fields x o st)))))).
  - by rewrite settle_idle.
Qed.

Lemma frames_settle x o st : frames (settle x o st) ≡ₚ frames st.
Proof.
  destruct (decide (promises st !! x = Some Pending)) as [Hp|Hp].
  - by apply settle_frames.
  - by rewrite settle_idle.
Qed.

Lemma promises_settle_other x o st y :
  y <> x -> promises (settle x o st) !! y = promises st !! y.
Proof.
  intros Hne. destruct (decide (promises st !! x = Some Pending)) as [Hp|Hp].
  - rewrite (settle_promises x o st Hp). by destruct (decide (y = x)).
  - by rewrite settle_idle.
Qed.

Lemma waiting_settle_sub x o st w f :
  (w, f) ∈ waiting (settle x o st) -> (w, f) ∈ waiting st /\ promises (settle x o st) !! w = promises st !! w.
Proof.
  destruct (decide (promises st !! x = Some Pending)) as [Hp|Hp].
  - intros [H Hne]%(settle_waiting x o st Hp). split; [done|].
    by apply promises_settle_other.
  - by rewrite settle_idle.
Qed.

(** Settling a promise that no live frame targets. *)
Lemma Runtime_settle_free x o st :
  Runtime st ->
  (forall f, f ∈ frames st -> target f <> Some x) ->
  (forall r, alls st !! x = Some r -> o = Fulfilled -> remaining r = 0) ->
  Runtime (settle x o st).
Proof.
  intros HI Hfree Hall.
  destruct (settle_fields x o st) as (Hl & Hlp & Ha & Has & Hc & Hco & Hlen).
  split.
  - intros w f [Hw ->]%waiting_settle_sub. by eapply wait_pending.
  - intros f t Hf Ht. rewrite frames_settle in Hf.
    rewrite promises_settle_other; [by eapply target_pending|].
    intros ->. by eapply Hfree.
  - rewrite Hc, Hlen. apply HI.
  - rewrite Ha, Hlen. apply HI.
  - rewrite owners_settle. apply HI.
  - intros a Hin. rewrite owners_settle. rewrite Ha in Hin. by apply HI.
  - intros a i Hin. rewrite frames_settle in Hin. rewrite Ha. by eapply all_known.
  - intros a r Hr. rewrite Ha in Hr. destruct (all_count _ HI a r Hr) as [H1 H2].
    split; [done|]. intros Hf. destruct (decide (a = x)) as [->|Hne].
    + destruct (decide (promises st !! x = Some Pending)) as [Hp|Hp].
      * rewrite (settle_promises x o st Hp) in Hf.
        destruct (decide (x = x)); [|done]. apply Hall; [done|congruence].
      * rewrite settle_idle in Hf by done. auto.
    + rewrite promises_settle_other in Hf by done. auto.
Qed.

Lemma Runtime_new_promise st : Runtime st -> Runtime (new_promise st).1.
Proof.
  intros HI. split; simpl.
  - intros w f Hw. apply lookup_app_l_Some. by eapply wait_pending.
  - intros f t Hf Ht. apply lookup_app_l_Some. by eapply target_pending.
  - intros d Hd. rewrite length_app. simpl. pose proof (ext_bound _ HI d Hd). lia.
  - intros a Ha. rewrite length_app. simpl. pose proof (all_bound _ HI a Ha). lia.
  - apply HI.
  - apply HI.
  - apply HI.
  - intros a r Hr. destruct (all_count _ HI a r Hr) as [H1 H2]. split; [done|].
    intros Hf. apply H2. rewrite lookup_app_l in Hf; [done|].
    apply (all_bound _ HI). by rewrite Hr.
Qed.

Lemma frames_subscribe w f st : frames (subscribe w f st) ≡ₚ f :: frames st.
Proof.
  unfold subscribe, frames. destruct (pstate_of st w); simpl.
  - rewrite fmap_app. simpl. rewrite <- app_assoc. simpl.
    by rewrite <- Permutation_middle.
  - rewrite fmap_app. simpl. rewrite app_assoc.
    by rewrite <- Permutation_cons_append.
Qed.

Lemma owners_subscribe w f st :
  owners (subscribe w f st) ≡ₚ option_list (target f) ++ owners st.
Proof.
  unfold owners. rewrite frames_subscribe. simpl.
  replace (calls (subscribe w f st)) with (calls st)
    by (unfold subscribe; by destruct (pstate_of st w)).
  by destruct (target f).
Qed.

Lemma subscribe_fields w f st :
  loaded (subscribe w f st) = loaded st /\ loadPromises (subscribe w f st) = loadPromises st
  /\ promises (subscribe w f st) = promises st /\ alls (subscribe w f st) = alls st
  /\ assets (subscribe w f st) = assets st /\ calls (subscribe w f st) = calls st
  /\ console (subscribe w f st) = console st.
Proof. unfold subscribe. by destruct (pstate_of st w). Qed.

Lemma subscribe_waiting w f st w' f' :
  (w', f') ∈ waiting (subscribe w f st) <->
  (w', f') ∈ waiting st \/ (w' = w /\ f' = f /\ pstate_of st w = Pending).
Proof.
  unfold subscribe. destruct (pstate_of st w) eqn:Hw; simpl.
  - rewrite elem_of_app, list_elem_of_singleton. split.
    + intros [?|[= -> ->]]; auto.
    + intros [?|(-> & -> & _)]; auto.
  - split; [auto|]. by intros [?|(_ & _ & ?)].
Qed.

Lemma subscribe_queue w f st f' o :
  (f', o) ∈ queue (subscribe w f st) <->
  (f', o) ∈ queue st \/ (f' = f /\ pstate_of st w = Settled o).
Proof.
  unfold subscribe. destruct (pstate_of st w) eqn:Hw; simpl.
  - split; [auto|]. by intros [?|(_ & ?)].
  - rewrite elem_of_app, list_elem_of_singleton. split.
    + intros [?|[= -> ->]]; auto.
    + intros [?|[-> [= ->]]]; auto.
Qed.

Lemma Runtime_subscribe w f st :
  Runtime st ->
  is_Some (promises st !! w) ->
  (forall t, target f = Some t ->
     promises st !! t = Some Pending /\ (t ∉ owners st) /\ alls st !! t = None) ->
  (forall a i, f = AllElem a i -> is_Some (alls st !! a)) ->
  Runtime (subscribe w f st).
Proof.
  intros HI Hw Ht Ha.
  destruct (subscribe_fields w f st) as (Hl & Hlp & Hp & Hal & Has & Hc & Hco).
  split; rewrite ?Hp, ?Hal, ?Hc.
  - intros w' f' [H|(-> & -> & Hpend)]%subscribe_waiting; [by eapply wait_pending|].
    unfold pstate_of in Hpend. destruct Hw as [[|o] Hw]; rewrite Hw in Hpend; done.
  - intros g t Hg Hgt. rewrite frames_subscribe in Hg.
    apply elem_of_cons in Hg as [->|Hg]; [by apply Ht|by eapply target_pending].
  - apply HI.
  - apply HI.
  - rewrite owners_subscribe. destruct (target f) as [t|] eqn:Htf; simpl; [|apply HI].
    apply NoDup_cons. split; [by apply Ht|apply HI].
  - intros a Hin. rewrite owners_subscribe. destruct (target f) as [t|] eqn:Htf; simpl.
    + apply not_elem_of_cons. split; [|by apply HI].
      intros ->. destruct (Ht t eq_refl) as (_ & _ & Hn). rewrite Hn in Hin.
      by destruct Hin.
    + by apply HI.
  - intros a i Hg. rewrite frames_subscribe in Hg.
    apply elem_of_cons in Hg as [<-|Hg]; [by eapply Ha|by eapply all_known].
  - apply HI.
Qed.

Lemma Runtime_add_call c st :
  Runtime st ->
  ext_pid c < length (promises st) -> ext_pid c ∉ owners st ->
  alls st !! ext_pid c = None ->
  Runtime (set_calls (fun l => l ++ [c]) st).
Proof.
  intros HI Hb Hfree Hna.
  assert (Hown : owners (set_calls (fun l => l ++ [c]) st) ≡ₚ ext_pid c :: owners st).
  { unfold owners. simpl. rewrite fmap_app. simpl.
    rewrite app_assoc. by rewrite <- Permutation_cons_append. }
  split; simpl; try apply HI.
  - intros d Hd. rewrite fmap_app in Hd. apply elem_of_app in Hd as [Hd|Hd].
    + by apply HI.
    + apply list_elem_of_singleton in Hd. by subst.
  - rewrite Hown. apply NoDup_cons. split; [done|apply HI].
  - intros a Hin. rewrite Hown. apply not_elem_of_cons. split; [|by apply HI].
    intros ->. rewrite Hna in Hin. by destruct Hin.
Qed.

Lemma Runtime_all_insert a r st :
  Runtime st ->
  a < length (promises st) -> a ∉ owners st ->
  remaining r = count_false (called r) ->
  (promises st !! a = Some (Settled Fulfilled) -> remaining r = 0) ->
  Runtime (set_alls (fun m => <[a := r]> m) st).
Proof.
  intros HI Hb Hfree Hcount Hdone.
  split; simpl.
  - apply HI.
  - apply HI.
  - apply HI.
  - intros b Hin. apply lookup_insert_is_Some in Hin as [<-|[_ Hin]]; [done|].
    by apply (all_bound _ HI).
  - apply HI.
  - intros b Hin. apply lookup_insert_is_Some in Hin as [<-|[_ Hin]]; [done|].
    by apply (all_disjoint _ HI).
  - intros b i Hg. apply lookup_insert_is_Some'. right. by eapply all_known.
  - intros b r' Hr. destruct (decide (a = b)) as [->|Hne].
    + rewrite lookup_insert_eq in Hr. by inversion Hr; subst.
    + rewrite lookup_insert_ne in Hr by done. by apply HI.
Qed.

(** ** The registry invariant under the primitive steps *)

Lemma registered_eq E st st' name :
  calls st' = calls st -> promises st' = promises st ->
  registered E st name -> registered E st' name.
Proof. unfold registered. by intros -> ->. Qed.

Lemma Registry_fields E st st' :
  loaded st' = loaded st -> loadPromises st' = loadPromises st ->
  promises st' = promises st -> waiting st' = waiting st ->
  queue st' = queue st -> calls st' = calls st ->
  Registry E st -> Registry E st'.
Proof.
  intros Hl Hlp Hp Hw Hq Hc [].
  pose proof (frames_eq _ _ Hw Hq) as Hf.
  assert (Hr : forall name, registered E st' name <-> registered E st name).
  { intros name. unfold registered. by rewrite Hc, Hp. }
  split; intros *; rewrite ?Hr, ?Hl, ?Hlp, ?Hw, ?Hq, ?Hc, ?Hf; eauto.
Qed.

Lemma Registry_new_promise E st : Registry E st -> Registry E (new_promise st).1.
Proof.
  intros HI.
  assert (Hr : forall name, registered E st name -> registered E (new_promise st).1 name).
  { intros name. apply registered_mono; [done|]. intros n Hn. simpl.
    by apply lookup_app_l_Some. }
  split; simpl; intros *; registry_lift HI Hr.
Qed.

Lemma Registry_add_call E c st :
  Registry E st -> Registry E (set_calls (fun l => l ++ [c]) st).
Proof.
  intros HI.
  assert (Hr : forall name, registered E st name ->
                            registered E (set_calls (fun l => l ++ [c]) st) name).
  { intros name. apply registered_mono; [|done]. intros c' Hc. simpl.
    apply elem_of_app. by left. }
  split; simpl; intros *; try registry_lift HI Hr.
  intros Hw. destruct (native_wait _ _ HI n name a s Hw) as [uri Hc].
  exists uri. apply elem_of_app. by left.
Qed.

Lemma registered_settle E x o st name :
  registered E st name -> registered E (settle x o st) name.
Proof.
  apply registered_mono.
  - intros c Hc. by rewrite (proj1 (proj2 (proj2 (proj2 (proj2 (settle_fields x o st)))))).
  - intros n Hn. destruct (decide (promises st !! x = Some Pending)) as [Hp|Hp].
    + rewrite promises_settle_other; [done|]. intros ->. congruence.
    + by rewrite settle_idle.
Qed.

Lemma queue_settle_cases x o st f o' :
  (f, o') ∈ queue (settle x o st) ->
  (f, o') ∈ queue st
  \/ (o' = o /\ (x, f) ∈ waiting st /\ promises st !! x = Some Pending
      /\ promises (settle x o st) !! x = Some (Settled o)).
Proof.
  destruct (decide (promises st !! x = Some Pending)) as [Hp|Hp].
  - intros [H|[-> H]]%(settle_queue x o st Hp); [by left|right].
    repeat split; try done. rewrite (settle_promises x o st Hp).
    by destruct (decide (x = x)).
  - rewrite settle_idle by done. by left.
Qed.

Lemma waiting_settle_keep x o st w f :
  (w, f) ∈ waiting st -> w <> x -> (w, f) ∈ waiting (settle x o st).
Proof.
  intros Hw Hne. destruct (decide (promises st !! x = Some Pending)) as [Hp|Hp].
  - by apply (settle_waiting x o st Hp).
  - by rewrite settle_idle.
Qed.

Lemma single_target f name s : is_single f name s -> target f = Some s.
Proof. by intros [a [->| ->]]. Qed.

Lemma shared_target f name q : is_shared f name q -> target f = Some q.
Proof. by intros [->| ->]. Qed.

Lemma Registry_settle_free E x o st :
  Runtime st -> Registry E st ->
  (forall f, f ∈ frames st -> target f <> Some x) ->
  Registry E (settle x o st).
Proof.
  intros HR HI Hfree.
  destruct (settle_fields x o st) as (Hl & Hlp & Ha & Has & Hc & Hco & Hlen).
  split; intros *; rewrite ?Hl, ?Hlp, ?Hc, ?frames_settle.
  - by apply HI.
  - by apply HI.
  - by apply HI.
  - by apply HI.
  - intros Hf Hs. destruct (single_chain _ _ HI _ _ _ Hf Hs) as [p Hw].
    exists p. apply waiting_settle_keep; [done|].
    intros ->. eapply Hfree; eauto using single_target.
  - intros [Hw _]%waiting_settle_sub.
    destruct (single_owner _ _ HI _ _ _ Hw) as (g & Hg & Hs).
    exists g. by rewrite frames_settle.
  - intros [Hw _]%waiting_settle_sub Hs. by eapply shared_wait.
  - intros [Hq|(_ & Hw & _)]%queue_settle_cases Hs; [by eapply shared_done|].
    exfalso. eapply Hfree; [by eapply shared_wait|done].
  - intros [Hw _]%waiting_settle_sub. by eapply native_wait.
  - intros [Hq|(Ho & Hw & Hp & Hp')]%queue_settle_cases.
    + apply registered_settle. by eapply native_done.
    + destruct (native_wait _ _ HI _ _ _ _ Hw) as [uri Hcall].
      exists uri, x. rewrite Hc. split; [done|]. by rewrite Ho.
  - intros [Hq|(Ho & Hw & _)]%queue_settle_cases.
    + apply registered_settle. by eapply single_done.
    + exfalso. destruct (single_owner _ _ HI _ _ _ Hw) as (g & Hg & Hs).
      eapply Hfree; eauto using single_target.
  - intros Hlk. apply registered_settle. by apply HI.
Qed.

Lemma Registry_subscribe_plain E w f st :
  Registry E st -> plain f -> Registry E (subscribe w f st).
Proof.
  intros HI Hpl.
  destruct (subscribe_fields w f st) as (Hl & Hlp & Hp & Hal & Has & Hc & Hco).
  assert (Hr : forall name, registered E st name -> registered E (subscribe w f st) name).
  { intros name. by apply registered_eq. }
  assert (Hfr : forall g, g ∈ frames st -> g ∈ frames (subscribe w f st)).
  { intros g Hg. rewrite frames_subscribe. apply elem_of_cons. by right. }
  assert (Hwt : forall w' g, (w', g) ∈ waiting st -> (w', g) ∈ waiting (subscribe w f st)).
  { intros w' g Hg. apply subscribe_waiting. by left. }
  split; rewrite ?Hl, ?Hlp, ?Hc.
  - intros name p H. by apply Hfr, HI.
  - intros name p. rewrite frames_subscribe.
    intros [Heq|H]%elem_of_cons; [by subst f|by apply HI].
  - apply HI.
  - apply HI.
  - intros g name s. rewrite frames_subscribe. intros [Heq|H]%elem_of_cons Hs.
    + subst g. by destruct Hs as [a [->| ->]].
    + destruct (single_chain _ _ HI _ _ _ H Hs) as [p Hw]. eauto.
  - intros s name p [H|(_ & Heq & _)]%subscribe_waiting; [|by subst f].
    destruct (single_owner _ _ HI _ _ _ H) as (g & Hg & Hs). eauto.
  - intros w' g name q [H|(_ & Heq & _)]%subscribe_waiting Hs.
    + apply Hfr. by eapply shared_wait.
    + subst g. by destruct Hs as [->| ->].
  - intros g name q [H|(Heq & _)]%subscribe_queue Hs.
    + by eapply shared_done.
    + subst g. by destruct Hs as [->| ->].
  - intros n name a s [H|(_ & Heq & _)]%subscribe_waiting; [|by subst f].
    by eapply native_wait.
  - intros name a s [H|(Heq & _)]%subscribe_queue; [|by subst f].
    apply Hr. by eapply native_done.
  - intros name p [H|(Heq & _)]%subscribe_queue; [|by subst f].
    apply Hr. by eapply single_done.
  - intros name H. by apply Hr, HI.
Qed.

(** ** A frame ends and settles its own promise *)
Section Finish.

Variables (E : Env) (st : state) (f : frame) (o o' : outcome)
          (rest : list (frame * outcome)) (t : pid).

Hypothesis HR : Runtime st.

Hypothesis HI : Registry E st.

Hypothesis Hq : queue st = (f, o) :: rest.

Hypothesis Ht : target f = Some t.

Hypothesis Hkind : forall name p, f <> AwaitSingle name p.

Hypothesis Hreg : forall name, is_single f name t -> o' = Fulfilled ->
                               registered E st name.

Let mid := popped rest st.

Let st' := settle t o' mid.

Let Hp : promises mid !! t = Some Pending.
Proof. simpl. eapply pop_target_pending; eauto. Qed.

Let cases := pop_frame_cases st f o rest HR Hq.

Let sub := pop_frame_in st f o rest HR Hq.

Let qsub := pop_queue_in st f o rest HR Hq.

Let other := fun g => pop_other_target st f o rest HR Hq g t Ht.

Let notext := fun c => pop_not_ext st f o rest HR Hq t c Ht.

Lemma Runtime_finish : Runtime st'.
Proof using HR Hq Ht.
  apply Runtime_settle_free.
  - by eapply Runtime_pop.
  - intros g Hg. by apply other.
  - intros r Hr. simpl in Hr. by rewrite (pop_not_all st f o rest HR Hq t Ht) in Hr.
Qed.

Lemma finish_frame_in g : g ∈ frames st' <-> g ∈ frames mid.
Proof using HR Hq Ht. unfold st'. by rewrite (settle_frames t o' mid Hp). Qed.

Lemma finish_registered name : registered E st name -> registered E st' name.
Proof using HR Hq Ht. intros H. unfold st'. apply registered_settle. by apply (registered_eq E st). Qed.

Lemma finish_single_in name p :
  AwaitSingle name p ∈ frames st -> AwaitSingle name p ∈ frames st'.
Proof using HR Hq Ht Hkind.
  intros H. apply finish_frame_in.
  destruct (cases _ H) as [Heq|?]; [|done].
  exfalso. by eapply Hkind.
Qed.

Lemma Registry_finish : Registry E st'.
Proof using All.
  destruct (settle_fields t o' mid) as (Hl & Hlp & Ha & Has & Hc & Hco & Hlen).
  fold st' in Hl, Hlp, Ha, Has, Hc, Hco, Hlen. simpl in *.
  split.
  - intros name p Hlk. rewrite Hlp in Hlk. apply finish_single_in.
    by eapply entry_frame.
  - intros name p Hin. rewrite Hlp. apply finish_frame_in in Hin.
    eapply frame_entry; eauto.
  - intros name p Hlk. rewrite Hlp in Hlk. rewrite Hl. by eapply entry_fresh.
  - intros name b Hlk. rewrite Hl in Hlk. by eapply loaded_own.
  - (* single_chain *)
    intros g name s Hg Hs. apply finish_frame_in in Hg.
    destruct (single_chain _ _ HI g name s) as [p Hw]; [by apply sub|done|].
    exists p. apply (settle_waiting t o' mid Hp). split; [done|].
    intros ->. eapply other; eauto using single_target.
  - (* single_owner *)
    intros s name p Hw. apply (settle_waiting t o' mid Hp) in Hw as [Hw Hne]. simpl in Hw.
    destruct (single_owner _ _ HI s name p Hw) as (g & Hg & Hs).
    exists g. split; [|done]. apply finish_frame_in.
    destruct (cases _ Hg) as [->|?]; [|done].
    exfalso. apply Hne. apply single_target in Hs. congruence.
  - (* shared_wait *)
    intros w g name q Hw Hs. apply (settle_waiting t o' mid Hp) in Hw as [Hw Hne].
    apply finish_single_in. by eapply shared_wait.
  - (* shared_done *)
    intros g name q Hg Hs. rewrite Hl.
    apply (settle_queue t o' mid Hp) in Hg as [Hg|[Ho Hg]]; simpl in Hg.
    + eapply shared_done; eauto.
    + exfalso. pose proof (shared_wait _ _ HI _ _ _ _ Hg Hs) as Hin.
      destruct (cases _ Hin) as [Heq|Hin'].
      * by eapply Hkind.
      * by eapply other.
  - (* native_wait *)
    intros n name a s Hw. apply (settle_waiting t o' mid Hp) in Hw as [Hw Hne].
    rewrite Hc. by eapply native_wait.
  - (* native_done *)
    intros name a s Hg.
    apply (settle_queue t o' mid Hp) in Hg as [Hg|[Ho Hg]]; simpl in Hg.
    + apply finish_registered. eapply native_done; eauto.
    + exfalso. destruct (native_wait _ _ HI _ _ _ _ Hg) as [uri Hcall].
      by eapply (notext _ Hcall).
  - (* single_done *)
    intros name p Hg.
    apply (settle_queue t o' mid Hp) in Hg as [Hg|[Ho Hg]]; simpl in Hg.
    + apply finish_registered. eapply single_done; eauto.
    + apply finish_registered, Hreg; [|done].
      destruct (single_owner _ _ HI _ _ _ Hg) as (g & Hin & Hs).
      destruct (cases _ Hin) as [->|Hin']; [done|].
      exfalso. eapply other; eauto using single_target.
  - intros name Hlk. rewrite Hl in Hlk. apply finish_registered.
    by eapply loaded_registered.
Qed.

End Finish.

(** ** The shared operation of a name settles (lines 115-122) *)
Section Single.

Variables (E : Env) (st : state) (name : string) (p : pid) (o : outcome)
          (rest : list (frame * outcome)).

Hypothesis HR : Runtime st.

Hypothesis HI : Registry E st.

Hypothesis Hq : queue st = (AwaitSingle name p, o) :: rest.

Let f := AwaitSingle name p.

Let st1 :=
  match o with
  | Fulfilled => set_loaded (fun m => <[name := true]> m) (popped rest st)
  | Rejected _ => popped rest st
  end.

Let mid := set_loadPromises (fun m => delete name m) st1.

Let st' := settle p o mid.

Let Hmid : promises mid = promises st /\ waiting mid = waiting st
           /\ queue mid = rest /\ alls mid = alls st /\ calls mid = calls st
           /\ loadPromises mid = delete name (loadPromises st).
Proof. unfold mid, st1. by destruct o. Qed.

Let Hloaded : loaded mid = match o with
                           | Fulfilled => <[name := true]> (loaded st)
                           | Rejected _ => loaded st
                           end.
Proof. unfold mid, st1. by destruct o. Qed.

Let Hfm : frames mid = frames (popped rest st).
Proof. unfold mid, st1. by destruct o. Qed.

Let Hp : promises mid !! p = Some Pending.
Proof.
  destruct Hmid as (-> & _). by eapply (pop_target_pending st f o rest HR Hq).
Qed.

Let cases := pop_frame_cases st f o rest HR Hq.

Let sub := pop_frame_in st f o rest HR Hq.

Let qsub := pop_queue_in st f o rest HR Hq.

Let other := fun g => pop_other_target st f o rest HR Hq g p eq_refl.

Let notext := fun c => pop_not_ext st f o rest HR Hq p c eq_refl.

Lemma single_entry : loadPromises st !! name = Some p.
Proof using HR HI Hq.
  eapply frame_entry; eauto. by eapply (pop_head_frame st f o rest).
Qed.

Lemma Runtime_single : Runtime st'.
Proof using HR Hq.
  destruct Hmid as (H1 & H2 & H3 & H4 & H5 & _).
  assert (Runtime mid) as HRm.
  { apply (Runtime_fields (popped rest st)); try done.
    by eapply Runtime_pop. }
  apply Runtime_settle_free; [done| |].
  - intros g Hg. rewrite Hfm in Hg. by apply other.
  - intros r Hr. rewrite H4 in Hr.
    by rewrite (pop_not_all st f o rest HR Hq p eq_refl) in Hr.
Qed.

Let frame_in g : g ∈ frames st' <-> g ∈ frames (popped rest st).
Proof. unfold st'. by rewrite (settle_frames p o mid Hp), Hfm. Qed.

Let reg_keep n : registered E st n -> registered E st' n.
Proof.
  intros H. unfold st'. apply registered_settle.
  destruct Hmid as (H1 & _ & _ & _ & H5 & _). by apply (registered_eq E st).
Qed.

Let loaded_keep n : is_Some (loaded st !! n) -> is_Some (loaded mid !! n).
Proof.
  rewrite Hloaded. destruct o; [|done]. intros H.
  apply lookup_insert_is_Some'. by right.
Qed.

Lemma Registry_single : Registry E st'.
Proof using All.
  destruct (settle_fields p o mid) as (Hl & Hlp & Ha & Has & Hc & Hco & Hlen).
  fold st' in Hl, Hlp, Ha, Has, Hc, Hco, Hlen.
  destruct Hmid as (Hm1 & Hm2 & Hm3 & Hm4 & Hm5 & Hm6).
  pose proof single_entry as Hent.
  destruct (entry_fresh _ _ HI _ _ Hent) as [Hnl Hninh].
  split.
  - intros n p' Hlk. rewrite Hlp, Hm6 in Hlk.
    apply lookup_delete_Some in Hlk as [Hne Hlk]. apply frame_in.
    destruct (cases _ (entry_frame _ _ HI _ _ Hlk)) as [Heq|?]; [|done].
    inversion Heq. congruence.
  - intros n p' Hin. apply frame_in in Hin. rewrite Hlp, Hm6.
    pose proof (frame_entry _ _ HI _ _ (sub _ Hin)) as Hlk.
    apply lookup_delete_Some. split; [|done].
    intros <-. rewrite Hent in Hlk. inversion Hlk; subst p'.
    by eapply (other _ Hin).
  - intros n p' Hlk. rewrite Hlp, Hm6 in Hlk.
    apply lookup_delete_Some in Hlk as [Hne Hlk].
    destruct (entry_fresh _ _ HI _ _ Hlk) as [H1 H2]. split; [|done].
    rewrite Hl, Hloaded. destruct o; [|done]. by rewrite lookup_insert_ne.
  - intros n b Hlk. rewrite Hl, Hloaded in Hlk. destruct o.
    + apply lookup_insert_Some in Hlk as [[<- <-]|[_ Hlk]]; [done|].
      by eapply loaded_own.
    + by eapply loaded_own.
  - intros g n s Hg Hs. apply frame_in in Hg.
    destruct (single_chain _ _ HI g n s (sub _ Hg) Hs) as [p' Hw].
    exists p'. apply (settle_waiting p o mid Hp). rewrite Hm2. split; [done|].
    intros ->. eapply other; eauto using single_target.
  - intros s n p' Hw. apply (settle_waiting p o mid Hp) in Hw as [Hw Hne].
    rewrite Hm2 in Hw. destruct (single_owner _ _ HI s n p' Hw) as (g & Hg & Hs).
    exists g. split; [|done]. apply frame_in.
    destruct (cases _ Hg) as [->|?]; [|done]. by destruct Hs as [a [?|?]].
  - intros w g n q Hw Hs. apply (settle_waiting p o mid Hp) in Hw as [Hw Hne].
    rewrite Hm2 in Hw. apply frame_in.
    destruct (cases _ (shared_wait _ _ HI _ _ _ _ Hw Hs)) as [Heq|?]; [|done].
    inversion Heq. congruence.
  - intros g n q Hg Hs. rewrite Hl.
    apply (settle_queue p o mid Hp) in Hg as [Hg|[Ho Hg]].
    + rewrite Hm3 in Hg. apply loaded_keep. eapply shared_done; eauto.
    + rewrite Hm2 in Hg.
      destruct (cases _ (shared_wait _ _ HI _ _ _ _ Hg Hs)) as [Heq|Hin].
      * inversion Heq; subst n. rewrite Hloaded, <- Ho.
        by rewrite lookup_insert_eq.
      * exfalso. by eapply (other _ Hin).
  - intros n nm a s Hw. apply (settle_waiting p o mid Hp) in Hw as [Hw Hne].
    rewrite Hm2 in Hw. rewrite Hc, Hm5. by eapply native_wait.
  - intros nm a s Hg.
    apply (settle_queue p o mid Hp) in Hg as [Hg|[Ho Hg]].
    + rewrite Hm3 in Hg. apply reg_keep. eapply native_done; eauto.
    + rewrite Hm2 in Hg. exfalso.
      destruct (native_wait _ _ HI _ _ _ _ Hg) as [uri Hcall].
      by eapply (notext _ Hcall).
  - intros nm p' Hg.
    apply (settle_queue p o mid Hp) in Hg as [Hg|[Ho Hg]].
    + rewrite Hm3 in Hg. apply reg_keep. eapply single_done; eauto.
    + rewrite Hm2 in Hg. exfalso.
      destruct (single_owner _ _ HI _ _ _ Hg) as (g & Hin & Hs).
      destruct (cases _ Hin) as [->|Hin']; [by destruct Hs as [a [?|?]]|].
      eapply other; eauto using single_target.
  - intros n Hlk. rewrite Hl, Hloaded in Hlk. apply reg_keep.
    assert (Hhead : (AwaitSingle name p, o) ∈ queue st)
      by (by eapply (pop_head_in st f o rest)).
    destruct o.
    + apply lookup_insert_is_Some in Hlk as [<-|[_ Hlk]].
      * by eapply single_done.
      * by eapply loaded_registered.
    + by eapply loaded_registered.
Qed.

End Single.

Lemma owners_bound st x : Runtime st -> x ∈ owners st -> x < length (promises st).
Proof.
  intros HR. unfold owners. rewrite elem_of_app, list_elem_of_omap.
  intros [(f & Hf & Ht)|Hx].
  - eapply lookup_lt_Some, target_pending; eauto.
  - by apply (ext_bound _ HR).
Qed.

Lemma fresh_free st : Runtime st -> length (promises st) ∉ owners st.
Proof. intros HR Hin. apply (owners_bound _ _ HR) in Hin. lia. Qed.

Lemma fresh_not_all st : Runtime st -> alls st !! length (promises st) = None.
Proof.
  intros HR. destruct (alls st !! length (promises st)) eqn:Ha; [|done].
  assert (is_Some (alls st !! length (promises st))) as H by (by rewrite Ha).
  apply (all_bound _ HR) in H. lia.
Qed.

(** ** The download succeeded: the native module is called (line 148) *)
Section Download.

Variables (E : Env) (st : state) (name : string) (asset : nat) (s : pid)
          (nativeName : string) (uri : maybe_string)
          (rest : list (frame * outcome)).

Hypothesis HR : Runtime st.

Hypothesis Hq : queue st = (AwaitDownload name asset s, Fulfilled) :: rest.

Let f := AwaitDownload name asset s.

Let n := length (promises st).

Let st1 := (ExpoFontLoader_loadAsync nativeName uri (popped rest st)).1.

Let st' := subscribe n (AwaitNative name asset s) st1.

Lemma download_state :
  st' = mkState (loaded st) (loadPromises st) (promises st ++ [Pending])
                (waiting st ++ [(n, AwaitNative name asset s)]) rest
                (alls st) (assets st)
                (calls st ++ [CallNative nativeName uri n]) (console st).
Proof using Type.
  unfold st', st1. unfold ExpoFontLoader_loadAsync. simpl.
  rewrite subscribe_pending; [done|]. unfold pstate_of. simpl.
  by rewrite lookup_app_r, Nat.sub_diag.
Qed.

Lemma Runtime_download : Runtime st'.
Proof using HR Hq.
  pose proof (Runtime_pop st f Fulfilled rest HR Hq) as H0.
  pose proof (Runtime_new_promise _ H0) as H1.
  assert (Runtime st1) as H2.
  { unfold st1, ExpoFontLoader_loadAsync. simpl.
    apply (Runtime_add_call (CallNative nativeName uri n) _ H1); simpl.
    - rewrite length_app. simpl. unfold n. lia.
    - apply (fresh_free _ H0).
    - apply (fresh_not_all _ H0). }
  unfold st'. apply Runtime_subscribe; [done| | |done].
  - unfold st1, ExpoFontLoader_loadAsync. simpl.
    rewrite lookup_app_r, Nat.sub_diag; [by eexists|done].
  - intros t [= <-].
    pose proof (pop_target_pending st f Fulfilled rest HR Hq s eq_refl) as Hs.
    repeat split.
    + unfold st1, ExpoFontLoader_loadAsync. simpl. by apply lookup_app_l_Some.
    + unfold st1, ExpoFontLoader_loadAsync, owners. simpl.
      rewrite fmap_app, app_assoc. simpl. intros Hin.
      apply elem_of_app in Hin as [Hin|Hin].
      * by apply (pop_target_free st f Fulfilled rest HR Hq s eq_refl).
      * apply list_elem_of_singleton in Hin. apply lookup_lt_Some in Hs.
        unfold n in Hin. lia.
    + unfold st1, ExpoFontLoader_loadAsync. simpl.
      by apply (pop_not_all st f Fulfilled rest HR Hq s eq_refl).
Qed.

Hypothesis HI : Registry E st.

Hypothesis Hnative : nativeName = _getNativeFontName E name.

Let cases := pop_frame_cases st f Fulfilled rest HR Hq.

Let sub := pop_frame_in st f Fulfilled rest HR Hq.

Let qsub := pop_queue_in st f Fulfilled rest HR Hq.

Let frame_in g :
  g ∈ frames st' <-> g = AwaitNative name asset s \/ g ∈ frames (popped rest st).
Proof.
  rewrite download_state. unfold frames. simpl.
  rewrite fmap_app, !elem_of_app. simpl. rewrite list_elem_of_singleton. tauto.
Qed.

Let reg_keep nm : registered E st nm -> registered E st' nm.
Proof.
  rewrite download_state. apply registered_mono; simpl.
  - intros c Hc. apply elem_of_app. by left.
  - intros k Hk. by apply lookup_app_l_Some.
Qed.

Lemma Registry_download : Registry E st'.
Proof using All.
  split.
  - intros nm p Hlk. rewrite download_state in Hlk. simpl in Hlk.
    apply frame_in. right.
    destruct (cases _ (entry_frame _ _ HI _ _ Hlk)) as [Heq|?]; done.
  - intros nm p [Heq|Hin]%frame_in; [done|].
    rewrite download_state. simpl. eapply frame_entry; eauto.
  - rewrite download_state. simpl. apply HI.
  - rewrite download_state. simpl. apply HI.
  - intros g nm s' Hg Hs.
    assert (exists p, (s', AwaitSingle nm p) ∈ waiting st) as [p Hw].
    { apply frame_in in Hg as [->|Hg].
      - destruct Hs as [a [?|[= <- <- <-]]]; [done|].
        eapply single_chain; eauto using pop_head_frame.
        exists asset. by left.
      - eapply single_chain; eauto. }
    exists p. rewrite download_state. simpl. apply elem_of_app. by left.
  - intros s' nm p Hw. rewrite download_state in Hw. simpl in Hw.
    apply elem_of_app in Hw as [Hw|Hw]; [|by apply list_elem_of_singleton in Hw].
    destruct (single_owner _ _ HI _ _ _ Hw) as (g & Hg & Hs).
    destruct (cases _ Hg) as [->|Hin].
    + exists (AwaitNative name asset s). split; [apply frame_in; by left|].
      destruct Hs as [a [[= <- <- <-]|?]]; [|done]. exists asset. by right.
    + exists g. split; [|done]. apply frame_in. by right.
  - intros w g nm q Hw Hs. rewrite download_state in Hw. simpl in Hw.
    apply elem_of_app in Hw as [Hw|Hw].
    + apply frame_in. right.
      destruct (cases _ (shared_wait _ _ HI _ _ _ _ Hw Hs)) as [Heq|?]; done.
    + apply list_elem_of_singleton in Hw. inversion Hw; subst.
      by destruct Hs.
  - intros g nm q Hg Hs. rewrite download_state in *. simpl in *.
    eapply shared_done; eauto.
  - intros k nm a s' Hw. rewrite download_state in *. simpl in *.
    apply elem_of_app in Hw as [Hw|Hw].
    + destruct (native_wait _ _ HI _ _ _ _ Hw) as [u Hc]. exists u.
      apply elem_of_app. by left.
    + apply list_elem_of_singleton in Hw. inversion Hw; subst.
      exists uri. apply elem_of_app. right. by apply list_elem_of_singleton.
  - intros nm a s' Hg. apply reg_keep. rewrite download_state in Hg. simpl in Hg.
    eapply native_done; eauto.
  - intros nm p Hg. apply reg_keep. rewrite download_state in Hg. simpl in Hg.
    eapply single_done; eauto.
  - intros nm Hlk. apply reg_keep. rewrite download_state in Hlk. simpl in Hlk.
    by eapply loaded_registered.
Qed.

End Download.

(** ** Reactions of [Promise.all] *)

Lemma count_false_insert (l : list bool) i :
  l !! i = Some false ->
  count_false l = S (count_false (<[i := true]> l)).
Proof.
  unfold count_false. revert i. induction l as [|b l IH]; intros [|i] H; simpl in *; try done.
  - inversion H; subst. rewrite filter_cons_True by done.
    by rewrite filter_cons_False by done.
  - destruct b.
    + rewrite !filter_cons_False by done. by apply IH.
    + rewrite !filter_cons_True by done. simpl. f_equal. by apply IH.
Qed.

Lemma count_false_replicate n : count_false (replicate n false) = n.
Proof.
  unfold count_false. induction n as [|n IH]; [done|].
  change (replicate (S n) false) with (false :: replicate n false).
  rewrite filter_cons_True by done. simpl. by rewrite IH.
Qed.

Lemma Registry_pop_plain E st f o rest :
  Runtime st -> Registry E st -> queue st = (f, o) :: rest -> plain f ->
  Registry E (popped rest st).
Proof.
  intros HR HI Hq Hpl.
  pose proof (pop_frame_cases st f o rest HR Hq) as cases.
  pose proof (pop_frame_in st f o rest HR Hq) as sub.
  pose proof (pop_queue_in st f o rest HR Hq) as qsub.
  assert (Hr : forall nm, registered E st nm -> registered E (popped rest st) nm).
  { intros nm. by apply registered_eq. }
  split; simpl.
  - intros nm p Hlk. destruct (cases _ (entry_frame _ _ HI _ _ Hlk)) as [Heq|?]; [|done].
    by subst f.
  - intros nm p Hin. eapply frame_entry; eauto.
  - apply HI.
  - apply HI.
  - intros g nm s Hg Hs. eapply single_chain; eauto.
  - intros s nm p Hw. destruct (single_owner _ _ HI _ _ _ Hw) as (g & Hg & Hs).
    exists g. split; [|done]. destruct (cases _ Hg) as [Heq|?]; [|done].
    subst f. by destruct Hs as [a [->| ->]].
  - intros w g nm q Hw Hs.
    destruct (cases _ (shared_wait _ _ HI _ _ _ _ Hw Hs)) as [Heq|?]; [|done].
    by subst f.
  - intros g nm q Hg Hs. eapply shared_done; eauto.
  - intros n nm a s Hw. by eapply native_wait.
  - intros nm a s Hg. apply Hr. eapply native_done; eauto.
  - intros nm p Hg. apply Hr. eapply single_done; eauto.
  - intros nm Hlk. apply Hr. by eapply loaded_registered.
Qed.

Lemma all_not_target st a f :
  Runtime st -> is_Some (alls st !! a) -> f ∈ frames st -> target f <> Some a.
Proof.
  intros HR Ha Hf Ht. apply (all_disjoint _ HR a Ha). by eapply target_owner.
Qed.

Lemma ext_not_target st d f :
  Runtime st -> d ∈ map ext_pid (calls st) -> f ∈ frames st -> target f <> Some d.
Proof.
  intros HR Hd Hf Ht. pose proof (owners_nodup _ HR) as Hn. unfold owners in Hn.
  apply NoDup_app in Hn as (_ & Hn & _). apply (Hn d); [|done].
  apply list_elem_of_omap. eauto.
Qed.

Lemma ext_not_all st d :
  Runtime st -> d ∈ map ext_pid (calls st) -> alls st !! d = None.
Proof.
  intros HR Hd. destruct (alls st !! d) eqn:Ha; [|done]. exfalso.
  apply (all_disjoint _ HR d); [by rewrite Ha|by apply ext_owner].
Qed.

Section AllElement.

Variables (E : Env) (st : state) (a : pid) (i : nat) (o : outcome)
          (rest : list (frame * outcome)).

Hypothesis HR : Runtime st.

Hypothesis HI : Registry E st.

Hypothesis Hq : queue st = (AllElem a i, o) :: rest.

Let mid := popped rest st.

Let HRm : Runtime mid.
Proof. by eapply Runtime_pop. Qed.

Let HIm : Registry E mid.
Proof. by eapply Registry_pop_plain. Qed.

Let Hknown : is_Some (alls mid !! a).
Proof.
  simpl. apply (all_known st HR a i).
  exact (pop_head_frame st (AllElem a i) o rest HR Hq).
Qed.

Lemma Inv_all_reject e : Inv E (settle a (Rejected e) mid).
Proof using All.
  split.
  - apply Runtime_settle_free; [done| |done].
    intros g Hg. by apply (all_not_target mid).
  - apply Registry_settle_free; [done|done|].
    intros g Hg. by apply (all_not_target mid).
Qed.

Lemma Inv_all_element : Inv E (all_element a i mid).
Proof using All.
  unfold all_element. destruct (alls mid !! a) as [r|] eqn:Hr; [|done].
  destruct (called r !! i) as [[|]|] eqn:Hi; try done.
  set (r' := {| remaining := remaining r - 1; called := <[i := true]> (called r) |}).
  set (st1 := set_alls (fun m => <[a := r']> m) mid).
  destruct (all_count _ HRm a r Hr) as [Hcount Hdone].
  pose proof (count_false_insert _ _ Hi) as Hins.
  assert (Runtime st1) as HR1.
  { apply Runtime_all_insert; [done| | | |].
    - by apply (all_bound _ HRm).
    - by apply (all_disjoint _ HRm).
    - simpl. lia.
    - intros Hf. apply Hdone in Hf. lia. }
  assert (Registry E st1) as HI1 by (by apply (Registry_fields E mid)).
  assert (forall g, g ∈ frames st1 -> target g <> Some a) as Hfree.
  { intros g Hg. apply (all_not_target mid); done. }
  destruct (decide (remaining r' = 0)) as [Hz|Hnz]; [|done].
  split.
  - apply Runtime_settle_free; [done|done|].
    intros r0 Hr0 _. simpl in Hr0. rewrite lookup_insert_eq in Hr0.
    by inversion Hr0; subst.
  - by apply Registry_settle_free.
Qed.

End AllElement.

(** ** One job of the microtask queue *)

Lemma Inv_tick E st : Inv E st -> Inv E (tick E st).
Proof.
  intros [HR HI]. unfold tick. destruct (queue st) as [|[f o] rest] eqn:Hq; [done|].
  fold (popped rest st).
  destruct f as [name asset s|name asset s|name p|name q|name q|q|a i]; simpl.
  - destruct o as [|e].
    + destruct (downloaded (asset_of (popped rest st) asset)) eqn:Hd.
      * split.
        -- by eapply Runtime_download.
        -- by eapply Registry_download.
      * split.
        -- by eapply Runtime_finish.
        -- apply (Registry_finish E st _ Fulfilled _ rest s HR HI Hq eq_refl); done.
    + split.
      * by eapply Runtime_finish.
      * apply (Registry_finish E st _ (Rejected e) _ rest s HR HI Hq eq_refl); done.
  - split.
    + by eapply Runtime_finish.
    + apply (Registry_finish E st _ o o rest s HR HI Hq eq_refl); [done|].
      intros nm [a [?|[= <- <-]]] ->; [done|].
      eapply native_done; eauto. rewrite Hq. apply elem_of_cons. by left.
  - split.
    + by eapply Runtime_single.
    + by eapply Registry_single.
  - split.
    + by eapply Runtime_finish.
    + apply (Registry_finish E st _ o o rest q HR HI Hq eq_refl); [done|].
      by intros nm [a [?|?]].
  - split.
    + by eapply Runtime_finish.
    + apply (Registry_finish E st _ o o rest q HR HI Hq eq_refl); [done|].
      by intros nm [a [?|?]].
  - split.
    + by eapply Runtime_finish.
    + apply (Registry_finish E st _ o o rest q HR HI Hq eq_refl); [done|].
      by intros nm [a [?|?]].
  - destruct o as [|e].
    + by eapply Inv_all_element.
    + by eapply Inv_all_reject.
Qed.

Lemma Inv_settle_ext E st d o :
  Inv E st -> Inv E (if is_external st d then settle d o st else st).
Proof.
  intros [HR HI]. unfold is_external. case_bool_decide as Hd; [|done].
  split.
  - apply Runtime_settle_free; [done| |].
    + intros g Hg. by apply (ext_not_target st).
    + intros r Hr. by rewrite ext_not_all in Hr.
  - apply Registry_settle_free; [done|done|].
    intros g Hg. by apply (ext_not_target st).
Qed.

(** ** Calls of [loadAsync] *)

Lemma grows_refl st : grows st st.
Proof. split; auto. Qed.

Lemma grows_trans st1 st2 st3 : grows st1 st2 -> grows st2 st3 -> grows st1 st3.
Proof.
  intros [L1 P1 O1 A1 W1 Q1] [L2 P2 O2 A2 W2 Q2]. split.
  - lia.
  - intros y Hy. rewrite P2 by lia. by apply P1.
  - intros t Ht. destruct (O2 t Ht) as [H|H]; [by apply O1|right; lia].
  - intros a Ha. rewrite A2 by lia. by apply A1.
  - auto.
  - auto.
Qed.

Lemma grows_new_promise st : grows st (new_promise st).1.
Proof.
  split; simpl; auto.
  - rewrite length_app. lia.
  - intros y Hy. by apply lookup_app_l.
Qed.

Lemma queue_settle_keep x o st f o' :
  (f, o') ∈ queue st -> (f, o') ∈ queue (settle x o st).
Proof.
  intros H. destruct (decide (promises st !! x = Some Pending)) as [Hp|Hp].
  - apply (settle_queue x o st Hp). by left.
  - by rewrite settle_idle.
Qed.

Lemma grows_settle b st x o :
  Runtime b -> grows b st -> length (promises b) <= x -> grows b (settle x o st).
Proof.
  intros HR [L P O A W Q] Hx.
  destruct (settle_fields x o st) as (_ & _ & Ha & _ & _ & _ & Hlen).
  split.
  - lia.
  - intros y Hy. rewrite promises_settle_other by lia. by apply P.
  - intros t. rewrite owners_settle. auto.
  - intros a. rewrite Ha. auto.
  - intros w f Hw. apply waiting_settle_keep; [by apply W|].
    apply (wait_pending _ HR), lookup_lt_Some in Hw. lia.
  - intros f o' Hq. by apply queue_settle_keep, Q.
Qed.

Lemma grows_subscribe b st w f :
  grows b st ->
  (forall t, target f = Some t -> length (promises b) <= t) ->
  grows b (subscribe w f st).
Proof.
  intros [L P O A W Q] Ht.
  destruct (subscribe_fields w f st) as (_ & _ & Hp & Ha & _ & _ & _).
  split; rewrite ?Hp, ?Ha; auto.
  - intros t. rewrite owners_subscribe. intros [Hin|Hin]%elem_of_app; [|by auto].
    destruct (target f) as [t'|]; simpl in Hin; [|by apply not_elem_of_nil in Hin].
    apply list_elem_of_singleton in Hin. subst. right. by apply Ht.
  - intros w' f' Hw. apply subscribe_waiting. left. by apply W.
  - intros f' o Hq. apply subscribe_queue. left. by apply Q.
Qed.

Lemma grows_add_call b st c :
  grows b st -> length (promises b) <= ext_pid c ->
  grows b (set_calls (fun l => l ++ [c]) st).
Proof.
  intros [L P O A W Q] Hc. split; simpl; auto.
  intros t. unfold owners. simpl. rewrite fmap_app, app_assoc.
  intros [Hin|Hin]%elem_of_app; [by apply O|].
  apply list_elem_of_singleton in Hin. subst. by right.
Qed.

Lemma grows_step b st : grows b st -> grows b (new_promise st).1.
Proof. intros H. eapply grows_trans; [done|apply grows_new_promise]. Qed.

Lemma grows_fields b st st' :
  promises st' = promises st -> waiting st' = waiting st ->
  queue st' = queue st -> calls st' = calls st -> alls st' = alls st ->
  grows b st -> grows b st'.
Proof.
  intros Hp Hw Hq Hc Ha [L P O A W Q].
  split; rewrite ?Hp, ?Ha, ?Hw, ?Hq, ?(owners_eq _ _ Hw Hq Hc); auto.
Qed.

Lemma grows_all_known st st' a :
  Runtime st' -> grows st st' -> is_Some (alls st' !! a) ->
  is_Some (alls st !! a) \/ length (promises st) <= a.
Proof.
  intros HR G Ha. destruct (decide (a < length (promises st))) as [Hlt|Hge].
  - left. by rewrite <- (grows_alls _ _ G a Hlt).
  - right. lia.
Qed.

(** Settling a promise the call has just created. *)
Lemma Inv_settle_fresh E st x o :
  Inv E st -> x ∉ owners st -> alls st !! x = None ->
  Inv E (settle x o st).
Proof.
  intros [HR HI] Hfree Hna.
  assert (forall g, g ∈ frames st -> target g <> Some x) as Hfr.
  { intros g Hg Ht. apply Hfree. by eapply target_owner. }
  split.
  - apply Runtime_settle_free; [done|done|]. intros r Hr. by rewrite Hna in Hr.
  - by apply Registry_settle_free.
Qed.

Lemma Inv_new_promise E st : Inv E st -> Inv E (new_promise st).1.
Proof.
  intros [HR HI]. split; [by apply Runtime_new_promise|by apply Registry_new_promise].
Qed.

Lemma new_owners st : owners (new_promise st).1 = owners st.
Proof. done. Qed.

Lemma Inv_return_fresh E st o :
  Inv E st -> Inv E (settle (length (promises st)) o (new_promise st).1).
Proof.
  intros HI. apply Inv_settle_fresh.
  - by apply Inv_new_promise.
  - rewrite new_owners. apply fresh_free, HI.
  - simpl. apply fresh_not_all, HI.
Qed.

(** A call that only adds pending promises, waiting frames that target
    some of them, and collaborator calls that return others. *)
Section Extend.

Variables (st : state) (k : nat) (nw : list (pid * frame)) (nc : list ext_call)
          (ld : gmap string bool) (lp : gmap string pid).

Hypothesis HR : Runtime st.

Let len := length (promises st).

Let ps' := promises st ++ replicate k Pending.

Let st' := mkState ld lp ps' (waiting st ++ nw) (queue st) (alls st)
                   (assets st) (calls st ++ nc) (console st).

Hypothesis Hwait : forall w f, (w, f) ∈ nw -> ps' !! w = Some Pending.

Hypothesis Htarget : forall w f, (w, f) ∈ nw ->
  exists t, target f = Some t /\ len <= t < len + k.

Hypothesis Hcalls : forall c, c ∈ nc -> len <= ext_pid c < len + k.

Hypothesis Hnodup : NoDup (omap target nw.*2 ++ map ext_pid nc).

Lemma extend_fresh_pending t : len <= t < len + k -> ps' !! t = Some Pending.
Proof using Type.
  intros Ht. unfold ps'. rewrite lookup_app_r by (fold len; lia).
  apply lookup_replicate_2. fold len. lia.
Qed.

Lemma extend_old_lookup y : y < len -> ps' !! y = promises st !! y.
Proof using Type. intros Hy. unfold ps'. by rewrite lookup_app_l. Qed.

Lemma extend_frames :
  frames st' ≡ₚ frames st ++ nw.*2.
Proof using Type.
  unfold frames, st'. simpl. rewrite fmap_app, <- !app_assoc.
  apply Permutation_app_head, Permutation_app_comm.
Qed.

Lemma extend_owners :
  owners st' ≡ₚ owners st ++ (omap target nw.*2 ++ map ext_pid nc).
Proof using Type.
  unfold owners. rewrite extend_frames. unfold st'. simpl.
  rewrite omap_app, fmap_app, <- !app_assoc. apply Permutation_app_head.
  rewrite !app_assoc. apply Permutation_app_tail, Permutation_app_comm.
Qed.

Lemma extend_new_owner t :
  t ∈ omap target nw.*2 ++ map ext_pid nc -> len <= t < len + k.
Proof using Htarget Hcalls.
  rewrite elem_of_app, list_elem_of_omap. intros [(f & Hf & Ht)|Hc].
  - apply list_elem_of_fmap in Hf as [[w g] [-> Hin]].
    destruct (Htarget _ _ Hin) as (t' & Ht' & Hb). simpl in Ht. congruence.
  - apply list_elem_of_fmap in Hc as [c [-> Hc]]. by apply Hcalls.
Qed.

Lemma Runtime_extend : Runtime st'.
Proof using All.
  split.
  - intros w f Hw. simpl in Hw. apply elem_of_app in Hw as [Hw|Hw].
    + simpl. apply lookup_app_l_Some. by eapply wait_pending.
    + by eapply Hwait.
  - intros f t Hf Ht. rewrite extend_frames in Hf. apply elem_of_app in Hf as [Hf|Hf].
    + simpl. apply lookup_app_l_Some. by eapply target_pending.
    + apply extend_fresh_pending, extend_new_owner, elem_of_app. left.
      apply list_elem_of_omap. eauto.
  - intros d Hd. unfold st', ps' in *. simpl in *. rewrite length_app, length_replicate.
    rewrite fmap_app in Hd. apply elem_of_app in Hd as [Hd|Hd].
    + apply (ext_bound _ HR) in Hd. lia.
    + assert (len <= d < len + k) as Hb; [|unfold len in Hb; lia].
      apply extend_new_owner, elem_of_app. by right.
  - intros a Ha. unfold st', ps' in *. simpl in *. rewrite length_app.
    apply (all_bound _ HR) in Ha. lia.
  - rewrite extend_owners. apply NoDup_app. split; [apply HR|]. split; [|done].
    intros x Hx Hnew. apply extend_new_owner in Hnew.
    apply (owners_bound _ _ HR) in Hx. unfold len in Hnew. lia.
  - intros a Ha. rewrite extend_owners. simpl in Ha. intros [Hx|Hx]%elem_of_app.
    + by apply (all_disjoint _ HR a).
    + apply extend_new_owner in Hx. apply (all_bound _ HR) in Ha.
      unfold len in Hx. lia.
  - intros a i Hf. simpl. rewrite extend_frames in Hf.
    apply elem_of_app in Hf as [Hf|Hf]; [by eapply all_known|].
    apply list_elem_of_fmap in Hf as [[w g] [Heq Hin]]. simpl in Heq. subst g.
    by destruct (Htarget _ _ Hin) as (t' & Ht' & _).
  - intros a r Hr. unfold st', ps' in *. simpl in *.
    destruct (all_count _ HR a r Hr) as [H1 H2].
    split; [done|]. intros Hf. apply H2. rewrite lookup_app_l in Hf; [done|].
    apply (all_bound _ HR). by rewrite Hr.
Qed.

Lemma grows_extend : grows st st'.
Proof using Htarget Hcalls.
  split; unfold st', ps'; simpl.
  - rewrite length_app. lia.
  - intros y Hy. by apply lookup_app_l.
  - intros t. fold ps'. fold st'. rewrite extend_owners. intros [H|H]%elem_of_app; [by left|].
    right. apply extend_new_owner in H. unfold len in H. lia.
  - auto.
  - intros w f Hw. apply elem_of_app. by left.
  - auto.
Qed.

End Extend.

Lemma frames_waiting_add st w f g :
  g ∈ frames (set_waiting (fun l => l ++ [(w, f)]) st) <-> g ∈ frames st \/ g = f.
Proof.
  unfold frames. simpl. rewrite fmap_app, !elem_of_app. simpl.
  rewrite list_elem_of_singleton. tauto.
Qed.

Lemma Registry_subscribe_shared E st w f name q :
  Registry E st -> is_shared f name q ->
  AwaitSingle name w ∈ frames st -> pstate_of st w = Pending ->
  Registry E (subscribe w f st).
Proof.
  intros HI Hs Hop Hw. rewrite subscribe_pending by done.
  assert (Hr : forall nm, registered E st nm ->
                          registered E (set_waiting (fun l => l ++ [(w, f)]) st) nm).
  { intros nm. by apply registered_eq. }
  assert (Hnot : forall nm p, f <> AwaitSingle nm p) by (by destruct Hs as [->| ->]).
  split; simpl.
  - intros nm p Hlk. apply frames_waiting_add. left. by apply HI.
  - intros nm p [H|H]%frames_waiting_add; [by apply HI|]. by destruct (Hnot nm p).
  - apply HI.
  - apply HI.
  - intros g nm s [Hg| ->]%frames_waiting_add Hsg.
    + destruct (single_chain _ _ HI _ _ _ Hg Hsg) as [p Hp]. exists p.
      apply elem_of_app. by left.
    + destruct Hs as [->| ->]; by destruct Hsg as [a [?|?]].
  - intros s nm p [H|H]%elem_of_app.
    + destruct (single_owner _ _ HI _ _ _ H) as (g & Hg & Hsg). exists g.
      split; [|done]. apply frames_waiting_add. by left.
    + apply list_elem_of_singleton in H. inversion H; subst. by destruct (Hnot nm p).
  - intros w' g nm q' [H|H]%elem_of_app Hsg; apply frames_waiting_add; left.
    + by eapply shared_wait.
    + apply list_elem_of_singleton in H. inversion H; subst.
      destruct Hs as [->| ->]; destruct Hsg as [[= <- <-]|[= <- <-]]; done.
  - intros g nm q' Hg Hsg. by eapply shared_done.
  - intros n nm a s [H|H]%elem_of_app; [by eapply native_wait|].
    apply list_elem_of_singleton in H. inversion H; subst. by destruct Hs.
  - intros nm a s Hg. apply Hr. by eapply native_done.
  - intros nm p Hg. apply Hr. by eapply single_done.
  - intros nm Hlk. apply Hr. by apply HI.
Qed.

(** The load of a name starts (lines 113-122, up to the first [await]). *)
Section Start.

Variables (E : Env) (st0 : state) (name : string) (asset : nat) (p s d : pid).

Hypothesis HI : Registry E st0.

Hypothesis Hd : pstate_of st0 d = Pending.

Hypothesis Hs : pstate_of st0 s = Pending.

Hypothesis Hnew : loadPromises st0 !! name = None.

Hypothesis Hnl : loaded st0 !! name = None.

Hypothesis Hown : inherited name = false.

Let st' :=
  set_loadPromises (fun m => <[name := p]> m)
    (subscribe s (AwaitSingle name p)
       (subscribe d (AwaitDownload name asset s) st0)).

Lemma start_core_state :
  st' = mkState (loaded st0) (<[name := p]> (loadPromises st0)) (promises st0)
                (waiting st0 ++ [(d, AwaitDownload name asset s);
                                 (s, AwaitSingle name p)])
                (queue st0) (alls st0) (assets st0) (calls st0) (console st0).
Proof using Hd Hs.
  unfold st'. rewrite (subscribe_pending d) by done.
  rewrite (subscribe_pending s) by done.
  unfold set_loadPromises, set_waiting. simpl. by rewrite <- app_assoc.
Qed.

Let frame_in g :
  g ∈ frames st' <->
  g ∈ frames st0 \/ g = AwaitDownload name asset s \/ g = AwaitSingle name p.
Proof.
  rewrite start_core_state. unfold frames. simpl.
  rewrite fmap_app, !elem_of_app. simpl.
  rewrite !elem_of_cons, elem_of_nil. tauto.
Qed.

Let wait_in w g :
  (w, g) ∈ waiting st' <->
  (w, g) ∈ waiting st0 \/ (w, g) = (d, AwaitDownload name asset s)
  \/ (w, g) = (s, AwaitSingle name p).
Proof.
  rewrite start_core_state. simpl.
  rewrite elem_of_app, !elem_of_cons, elem_of_nil. tauto.
Qed.

Let reg_keep nm : registered E st0 nm -> registered E st' nm.
Proof. rewrite start_core_state. by apply registered_eq. Qed.

Lemma Registry_start_core : Registry E st'.
Proof using All.
  split.
  - intros nm p' Hlk. rewrite start_core_state in Hlk. simpl in Hlk.
    apply frame_in. apply lookup_insert_Some in Hlk as [[<- <-]|[Hne Hlk]]; [auto|].
    left. by apply HI.
  - intros nm p' [H|[H|[= -> ->]]]%frame_in; [|done|].
    + rewrite start_core_state. simpl. rewrite lookup_insert_ne.
      * by apply HI.
      * intros <-. apply (frame_entry _ _ HI) in H. congruence.
    + rewrite start_core_state. simpl. by rewrite lookup_insert_eq.
  - intros nm p' Hlk. rewrite start_core_state in Hlk |- *. simpl in Hlk |- *.
    apply lookup_insert_Some in Hlk as [[<- <-]|[Hne Hlk]]; [done|].
    by eapply entry_fresh.
  - rewrite start_core_state. simpl. apply HI.
  - intros g nm s' [Hg|[->| ->]]%frame_in Hsg.
    + destruct (single_chain _ _ HI _ _ _ Hg Hsg) as [p' Hp]. exists p'.
      apply wait_in. by left.
    + destruct Hsg as [a [[= <- <- <-]|?]]; [|done]. exists p. apply wait_in. auto.
    + by destruct Hsg as [a [?|?]].
  - intros s' nm p' [H|[H|[= -> -> ->]]]%wait_in; [|done|].
    + destruct (single_owner _ _ HI _ _ _ H) as (g & Hg & Hsg). exists g.
      split; [|done]. apply frame_in. by left.
    + exists (AwaitDownload name asset s). split; [apply frame_in; auto|].
      exists asset. by left.
  - intros w g nm q [H|[[= -> ->]|[= -> ->]]]%wait_in Hsg;
      [|by destruct Hsg|by destruct Hsg].
    apply frame_in. left. by eapply shared_wait.
  - intros g nm q Hg Hsg. rewrite start_core_state in Hg |- *. simpl in Hg |- *.
    by eapply shared_done.
  - intros n nm a s' [H|[H|H]]%wait_in; [|done|done].
    rewrite start_core_state. simpl. by eapply native_wait.
  - intros nm a s' Hg. apply reg_keep. rewrite start_core_state in Hg. simpl in Hg.
    by eapply native_done.
  - intros nm p' Hg. apply reg_keep. rewrite start_core_state in Hg. simpl in Hg.
    by eapply single_done.
  - intros nm Hlk. apply reg_keep. rewrite start_core_state in Hlk. simpl in Hlk.
    by apply HI.
Qed.

End Start.

Lemma lookup_fresh (ps : list pstate) k i :
  i < k -> (ps ++ replicate k Pending) !! (length ps + i) = Some Pending.
Proof.
  intros Hi. rewrite lookup_app_r by lia. apply lookup_replicate_2. lia.
Qed.

Lemma pstate_of_app st ps i :
  promises st = ps -> ps !! i = Some Pending -> pstate_of st i = Pending.
Proof. intros <- H. unfold pstate_of. by rewrite H. Qed.

Lemma state_eq (a b : state) :
  loaded a = loaded b -> loadPromises a = loadPromises b ->
  promises a = promises b -> waiting a = waiting b -> queue a = queue b ->
  alls a = alls b -> assets a = assets b -> calls a = calls b ->
  console a = console b -> a = b.
Proof. destruct a, b. simpl. by intros -> -> -> -> -> -> -> -> ->. Qed.

Lemma start_state st name asset :
  (let '(st1, p) := new_promise (new_promise st).1 in
   let '(st2, s) := _loadSingleFontAsync name asset st1 in
   let st3 := subscribe s (AwaitSingle name p) st2 in
   let st4 := set_loadPromises (fun m => <[name := p]> m) st3 in
   (subscribe p (AwaitShared name (length (promises st))) st4,
    length (promises st)))
  = (started st name asset, length (promises st)).
Proof.
  set (q := length (promises st)).
  assert (forall i, i < 4 ->
            (promises st ++ [Pending] ++ [Pending] ++ [Pending] ++ [Pending])
              !! (q + i) = Some Pending) as Hlk.
  { intros i Hi. by apply (lookup_fresh (promises st) 4). }
  unfold _loadSingleFontAsync, downloadAsync.
  st_simpl. rewrite !length_app. cbn [length]. fold q.
  replace (q + 1 + 1 + 1) with (S (S (S q))) by lia.
  replace (q + 1 + 1) with (S (S q)) by lia.
  replace (q + 1) with (S q) by lia.
  f_equal.
  rewrite (subscribe_pending (S (S (S q)))); cycle 1.
  { unfold pstate_of. st_simpl. rewrite <- !app_assoc.
    replace (S (S (S q))) with (q + 3) by lia. by rewrite Hlk by lia. }
  rewrite (subscribe_pending (S (S q))); cycle 1.
  { unfold pstate_of. st_simpl. rewrite <- !app_assoc.
    replace (S (S q)) with (q + 2) by lia. by rewrite Hlk by lia. }
  rewrite (subscribe_pending (S q)); cycle 1.
  { unfold pstate_of. st_simpl. rewrite <- !app_assoc.
    replace (S q) with (q + 1) by lia. by rewrite Hlk by lia. }
  apply state_eq; unfold started; st_simpl; fold q; rewrite <- ?app_assoc; reflexivity.
Qed.

Lemma get_property_own {A} (m : gmap string A) key a :
  get_property m key = Own a <-> m !! key = Some a.
Proof.
  unfold get_property. destruct (m !! key); [|destruct (inherited key)];
    naive_solver.
Qed.

Lemma get_property_missing {A} (m : gmap string A) key :
  get_property m key = Missing <-> m !! key = None /\ inherited key = false.
Proof.
  unfold get_property. destruct (m !! key); [|destruct (inherited key)];
    (split; [intros [=]|intros [[=] [=]]]); done.
Qed.

Lemma get_property_inherited {A} (m : gmap string A) key :
  get_property m key = Inherited <-> m !! key = None /\ inherited key = true.
Proof.
  unfold get_property. destruct (m !! key); [|destruct (inherited key)];
    (split; [intros [=]|intros [[=] [=]]]); done.
Qed.

Lemma loadAsync_name_eq E name src st :
  loadAsync_name E name src st
  = (loadAsync_name_result E name src st, length (promises st)).
Proof.
  unfold loadAsync_name, loadAsync_name_result.
  change (new_promise st) with ((new_promise st).1, length (promises st)).
  cbn iota.
  change (loaded (new_promise st).1) with (loaded st).
  change (loadPromises (new_promise st).1) with (loadPromises st).
  destruct (truthy_flag _); [done|].
  destruct (get_property (loadPromises st) name); try done.
  destruct (invariant _ _); [|done].
  destruct (_getAssetForSource E src) as [asset|e]; [|done].
  apply start_state.
Qed.

Lemma falsy_loaded E st name :
  Registry E st -> truthy_flag (get_property (loaded st) name) = false ->
  loaded st !! name = None /\ inherited name = false.
Proof.
  intros HI. unfold get_property.
  destruct (loaded st !! name) as [b|] eqn:Hl.
  - destruct (loaded_own _ _ HI _ _ Hl) as [-> _]. simpl. intros [=].
  - destruct (inherited name); simpl; [intros [=]|done].
Qed.

Lemma entry_pending E st name p :
  Inv E st -> loadPromises st !! name = Some p -> promises st !! p = Some Pending.
Proof.
  intros [HR HI] Hlk. apply (target_pending _ HR (AwaitSingle name p)); [|done].
  by eapply entry_frame.
Qed.

Lemma Inv_started E st name asset :
  Inv E st -> loadPromises st !! name = None -> loaded st !! name = None ->
  inherited name = false ->
  Inv E (started st name asset) /\ grows st (started st name asset).
Proof.
  intros [HR HI] Hnew Hnl Hown.
  set (q := length (promises st)).
  set (nw := [(S (S (S q)), AwaitDownload name asset (S (S q)));
              (S (S q), AwaitSingle name (S q)); (S q, AwaitShared name q)]).
  set (nc := [CallDownload name asset (S (S (S q)))]).
  assert (forall w f, (w, f) ∈ nw -> q < w < q + 4) as Hw.
  { intros w f. unfold nw. rewrite !elem_of_cons, elem_of_nil.
    intros [[= -> ->]|[[= -> ->]|[[= -> ->]|[]]]]; lia. }
  assert (forall w f, (w, f) ∈ nw ->
            exists t, target f = Some t /\ q <= t < q + 4) as Ht.
  { intros w f. unfold nw. rewrite !elem_of_cons, elem_of_nil.
    intros [[= -> ->]|[[= -> ->]|[[= -> ->]|[]]]]; eexists; (split; [done|lia]). }
  assert (forall c, c ∈ nc -> q <= ext_pid c < q + 4) as Hc.
  { intros c. unfold nc. rewrite list_elem_of_singleton. intros ->. simpl. lia. }
  assert (NoDup (omap target nw.*2 ++ map ext_pid nc)) as Hnd.
  { unfold nw, nc. simpl. repeat (apply NoDup_cons; split);
      rewrite ?elem_of_cons, ?elem_of_nil; try lia. constructor. }
  split.
  - split.
    + apply (Runtime_extend st 4 nw nc); try done.
      intros w f Hin. replace w with (q + (w - q)) by (specialize (Hw _ _ Hin); lia).
      apply lookup_fresh. specialize (Hw _ _ Hin). lia.
    + pose proof (start_state st name asset) as Heq.
      unfold _loadSingleFontAsync, downloadAsync in Heq. st_simpl in Heq.
      rewrite !length_app in Heq. cbn [length] in Heq. fold q in Heq.
      replace (q + 1 + 1 + 1) with (S (S (S q))) in Heq by lia.
      replace (q + 1 + 1) with (S (S q)) in Heq by lia.
      replace (q + 1) with (S q) in Heq by lia.
      apply (f_equal fst) in Heq. cbn [fst] in Heq. rewrite <- Heq. clear Heq.
      set (b := set_calls _ _).
      assert (Registry E b) as Hb.
      { unfold b. apply Registry_add_call.
        do 4 apply (Registry_new_promise E). done. }
      assert (promises b = promises st ++ [Pending] ++ [Pending] ++ [Pending] ++ [Pending])
        as Hpb by (unfold b; st_simpl; by rewrite <- !app_assoc).
      assert (forall i, i < 4 -> pstate_of b (q + i) = Pending) as Hpend.
      { intros i Hi. eapply pstate_of_app; [done|].
        by apply (lookup_fresh (promises st) 4). }
      eapply Registry_subscribe_shared.
      * apply Registry_start_core; try done.
        -- replace (S (S (S q))) with (q + 3) by lia. apply Hpend. lia.
        -- replace (S (S q)) with (q + 2) by lia. apply Hpend. lia.
      * by left.
      * rewrite start_core_state.
        -- unfold frames. st_simpl. rewrite fmap_app. apply elem_of_app. left.
           apply elem_of_app. right. simpl. apply elem_of_cons. right.
           apply elem_of_cons. by left.
        -- replace (S (S (S q))) with (q + 3) by lia. apply Hpend. lia.
        -- replace (S (S q)) with (q + 2) by lia. apply Hpend. lia.
      * unfold pstate_of. cbn [set_loadPromises promises].
        destruct (subscribe_fields (S (S q)) (AwaitSingle name (S q))
                    (subscribe (S (S (S q))) (AwaitDownload name asset (S (S q))) b))
          as (_ & _ & -> & _).
        destruct (subscribe_fields (S (S (S q))) (AwaitDownload name asset (S (S q))) b)
          as (_ & _ & -> & _).
        replace (S q) with (q + 1) by lia. apply Hpend. lia.
  - apply (grows_extend st 4 nw nc); done.
Qed.

Lemma grows_return_fresh st o :
  Runtime st -> grows st (settle (length (promises st)) o (new_promise st).1).
Proof. intros HR. apply grows_settle; [done|apply grows_new_promise|done]. Qed.

Lemma length_settle x o st :
  length (promises (settle x o st)) = length (promises st).
Proof. apply settle_fields. Qed.

Lemma length_subscribe w f st :
  length (promises (subscribe w f st)) = length (promises st).
Proof. by destruct (subscribe_fields w f st) as (_ & _ & -> & _). Qed.

Lemma Inv_join E st name p :
  Inv E st -> loadPromises st !! name = Some p ->
  Inv E (subscribe p (ReturnShared name (length (promises st))) (new_promise st).1).
Proof.
  intros HI Hlk. pose proof (entry_pending _ _ _ _ HI Hlk) as Hp.
  destruct HI as [HR HI]. split.
  - apply Runtime_subscribe.
    + by apply Runtime_new_promise.
    + st_simpl. exists Pending. by apply lookup_app_l_Some.
    + intros t [= <-]. repeat split.
      * st_simpl. rewrite lookup_app_r, Nat.sub_diag; done.
      * exact (fresh_free st HR).
      * exact (fresh_not_all st HR).
    + done.
  - eapply Registry_subscribe_shared.
    + by apply Registry_new_promise.
    + by right.
    + exact (entry_frame _ _ HI _ _ Hlk).
    + apply pstate_of_pending. st_simpl. by apply lookup_app_l_Some.
Qed.

Lemma loadAsync_name_ok E name src : call_ok E (loadAsync_name E name src).
Proof.
  intros st HI. rewrite loadAsync_name_eq. cbn [fst snd].
  unfold loadAsync_name_result.
  assert (forall o, let st' := settle (length (promises st)) o (new_promise st).1 in
            Inv E st' /\ grows st st' /\ length (promises st) < length (promises st'))
    as Hfresh.
  { intros o. cbn zeta. split; [by apply Inv_return_fresh|].
    split; [apply grows_return_fresh, HI|].
    rewrite length_settle. st_simpl. rewrite length_app. simpl. lia. }
  destruct (truthy_flag _) eqn:Hl; [apply Hfresh|].
  destruct (falsy_loaded E st name (proj2 HI) Hl) as [Hnl Hown].
  destruct (get_property (loadPromises st) name) as [p| |] eqn:Hlp.
  - apply get_property_own in Hlp. split; [by apply Inv_join|]. split.
    + apply grows_subscribe; [apply grows_new_promise|]. by intros t [= <-].
    + rewrite length_subscribe. st_simpl. rewrite length_app. simpl. lia.
  - apply Hfresh.
  - apply get_property_missing in Hlp as [Hnew _].
    destruct (invariant _ _); [|apply Hfresh].
    destruct (_getAssetForSource E src) as [asset|e]; [|apply Hfresh].
    destruct (Inv_started E st name asset HI Hnew Hnl Hown) as [H1 H2].
    split; [done|]. split; [done|].
    unfold started. st_simpl. rewrite length_app, length_replicate. lia.
Qed.

(** ** Fan-out: [Promise.all(list.map(load))] *)

Lemma call_each_ok E {A} (f : A -> state -> state * pid) (l : list A) st :
  (forall x, call_ok E (f x)) -> Inv E st ->
  Inv E (call_each f l st).1 /\ grows st (call_each f l st).1
  /\ forall e, e ∈ (call_each f l st).2 ->
               e < length (promises (call_each f l st).1).
Proof.
  intros Hf. revert st. induction l as [|x l IH]; intros st HI.
  - simpl. split; [done|]. split; [apply grows_refl|]. intros e He.
    by apply not_elem_of_nil in He.
  - cbn [call_each]. destruct (Hf x st HI) as (H1 & H2 & H3).
    destruct (f x st) as [st1 q]. cbn [fst snd] in *.
    destruct (IH st1 H1) as (H4 & H5 & H6).
    destruct (call_each f l st1) as [st2 qs]. cbn [fst snd] in *.
    split; [done|]. split; [by eapply grows_trans|].
    intros e [->|He]%elem_of_cons; [|by apply H6].
    pose proof (grows_length _ _ H5). lia.
Qed.

Lemma Inv_subscribe_plain E st w f :
  Inv E st -> w < length (promises st) -> target f = None -> plain f ->
  (forall a i, f = AllElem a i -> is_Some (alls st !! a)) ->
  Inv E (subscribe w f st).
Proof.
  intros [HR HI] Hw Ht Hpl Ha. split.
  - apply Runtime_subscribe; [done| | |done].
    + by apply lookup_lt_is_Some.
    + intros t Heq. congruence.
  - by apply Registry_subscribe_plain.
Qed.

Lemma subscribe_all_ok E a elems : forall i st,
  Inv E st -> is_Some (alls st !! a) ->
  (forall e, e ∈ elems -> e < length (promises st)) ->
  Inv E (subscribe_all a i elems st) /\ grows st (subscribe_all a i elems st)
  /\ alls (subscribe_all a i elems st) = alls st
  /\ promises (subscribe_all a i elems st) = promises st.
Proof.
  induction elems as [|e elems IH]; intros i st HI Ha He.
  - simpl. split; [done|]. split; [apply grows_refl|done].
  - cbn [subscribe_all].
    destruct (subscribe_fields e (AllElem a i) st) as (_ & _ & Hp & Hal & _).
    destruct (IH (S i) (subscribe e (AllElem a i) st)) as (H1 & H2 & H3 & H4).
    + apply Inv_subscribe_plain; try done.
      * apply He, elem_of_cons. by left.
      * by intros a' i' [= <- <-].
    + by rewrite Hal.
    + intros e' He'. rewrite Hp. apply He, elem_of_cons. by right.
    + split; [done|]. split; [|by rewrite H3, H4].
      eapply grows_trans; [|done]. apply grows_subscribe; [apply grows_refl|].
      by intros t [=].
Qed.

Lemma Promise_all_ok E elems st :
  Inv E st -> (forall e, e ∈ elems -> e < length (promises st)) ->
  Inv E (Promise_all elems st).1 /\ grows st (Promise_all elems st).1
  /\ (Promise_all elems st).2 = length (promises st)
  /\ length (promises (Promise_all elems st).1) = S (length (promises st)).
Proof.
  intros HI He. unfold Promise_all. cbn [new_promise].
  set (a := length (promises st)).
  set (r := {| remaining := length elems; called := replicate (length elems) false |}).
  set (st1 := set_alls (fun m => <[a := r]> m) (set_promises (fun ps => ps ++ [Pending]) st)).
  assert (Inv E st1) as H1.
  { pose proof (Inv_new_promise E st HI) as [HR0 HI0]. split.
    - apply Runtime_all_insert; [done| | | |].
      + st_simpl. rewrite length_app. simpl. unfold a. lia.
      + apply (fresh_free st), HI.
      + simpl. by rewrite count_false_replicate.
      + st_simpl. unfold a. by rewrite lookup_app_r, Nat.sub_diag.
    - by apply (Registry_fields E (new_promise st).1). }
  assert (grows st st1) as G1.
  { split; unfold st1; st_simpl.
    - rewrite length_app. lia.
    - intros y Hy. by apply lookup_app_l.
    - auto.
    - intros b Hb. apply lookup_insert_ne. unfold a. lia.
    - auto.
    - auto. }
  destruct (subscribe_all_ok E a elems 0 st1 H1) as (H2 & G2 & Ha2 & Hp2).
  { unfold st1. st_simpl. rewrite lookup_insert_eq. by eexists. }
  { intros e Hin. unfold st1. st_simpl. rewrite length_app. specialize (He e Hin). lia. }
  assert (length (promises st1) = S a) as Hlen
    by (unfold st1; st_simpl; rewrite length_app; simpl; unfold a; lia).
  cbn [fst snd]. destruct elems as [|e0 elems'].
  - cbn [subscribe_all] in *. split; [|split; [|split]].
    + destruct H1 as [HR1 HI1]. split.
      * apply Runtime_settle_free; [done| |].
        -- intros g Hg Ht. apply (fresh_free st (proj1 HI)).
           apply (target_owner st1 g a Hg Ht).
        -- intros r0 Hr0 _. unfold st1 in Hr0. st_simpl in Hr0.
           rewrite lookup_insert_eq in Hr0. by inversion Hr0.
      * apply Registry_settle_free; [done|done|].
        intros g Hg Ht. apply (fresh_free st (proj1 HI)).
        apply (target_owner st1 g a Hg Ht).
    + apply grows_settle; [apply HI|done|unfold a; lia].
    + done.
    + by rewrite length_settle.
  - split; [done|]. split; [by eapply grows_trans|]. split; [done|].
    by rewrite Hp2.
Qed.

Lemma fan_out_ok E {A} (f : A -> state -> state * pid) l st0 q b :
  (forall x, call_ok E (f x)) -> Inv E st0 ->
  promises st0 !! q = Some Pending -> q ∉ owners st0 -> alls st0 !! q = None ->
  grows b st0 -> length (promises b) <= q ->
  Inv E (fan_out f l st0 q).1 /\ grows b (fan_out f l st0 q).1
  /\ (fan_out f l st0 q).2 = q
  /\ q < length (promises (fan_out f l st0 q).1).
Proof.
  intros Hf HI Hq Hfree Hna Hb Hbq. unfold fan_out.
  destruct (call_each_ok E f l st0 Hf HI) as (H1 & G1 & A1).
  destruct (call_each f l st0) as [st1 qs]. cbn [fst snd] in *.
  destruct (Promise_all_ok E qs st1 H1 A1) as (H2 & G2 & Ea & L2).
  destruct (Promise_all qs st1) as [st2 a]. cbn [fst snd] in *.
  pose proof (grows_trans _ _ _ G1 G2) as G.
  pose proof (lookup_lt_Some _ _ _ Hq) as Hlt.
  assert (promises st2 !! q = Some Pending) as Hq2.
  { by rewrite (grows_promises _ _ G). }
  assert (q ∉ owners st2) as Hfree2.
  { intros Hin. destruct (grows_owners _ _ G q Hin) as [?|?]; [done|lia]. }
  assert (alls st2 !! q = None) as Hna2.
  { destruct (alls st2 !! q) eqn:Hal; [|done].
    rewrite (grows_alls _ _ G q) in Hal by lia. congruence. }
  destruct H2 as [HR2 HI2]. split; [split|split; [|split]].
  - apply Runtime_subscribe; [done| | |done].
    + apply lookup_lt_is_Some. pose proof (grows_length _ _ G1). lia.
    + by intros t [= <-].
  - by apply Registry_subscribe_plain.
  - apply grows_subscribe; [|by intros t [= <-]].
    eapply grows_trans; [done|]. done.
  - done.
  - rewrite length_subscribe. pose proof (grows_length _ _ G). lia.
Qed.

Lemma loadAsync_map_eq E m st :
  loadAsync_map E m st
  = fan_out (fun name => loadAsync_name E name (object_get m name)) (map fst m)
            (new_promise st).1 (length (promises st)).
Proof. reflexivity. Qed.

Lemma loadAsync_array_eq E ms st :
  loadAsync_array E ms st
  = fan_out (loadAsync_map E) ms (console_warn arrayDeprecatedMessage (new_promise st).1)
            (length (promises st)).
Proof. reflexivity. Qed.

Lemma Inv_console E st f : Inv E st -> Inv E (set_console f st).
Proof.
  intros [HR HI]. split.
  - by apply (Runtime_fields st).
  - by apply (Registry_fields E st).
Qed.

Lemma Inv_assets E st f : Inv E st -> Inv E (set_assets f st).
Proof.
  intros [HR HI]. split.
  - by apply (Runtime_fields st).
  - by apply (Registry_fields E st).
Qed.

Lemma loadAsync_map_ok E m : call_ok E (loadAsync_map E m).
Proof.
  intros st HI. rewrite loadAsync_map_eq.
  destruct (fan_out_ok E (fun name => loadAsync_name E name (object_get m name))
              (map fst m) (new_promise st).1 (length (promises st)) st)
    as (H1 & H2 & H3 & H4).
  - intros name. apply loadAsync_name_ok.
  - by apply Inv_new_promise.
  - st_simpl. by rewrite lookup_app_r, Nat.sub_diag.
  - exact (fresh_free st (proj1 HI)).
  - exact (fresh_not_all st (proj1 HI)).
  - apply grows_new_promise.
  - done.
  - split; [done|]. split; [done|]. by rewrite H3.
Qed.

Lemma loadAsync_array_ok E ms : call_ok E (loadAsync_array E ms).
Proof.
  intros st HI. rewrite loadAsync_array_eq.
  destruct (fan_out_ok E (loadAsync_map E) ms
              (console_warn arrayDeprecatedMessage (new_promise st).1)
              (length (promises st)) st)
    as (H1 & H2 & H3 & H4).
  - apply loadAsync_map_ok.
  - apply Inv_console. by apply Inv_new_promise.
  - st_simpl. by rewrite lookup_app_r, Nat.sub_diag.
  - exact (fresh_free st (proj1 HI)).
  - exact (fresh_not_all st (proj1 HI)).
  - apply (grows_fields st (new_promise st).1); try done. apply grows_new_promise.
  - done.
  - split; [done|]. split; [done|]. by rewrite H3.
Qed.

Lemma loadAsync_ok E arg : call_ok E (loadAsync E arg).
Proof.
  destruct arg; [apply loadAsync_name_ok|apply loadAsync_map_ok|apply loadAsync_array_ok].
Qed.

(** ** Every reachable state satisfies the invariant *)

Lemma processFontFamily_fields E name st :
  let st' := (processFontFamily E name st).1 in
  loaded st' = loaded st /\ loadPromises st' = loadPromises st
  /\ promises st' = promises st /\ waiting st' = waiting st
  /\ queue st' = queue st /\ alls st' = alls st /\ assets st' = assets st
  /\ calls st' = calls st.
Proof.
  unfold processFontFamily. destruct name as [| |s]; try done.
  destruct (_ || _ || _); [done|]. destruct (includes s "FuturaBT"); [done|].
  destruct (includes s (sessionId E)); [done|].
  destruct (isLoaded st s) as [[|]|]; try done.
  unfold diagnose. destruct (dev E); [|done].
  destruct (isLoading st s) as [[|]|]; done.
Qed.

Lemma Inv_apply_event E ev st : Inv E st -> Inv E (apply_event E ev st).
Proof.
  intros HI. destruct ev as [arg|name| |d o|a fields]; cbn [apply_event].
  - by apply loadAsync_ok.
  - destruct (processFontFamily_fields E name st) as (H1 & H2 & H3 & H4 & H5 & H6 & H7 & H8).
    destruct HI as [HR HI]. split.
    + by apply (Runtime_fields st).
    + by apply (Registry_fields E st).
  - by apply Inv_tick.
  - by apply Inv_settle_ext.
  - by apply Inv_assets.
Qed.

Lemma reachable_Inv E st : reachable E st -> Inv E st.
Proof.
  induction 1 as [|st ev _ IH]; [apply Inv_initial|by apply Inv_apply_event].
Qed.

Lemma reachable_run E evs st : reachable E st -> reachable E (run E evs st).
Proof.
  revert st. induction evs as [|ev evs IH]; intros st H; [done|].
  apply IH. by constructor.
Qed.

(** ** Fields a step leaves alone *)

Lemma loaded_settle x o st : loaded (settle x o st) = loaded st.
Proof. apply settle_fields. Qed.

Lemma loadPromises_settle x o st : loadPromises (settle x o st) = loadPromises st.
Proof. apply settle_fields. Qed.

Lemma calls_settle x o st : calls (settle x o st) = calls st.
Proof. apply settle_fields. Qed.

Lemma loaded_subscribe w f st : loaded (subscribe w f st) = loaded st.
Proof. apply subscribe_fields. Qed.

Lemma loadPromises_subscribe w f st :
  loadPromises (subscribe w f st) = loadPromises st.
Proof. apply subscribe_fields. Qed.

Lemma calls_subscribe w f st : calls (subscribe w f st) = calls st.
Proof. apply subscribe_fields. Qed.

Lemma call_maps_refl st : call_maps st st.
Proof. by split. Qed.

Lemma call_maps_trans st1 st2 st3 :
  call_maps st1 st2 -> call_maps st2 st3 -> call_maps st1 st3.
Proof.
  intros [L1 E1 C1] [L2 E2 C2]. split; [congruence|auto|auto].
Qed.

Lemma call_maps_same st st' :
  loaded st' = loaded st -> loadPromises st' = loadPromises st ->
  calls st' = calls st -> call_maps st st'.
Proof. intros H1 H2 H3. split; [done|by rewrite H2|by rewrite H3]. Qed.

Lemma call_maps_settle x o st : call_maps st (settle x o st).
Proof.
  apply call_maps_same;
    [apply loaded_settle|apply loadPromises_settle|apply calls_settle].
Qed.

Lemma call_maps_subscribe w f st : call_maps st (subscribe w f st).
Proof.
  apply call_maps_same;
    [apply loaded_subscribe|apply loadPromises_subscribe|apply calls_subscribe].
Qed.

Lemma call_maps_name E name src st :
  Inv E st -> call_maps st (loadAsync_name_result E name src st).
Proof.
  intros HI. unfold loadAsync_name_result.
  assert (forall o, call_maps st (settle (length (promises st)) o (new_promise st).1))
    as Hfresh.
  { intros o. eapply call_maps_trans; [|apply call_maps_settle]. by apply call_maps_same. }
  destruct (truthy_flag _) eqn:Hl; [apply Hfresh|].
  destruct (get_property (loadPromises st) name) as [p| |] eqn:Hlp; [|apply Hfresh|].
  - eapply call_maps_trans; [|apply call_maps_subscribe]. by apply call_maps_same.
  - apply get_property_missing in Hlp as [Hnew _].
    destruct (invariant _ _); [|apply Hfresh].
    destruct (_getAssetForSource E src) as [asset|e]; [|apply Hfresh].
    split; unfold started; st_simpl.
    + done.
    + intros nm p Hlk. rewrite lookup_insert_ne; [done|]. intros <-. congruence.
    + intros c Hc. apply elem_of_app. by left.
Qed.

Lemma call_maps_each E {A} (f : A -> state -> state * pid) l st :
  (forall x, call_ok E (f x)) ->
  (forall x st, Inv E st -> call_maps st (f x st).1) ->
  Inv E st -> call_maps st (call_each f l st).1.
Proof.
  intros Hok Hf. revert st. induction l as [|x l IH]; intros st HI.
  - apply call_maps_refl.
  - cbn [call_each]. pose proof (Hf x st HI) as H1.
    destruct (Hok x st HI) as (HI1 & _).
    destruct (f x st) as [st1 q]. cbn [fst snd] in *.
    pose proof (IH st1 HI1) as H2.
    destruct (call_each f l st1) as [st2 qs]. cbn [fst snd] in *.
    by eapply call_maps_trans.
Qed.

Lemma call_maps_subscribe_all a elems : forall i st,
  call_maps st (subscribe_all a i elems st).
Proof.
  induction elems as [|e elems IH]; intros i st; [apply call_maps_refl|].
  cbn [subscribe_all]. eapply call_maps_trans; [apply call_maps_subscribe|apply IH].
Qed.

Lemma call_maps_Promise_all elems st : call_maps st (Promise_all elems st).1.
Proof.
  unfold Promise_all. cbn [new_promise fst snd].
  eapply call_maps_trans; [|destruct elems; [apply call_maps_settle|apply call_maps_refl]].
  eapply call_maps_trans; [|apply call_maps_subscribe_all].
  by apply call_maps_same.
Qed.

Lemma call_maps_fan_out E {A} (f : A -> state -> state * pid) l st0 q :
  (forall x, call_ok E (f x)) ->
  (forall x st, Inv E st -> call_maps st (f x st).1) ->
  Inv E st0 -> call_maps st0 (fan_out f l st0 q).1.
Proof.
  intros Hok Hf HI. unfold fan_out.
  pose proof (call_maps_each E f l st0 Hok Hf HI) as H1.
  destruct (call_each f l st0) as [st1 qs]. cbn [fst snd] in *.
  pose proof (call_maps_Promise_all qs st1) as H2.
  destruct (Promise_all qs st1) as [st2 a]. cbn [fst snd] in *.
  eapply call_maps_trans; [done|]. eapply call_maps_trans; [done|].
  apply call_maps_subscribe.
Qed.

Lemma call_maps_map E m st : Inv E st -> call_maps st (loadAsync_map E m st).1.
Proof.
  intros HI. rewrite loadAsync_map_eq.
  eapply call_maps_trans; [|apply (call_maps_fan_out E)].
  - by apply call_maps_same.
  - intros name. apply loadAsync_name_ok.
  - intros name st' HI'. rewrite loadAsync_name_eq. by apply call_maps_name.
  - by apply Inv_new_promise.
Qed.

Lemma call_maps_array E ms st : Inv E st -> call_maps st (loadAsync_array E ms st).1.
Proof.
  intros HI. rewrite loadAsync_array_eq.
  eapply call_maps_trans; [|apply (call_maps_fan_out E)].
  - by apply call_maps_same.
  - apply loadAsync_map_ok.
  - intros m st' HI'. by apply call_maps_map.
  - apply Inv_console. by apply Inv_new_promise.
Qed.

Lemma call_maps_loadAsync E arg st : Inv E st -> call_maps st (loadAsync E arg st).1.
Proof.
  intros HI. destruct arg as [name src|m|ms]; cbn [loadAsync].
  - rewrite loadAsync_name_eq. by apply call_maps_name.
  - by apply call_maps_map.
  - by apply call_maps_array.
Qed.

Lemma all_element_fields a i st :
  loaded (all_element a i st) = loaded st
  /\ loadPromises (all_element a i st) = loadPromises st
  /\ calls (all_element a i st) = calls st.
Proof.
  unfold all_element. destruct (alls st !! a) as [r|]; [|done].
  destruct (called r !! i) as [[|]|]; try done.
  destruct (decide _); [|done].
  by rewrite loaded_settle, loadPromises_settle, calls_settle.
Qed.

(** What resuming a frame does to the two maps and to the call log. *)
Lemma resume_loaded E f o st :
  loaded (resume E f o st)
  = match f, o with
    | AwaitSingle name _, Fulfilled => <[name := true]> (loaded st)
    | _, _ => loaded st
    end.
Proof.
  destruct f; cbn [resume]; rewrite ?loaded_settle; try done.
  - destruct o; rewrite ?loaded_settle; [|done].
    destruct (downloaded _); rewrite ?loaded_settle; [|done].
    unfold ExpoFontLoader_loadAsync. cbn [new_promise]. by rewrite loaded_subscribe.
  - by destruct o.
  - destruct o; rewrite ?loaded_settle; [|done]. apply all_element_fields.
Qed.

Lemma resume_loadPromises E f o st :
  loadPromises (resume E f o st)
  = match f with
    | AwaitSingle name _ => delete name (loadPromises st)
    | _ => loadPromises st
    end.
Proof.
  destruct f; cbn [resume]; rewrite ?loadPromises_settle; try done.
  - destruct o; rewrite ?loadPromises_settle; [|done].
    destruct (downloaded _); rewrite ?loadPromises_settle; [|done].
    unfold ExpoFontLoader_loadAsync. cbn [new_promise].
    by rewrite loadPromises_subscribe.
  - by destruct o.
  - destruct o; rewrite ?loadPromises_settle; [|done]. apply all_element_fields.
Qed.

Lemma resume_calls E f o st :
  calls (resume E f o st)
  = match f, o with
    | AwaitDownload name asset _, Fulfilled =>
        if downloaded (asset_of st asset) then
          calls st ++ [CallNative (_getNativeFontName E name)
                                  (localUri (asset_of st asset))
                                  (length (promises st))]
        else calls st
    | _, _ => calls st
    end.
Proof.
  destruct f; cbn [resume]; rewrite ?calls_settle; try done.
  - destruct o; rewrite ?calls_settle; [|done].
    destruct (downloaded _); rewrite ?calls_settle; [|done].
    unfold ExpoFontLoader_loadAsync. cbn [new_promise]. by rewrite calls_subscribe.
  - by destruct o.
  - destruct o; rewrite ?calls_settle; [|done]. apply all_element_fields.
Qed.

Lemma is_external_false_same E st d o :
  let st' := apply_event E (EvSettle d o) st in
  loaded st' = loaded st /\ loadPromises st' = loadPromises st /\ calls st' = calls st.
Proof.
  cbn [apply_event]. destruct (is_external st d); [|done].
  by rewrite loaded_settle, loadPromises_settle, calls_settle.
Qed.

(** No event removes a name from [loaded]. *)
Lemma loaded_event E ev st name :
  Inv E st -> is_Some (loaded st !! name) ->
  is_Some (loaded (apply_event E ev st) !! name).
Proof.
  intros HI Hl. destruct ev as [arg|nm| |d o|a fields].
  - cbn [apply_event]. by rewrite (call_loaded _ _ (call_maps_loadAsync E arg st HI)).
  - cbn [apply_event]. by destruct (processFontFamily_fields E nm st) as (-> & _).
  - cbn [apply_event]. unfold tick. destruct (queue st) as [|[f o] rest]; [done|].
    rewrite resume_loaded. st_simpl.
    destruct f; try done. destruct o; [|done].
    apply lookup_insert_is_Some'. by right.
  - by destruct (is_external_false_same E st d o) as (-> & _).
  - done.
Qed.

Lemma loaded_run E evs st name :
  reachable E st -> is_Some (loaded st !! name) ->
  is_Some (loaded (run E evs st) !! name).
Proof.
  revert st. induction evs as [|ev evs IH]; intros st Hr Hl; [done|].
  cbn [run fold_left]. apply IH; [by constructor|].
  apply loaded_event; [by apply reachable_Inv|done].
Qed.

(** ** [isLoaded] and [isLoading] on reachable states *)

Lemma inherited_hasOwnProperty : inherited "hasOwnProperty" = true.
Proof. reflexivity. Qed.

Lemma isLoaded_spec E st name :
  Inv E st -> isLoaded st name = Normal (bool_decide (is_Some (loaded st !! name))).
Proof.
  intros [_ HI]. unfold isLoaded, hasOwnProperty, get_property.
  destruct (loaded st !! "hasOwnProperty") as [b|] eqn:Hl.
  - destruct (loaded_own _ _ HI _ _ Hl) as [_ H].
    rewrite inherited_hasOwnProperty in H. done.
  - by rewrite inherited_hasOwnProperty.
Qed.

Lemma isLoading_spec E st name :
  Inv E st ->
  isLoading st name = Normal (bool_decide (is_Some (loadPromises st !! name))).
Proof.
  intros [_ HI]. unfold isLoading, hasOwnProperty, get_property.
  destruct (loadPromises st !! "hasOwnProperty") as [b|] eqn:Hl.
  - destruct (entry_fresh _ _ HI _ _ Hl) as [_ H].
    rewrite inherited_hasOwnProperty in H. done.
  - by rewrite inherited_hasOwnProperty.
Qed.

Lemma isLoaded_true E st name :
  Inv E st -> isLoaded st name = Normal true <-> is_Some (loaded st !! name).
Proof.
  intros HI. rewrite (isLoaded_spec E) by done. split.
  - intros [= H]. by apply bool_decide_eq_true in H.
  - intros H. f_equal. by apply bool_decide_eq_true.
Qed.

Lemma isLoaded_false E st name :
  Inv E st -> isLoaded st name = Normal false <-> loaded st !! name = None.
Proof.
  intros HI. rewrite (isLoaded_spec E) by done. split.
  - intros [= H]. apply bool_decide_eq_false in H. by apply eq_None_not_Some.
  - intros H. f_equal. apply bool_decide_eq_false. by apply eq_None_not_Some.
Qed.

Lemma isLoading_true E st name :
  Inv E st -> isLoading st name = Normal true <-> is_Some (loadPromises st !! name).
Proof.
  intros HI. rewrite (isLoading_spec E) by done. split.
  - intros [= H]. by apply bool_decide_eq_true in H.
  - intros H. f_equal. by apply bool_decide_eq_true.
Qed.

Lemma isLoading_false E st name :
  Inv E st -> isLoading st name = Normal false <-> loadPromises st !! name = None.
Proof.
  intros HI. rewrite (isLoading_spec E) by done. split.
  - intros [= H]. apply bool_decide_eq_false in H. by apply eq_None_not_Some.
  - intros H. f_equal. apply bool_decide_eq_false. by apply eq_None_not_Some.
Qed.

Lemma filter_all {A} (P : A -> Prop) `{forall x, Decision (P x)} (l : list A) :
  (forall x, x ∈ l -> P x) -> filter P l = l.
Proof.
  induction l as [|x l IH]; intros H0; [done|].
  rewrite filter_cons_True by (apply H0, elem_of_cons; by left).
  f_equal. apply IH. intros y Hy. apply H0, elem_of_cons. by right.
Qed.

Lemma filter_none {A} (P : A -> Prop) `{forall x, Decision (P x)} (l : list A) :
  (forall x, x ∈ l -> ~ P x) -> filter P l = [].
Proof.
  induction l as [|x l IH]; intros H0; [done|].
  rewrite filter_cons_False by (apply H0, elem_of_cons; by left).
  apply IH. intros y Hy. apply H0, elem_of_cons. by right.
Qed.

(** An async function that ends before its first [await]: its promise
    is settled when the call returns and nothing else changes. *)
Lemma settle_fresh_state st o :
  Runtime st ->
  settle (length (promises st)) o (new_promise st).1
  = set_promises (fun ps => ps ++ [Settled o]) st.
Proof.
  intros HR. unfold settle. st_simpl.
  rewrite lookup_app_r, Nat.sub_diag by done. cbn [lookup list_lookup].
  assert (forall wf : pid * frame, wf ∈ waiting st -> wf.1 <> length (promises st)) as Hw.
  { intros [w f] Hin. simpl. apply (wait_pending _ HR), lookup_lt_Some in Hin. lia. }
  apply state_eq; st_simpl; try done.
  - rewrite insert_app_r_alt, Nat.sub_diag by done. done.
  - by apply filter_all.
  - rewrite filter_none; [by rewrite app_nil_r|]. intros wf Hin Heq. by apply (Hw wf).
Qed.

Lemma pstate_of_snoc st x :
  pstate_of (set_promises (fun ps => ps ++ [x]) st) (length (promises st)) = x.
Proof. unfold pstate_of. st_simpl. by rewrite lookup_app_r, Nat.sub_diag. Qed.

(** ** The resolver *)

(** C6: a name that is null, undefined or empty, is the literal "System",
    is a system font, contains "FuturaBT" or contains the session
    identifier is returned unchanged, and the state it is resolved in
    plays no part: the result is the same in every state, and the state
    is returned as it was. *)
Theorem processFontFamily_bypass E st name :
  bypasses E name -> processFontFamily E name st = (st, Normal name).
Proof.
  destruct name as [| |s]; try done. intros H. unfold processFontFamily.
  destruct (bool_decide (s = EmptyString)) eqn:H1; [done|].
  destruct (array_includes (systemFonts E) s) eqn:H2; [done|].
  destruct (bool_decide (s = "System")) eqn:H3; [done|]. cbn [orb].
  destruct (includes s "FuturaBT") eqn:H4; [done|].
  destruct (includes s (sessionId E)) eqn:H5; [done|].
  unfold array_includes in H2. apply bool_decide_eq_false in H1, H2, H3.
  destruct H as [?|[?|[?|[?|?]]]]; congruence || done.
Qed.

(** C6 on an input: a name that contains "FuturaBT". *)
Lemma processFontFamily_bypass_witness :
  bypasses sample_env (JsString "xFuturaBT-Bold")
  /\ processFontFamily sample_env (JsString "xFuturaBT-Bold") initial
     = (initial, Normal (JsString "xFuturaBT-Bold")).
Proof.
  assert (bypasses sample_env (JsString "xFuturaBT-Bold")) as H
    by (right; right; right; left; reflexivity).
  split; [exact H|exact (processFontFamily_bypass sample_env initial _ H)].
Defined.

(** C7: in a reachable state the resolver never throws and never changes
    the registry, and a non-empty name that takes none of the bypasses and
    is not in the Loaded Set resolves to "System", whether it is in flight
    or not (which only selects the diagnostic of a development build). *)
Theorem processFontFamily_fallback E st :
  reachable E st ->
  (forall name,
     same_registry st (processFontFamily E name st).1
     /\ exists v, (processFontFamily E name st).2 = Normal v)
  /\ (forall s,
        s <> EmptyString -> s ∉ systemFonts E -> s <> "System" ->
        includes s "FuturaBT" = false -> includes s (sessionId E) = false ->
        loaded st !! s = None ->
        (processFontFamily E (JsString s) st).2 = Normal (JsString "System")
        /\ console (processFontFamily E (JsString s) st).1
           = console st ++ diagnostic E st s).
Proof.
  intros Hr. pose proof (reachable_Inv E st Hr) as HI.
  assert (forall s, exists st', diagnose E s st = (st', Normal tt)
            /\ same_registry st st'
            /\ console st' = console st ++ diagnostic E st s) as Hdiag.
  { intros s. unfold diagnose, diagnostic. destruct (dev E).
    - rewrite (isLoading_spec E) by done.
      destruct (bool_decide _); eexists; (split; [done|]); by split.
    - exists st. split; [done|]. split; [done|]. by rewrite app_nil_r. }
  split.
  - intros name. split; [apply processFontFamily_fields|].
    unfold processFontFamily. destruct name as [| |s]; try by eexists.
    destruct (_ || _ || _); [by eexists|].
    destruct (includes s "FuturaBT"); [by eexists|].
    destruct (includes s (sessionId E)); [by eexists|].
    rewrite (isLoaded_spec E) by done. destruct (bool_decide _); [by eexists|].
    destruct (Hdiag s) as (st' & -> & _). by eexists.
  - intros s H1 H2 H3 H4 H5 H6. unfold processFontFamily.
    rewrite !bool_decide_eq_false_2 by done.
    unfold array_includes. rewrite bool_decide_eq_false_2 by done. cbn [orb].
    rewrite H4, H5. rewrite (isLoaded_spec E) by done.
    rewrite bool_decide_eq_false_2 by (rewrite H6; by intros [? ?]).
    destruct (Hdiag s) as (st' & -> & _ & Hc). done.
Qed.

Lemma not_in_list (x : string) (l : list string) :
  bool_decide (x ∈ l) = false -> x ∉ l.
Proof. apply bool_decide_eq_false. Qed.

(** C7 on a run: "Bar" is in flight and resolves to "System". *)
Lemma processFontFamily_fallback_witness :
  reachable sample_env (run sample_env [EvLoad (ArgName "Bar" (Some (SrcAsset 3)))] initial)
  /\ (processFontFamily sample_env (JsString "Bar")
        (run sample_env [EvLoad (ArgName "Bar" (Some (SrcAsset 3)))] initial)).2
     = Normal (JsString "System").
Proof.
  assert (reachable sample_env
            (run sample_env [EvLoad (ArgName "Bar" (Some (SrcAsset 3)))] initial))
    as Hr by (apply reachable_run; constructor).
  split; [exact Hr|].
  apply (proj2 (processFontFamily_fallback sample_env _ Hr) "Bar");
    first [ done | by apply not_in_list | by vm_compute ].
Defined.

(** ** The registry *)

Lemma loadAsync_name_inherited E st name src :
  Runtime st -> loaded st !! name = None -> inherited name = true ->
  loadAsync_name_result E name src st
  = set_promises (fun ps => ps ++ [Settled Fulfilled]) st.
Proof.
  intros HR Hnl Hin. unfold loadAsync_name_result, get_property.
  rewrite Hnl, Hin. cbn [truthy_flag]. by apply settle_fresh_state.
Qed.

(** C5: for a name that [Object.prototype] defines, such as "toString",
    [loadAsync] finds [loaded[name]] truthy: the call returns a promise
    that is already fulfilled, no download or registration is started,
    nothing is added to either map, and [isLoaded(name)] is false before
    and after. *)
Theorem loadAsync_inherited_name E st name src :
  reachable E st -> inherited name = true ->
  isLoaded st name = Normal false
  /\ pstate_of (loadAsync E (ArgName name src) st).1
               (loadAsync E (ArgName name src) st).2 = Settled Fulfilled
  /\ calls (loadAsync E (ArgName name src) st).1 = calls st
  /\ loaded (loadAsync E (ArgName name src) st).1 = loaded st
  /\ loadPromises (loadAsync E (ArgName name src) st).1 = loadPromises st
  /\ waiting (loadAsync E (ArgName name src) st).1 = waiting st
  /\ queue (loadAsync E (ArgName name src) st).1 = queue st
  /\ isLoaded (loadAsync E (ArgName name src) st).1 name = Normal false.
Proof.
  intros Hr Hin. pose proof (reachable_Inv E st Hr) as HI.
  assert (loaded st !! name = None) as Hnl.
  { destruct (loaded st !! name) as [b|] eqn:Hl; [|done].
    destruct (loaded_own _ _ (proj2 HI) _ _ Hl) as [_ H]. congruence. }
  assert (Inv E (loadAsync E (ArgName name src) st).1) as HI'
    by (by apply loadAsync_ok).
  cbn [loadAsync] in *. rewrite loadAsync_name_eq in *. cbn [fst snd] in *.
  rewrite (loadAsync_name_inherited E st name src (proj1 HI) Hnl Hin) in *.
  split; [by apply (isLoaded_false E)|]. split; [apply pstate_of_snoc|].
  repeat (split; [done|]). by apply (isLoaded_false E).
Qed.

(** C5 on an input: "toString" in the initial state. *)
Lemma loadAsync_inherited_name_witness :
  reachable sample_env initial /\ inherited "toString" = true
  /\ isLoaded initial "toString" = Normal false
  /\ pstate_of (loadAsync sample_env (ArgName "toString" (Some (SrcAsset 1))) initial).1
               (loadAsync sample_env (ArgName "toString" (Some (SrcAsset 1))) initial).2
     = Settled Fulfilled
  /\ isLoaded (loadAsync sample_env (ArgName "toString" (Some (SrcAsset 1))) initial).1
              "toString" = Normal false.
Proof.
  pose proof (loadAsync_inherited_name sample_env initial "toString"
                (Some (SrcAsset 1)) (reachable_initial sample_env) eq_refl)
    as (H1 & H2 & _ & _ & _ & _ & _ & H3).
  split; [constructor|]. split; [reflexivity|]. split; [exact H1|].
  split; [exact H2|exact H3].
Defined.




Lemma omap_nodup_inj {A B} (h : A -> option B) (l : list A) x y t :
  NoDup (omap h l) -> x ∈ l -> y ∈ l -> h x = Some t -> h y = Some t -> x = y.
Proof.
  induction l as [|z l IH]; intros Hn Hx Hy Hhx Hhy.
  - by apply not_elem_of_nil in Hx.
  - cbn [omap list_omap] in Hn.
    apply elem_of_cons in Hx as [->|Hx]; apply elem_of_cons in Hy as [->|Hy];
      try done.
    + rewrite Hhx in Hn. apply NoDup_cons in Hn as [Hn _]. exfalso. apply Hn.
      apply list_elem_of_omap. eauto.
    + rewrite Hhy in Hn. apply NoDup_cons in Hn as [Hn _]. exfalso. apply Hn.
      apply list_elem_of_omap. eauto.
    + apply IH; try done. destruct (h z); [by apply NoDup_cons in Hn as [_ ?]|done].
Qed.

(** The frame that targets a promise is unique. *)
Lemma same_target st f g t :
  Runtime st -> f ∈ frames st -> g ∈ frames st ->
  target f = Some t -> target g = Some t -> f = g.
Proof.
  intros HR Hf Hg Htf Htg. pose proof (owners_nodup _ HR) as Hn.
  unfold owners in Hn. apply NoDup_app in Hn as (Hn & _ & _).
  by eapply omap_nodup_inj.
Qed.

Lemma promises_subscribe w f st : promises (subscribe w f st) = promises st.
Proof. apply subscribe_fields. Qed.

Lemma all_element_promises a i st y :
  y <> a -> promises (all_element a i st) !! y = promises st !! y.
Proof.
  intros Hne. unfold all_element. destruct (alls st !! a) as [r|]; [|done].
  destruct (called r !! i) as [[|]|]; try done.
  destruct (decide _); [|done]. by rewrite promises_settle_other.
Qed.

(** Resuming a frame settles no promise but its target (or, for a
    reaction of [Promise.all], the promise of that [Promise.all]). *)
Lemma resume_promises_other E f o st y :
  y < length (promises st) -> target f <> Some y ->
  (forall a i, f = AllElem a i -> y <> a) ->
  promises (resume E f o st) !! y = promises st !! y.
Proof.
  intros Hy Ht Ha.
  assert (forall t o', target f = Some t ->
            promises (settle t o' st) !! y = promises st !! y) as Hs.
  { intros t o' Heq. apply promises_settle_other. congruence. }
  destruct f; cbn [resume target] in *; try (by apply Hs).
  - destruct o; [|by apply Hs]. destruct (downloaded _); [|by apply Hs].
    unfold ExpoFontLoader_loadAsync. cbn [new_promise].
    rewrite promises_subscribe. st_simpl. by apply lookup_app_l.
  - rewrite promises_settle_other by congruence. by destruct o.
  - destruct o.
    + apply all_element_promises. by eapply Ha.
    + apply promises_settle_other. by eapply Ha.
Qed.

Lemma pstate_of_eq st st' y :
  promises st' !! y = promises st !! y -> pstate_of st' y = pstate_of st y.
Proof. unfold pstate_of. by intros ->. Qed.

(** An event that settles the promise of an in-flight load is the job
    that resumes the load's own frame. *)
Lemma settles_entry E st name p ev o :
  Inv E st -> loadPromises st !! name = Some p ->
  pstate_of (apply_event E ev st) p = Settled o ->
  ev = EvTick /\ exists rest, queue st = (AwaitSingle name p, o) :: rest.
Proof.
  intros HI Hlk Hset. pose proof (entry_pending E st name p HI Hlk) as Hp.
  pose proof (lookup_lt_Some _ _ _ Hp) as Hlt.
  destruct HI as [HR HG].
  pose proof (entry_frame _ _ HG _ _ Hlk) as Hfr.
  assert (pstate_of st p = Pending) as Hpend by (by apply pstate_of_pending).
  destruct ev as [arg|nm| |d o'|a fields]; cbn [apply_event] in Hset.
  - destruct (loadAsync_ok E arg st (conj HR HG)) as (_ & G & _).
    rewrite (pstate_of_eq st) in Hset by (by apply (grows_promises _ _ G)).
    congruence.
  - rewrite (pstate_of_eq st) in Hset; [congruence|].
    by destruct (processFontFamily_fields E nm st) as (_ & _ & -> & _).
  - split; [done|]. unfold tick in Hset.
    destruct (queue st) as [|[f o'] rest] eqn:Hq; [congruence|].
    destruct (decide (target f = Some p)) as [Ht|Ht].
    + assert (f = AwaitSingle name p) as ->.
      { eapply (same_target st); eauto. by eapply (pop_head_frame st f o' rest). }
      exists rest. cbn [resume] in Hset. unfold pstate_of in Hset.
      rewrite settle_promises in Hset.
      * destruct (decide (p = p)); [|done]. simpl in Hset. congruence.
      * destruct o'; st_simpl; exact Hp.
    + exfalso. rewrite (pstate_of_eq (popped rest st)) in Hset;
        [change (pstate_of (popped rest st) p) with (pstate_of st p) in Hset;
         congruence|].
      apply resume_promises_other; try done.
      intros a i -> Hpa. subst a. apply (all_disjoint _ HR p).
      * eapply all_known; eauto. by eapply (pop_head_frame st _ o' rest).
      * by eapply target_owner.
  - destruct (is_external st d) eqn:Hd; [|congruence].
    rewrite (pstate_of_eq st) in Hset; [congruence|].
    apply promises_settle_other. intros Hpd. subst d.
    unfold is_external in Hd. apply bool_decide_eq_true in Hd.
    by apply (ext_not_target st p (AwaitSingle name p) HR Hd Hfr).
  - unfold pstate_of in Hset, Hpend. st_simpl in Hset. congruence.
Qed.

Lemma loadAsync_name_fresh E st name src asset :
  loaded st !! name = None -> loadPromises st !! name = None ->
  inherited name = false -> usable E src = Some asset ->
  loadAsync_name_result E name src st = started st name asset.
Proof.
  intros Hnl Hnew Hin Hsrc. unfold loadAsync_name_result, get_property.
  rewrite Hnl, Hnew, Hin. cbn [truthy_flag].
  destruct src as [[uri|n|a]|]; cbn [usable] in Hsrc; try done.
  - unfold invariant. cbn [truthy_source _getAssetForSource].
    destruct (bool_decide (n = 0%Z)); [done|]. cbn [negb]. congruence.
  - unfold invariant. cbn [truthy_source _getAssetForSource]. congruence.
Qed.

Lemma started_fields st name asset :
  let q := length (promises st) in
  loaded (started st name asset) = loaded st
  /\ loadPromises (started st name asset) = <[name := S q]> (loadPromises st)
  /\ calls (started st name asset)
     = calls st ++ [CallDownload name asset (q + 3)]
  /\ pstate_of (started st name asset) q = Pending
  /\ pstate_of (started st name asset) (S q) = Pending
  /\ queue (started st name asset) = queue st.
Proof.
  cbn zeta. unfold started. st_simpl. split; [done|]. split; [done|].
  split; [by rewrite Nat.add_comm|]. split; [|split; [|done]].
  - unfold pstate_of. st_simpl.
    by rewrite lookup_app_r, Nat.sub_diag by done.
  - unfold pstate_of. st_simpl.
    replace (S (length (promises st))) with (length (promises st) + 1) by lia.
    by rewrite lookup_fresh by lia.
Qed.

(** C2: when the shared operation of a name settles, with whatever
    outcome, the same step removes the entry of the name: [isLoading] is
    false, the name is in the Loaded Set exactly if the operation
    succeeded, and after a failure a call with a source that can be loaded
    starts a new operation with its own download. *)
Theorem in_flight_entry_removed E st name p ev o :
  reachable E st -> loadPromises st !! name = Some p ->
  pstate_of (apply_event E ev st) p = Settled o ->
  pstate_of st p = Pending
  /\ isLoading (apply_event E ev st) name = Normal false
  /\ isLoaded (apply_event E ev st) name = Normal (bool_decide (o = Fulfilled))
  /\ (o <> Fulfilled -> forall src asset, usable E src = Some asset ->
        isLoading (loadAsync E (ArgName name src) (apply_event E ev st)).1 name
        = Normal true
        /\ pstate_of (loadAsync E (ArgName name src) (apply_event E ev st)).1
                     (loadAsync E (ArgName name src) (apply_event E ev st)).2
           = Pending
        /\ calls (loadAsync E (ArgName name src) (apply_event E ev st)).1
           = calls (apply_event E ev st)
             ++ [CallDownload name asset
                   ((loadAsync E (ArgName name src) (apply_event E ev st)).2 + 3)]).
Proof.
  intros Hr Hlk Hset. pose proof (reachable_Inv E st Hr) as HI.
  pose proof (Inv_apply_event E ev st HI) as HI'.
  destruct (settles_entry E st name p ev o HI Hlk Hset) as [-> [rest Hq]].
  destruct (entry_fresh _ _ (proj2 HI) _ _ Hlk) as [Hnl Hin].
  cbn [apply_event] in *. unfold tick in *. rewrite Hq in *.
  change (set_queue (fun _ => rest) st) with (popped rest st) in *.
  assert (loadPromises (resume E (AwaitSingle name p) o (popped rest st)) !! name = None)
    as Hgone.
  { rewrite resume_loadPromises. st_simpl. apply lookup_delete_eq. }
  split; [apply pstate_of_pending; by eapply entry_pending|].
  split; [by apply (isLoading_false E)|]. split.
  - rewrite (isLoaded_spec E) by done. f_equal. rewrite resume_loaded. st_simpl.
    destruct o as [|e].
    + rewrite lookup_insert_eq. rewrite !bool_decide_eq_true_2; done.
    + rewrite Hnl. rewrite !bool_decide_eq_false_2; [done|done|by intros [? ?]].
  - intros Hfail src asset Hsrc. destruct o as [|e]; [done|].
    set (st' := resume E (AwaitSingle name p) (Rejected e) (popped rest st)) in *.
    assert (loaded st' !! name = None) as Hnl'
      by (unfold st'; by rewrite resume_loaded).
    cbn [loadAsync]. rewrite loadAsync_name_eq. cbn [fst snd].
    rewrite (loadAsync_name_fresh E st' name src asset Hnl' Hgone Hin Hsrc).
    destruct (started_fields st' name asset) as (H1 & H2 & H3 & H4 & _).
    assert (Inv E (started st' name asset)) as HI2
      by (by apply (Inv_started E st' name asset HI' Hgone Hnl' Hin)).
    split; [|by split].
    apply (isLoading_true E); [done|]. rewrite H2, lookup_insert_eq. by eexists.
Qed.

(** C3: no event removes a name from the Loaded Set, so [isLoaded] stays
    true; a name is in it only when a call of the native module for that
    name has been acknowledged, and the acknowledgement precedes the step
    that adds the name. *)
Theorem loaded_set_monotone E st :
  reachable E st ->
  (forall name, isLoaded st name = Normal true -> registered E st name)
  /\ (forall ev name,
        loaded st !! name = None ->
        is_Some (loaded (apply_event E ev st) !! name) -> registered E st name)
  /\ (forall ev name,
        is_Some (loaded st !! name) ->
        is_Some (loaded (apply_event E ev st) !! name))
  /\ (forall evs name,
        isLoaded st name = Normal true ->
        isLoaded (run E evs st) name = Normal true).
Proof.
  intros Hr. pose proof (reachable_Inv E st Hr) as HI.
  split; [|split; [|split]].
  - intros name Hl. apply (isLoaded_true E) in Hl; [|done].
    by apply (loaded_registered _ _ (proj2 HI)).
  - intros ev name Hnl Hl. destruct ev as [arg|nm| |d o|a fields].
    + cbn [apply_event] in Hl.
      rewrite (call_loaded _ _ (call_maps_loadAsync E arg st HI)), Hnl in Hl.
      by destruct Hl.
    + cbn [apply_event] in Hl.
      destruct (processFontFamily_fields E nm st) as (Heq & _).
      rewrite Heq, Hnl in Hl. by destruct Hl.
    + cbn [apply_event] in Hl. unfold tick in Hl.
      destruct (queue st) as [|[f o] rest] eqn:Hq.
      { rewrite Hnl in Hl. by destruct Hl. }
      rewrite resume_loaded in Hl. st_simpl in Hl.
      assert (exists p, f = AwaitSingle name p /\ o = Fulfilled) as (p & -> & ->).
      { destruct f as [| |nm p| | | |]; try (rewrite Hnl in Hl; by destruct Hl).
        destruct o; [|rewrite Hnl in Hl; by destruct Hl].
        apply lookup_insert_is_Some in Hl as [->|[_ Hl]]; [by exists p|].
        rewrite Hnl in Hl. by destruct Hl. }
      apply (single_done _ _ (proj2 HI) name p). rewrite Hq.
      apply elem_of_cons. by left.
    + destruct (is_external_false_same E st d o) as (Heq & _).
      rewrite Heq, Hnl in Hl. by destruct Hl.
    + cbn [apply_event] in Hl. st_simpl in Hl. rewrite Hnl in Hl. by destruct Hl.
  - intros ev name. by apply loaded_event.
  - intros evs name Hl. apply (isLoaded_true E) in Hl; [|done].
    apply (isLoaded_true E); [by apply reachable_Inv, reachable_run|].
    by apply loaded_run.
Qed.

(** ** Draining the microtask queue *)

Lemma pending_work_frames st :
  pending_work st = sum_list_with frame_weight (frames st).
Proof.
  unfold pending_work, frames. rewrite sum_list_with_app.
  f_equal.
  - induction (waiting st) as [|[w f] l IH]; [done|]. simpl. by rewrite IH.
  - induction (queue st) as [|[f o] l IH]; [done|]. simpl. by rewrite IH.
Qed.

Lemma work_settle x o st : pending_work (settle x o st) = pending_work st.
Proof. by rewrite !pending_work_frames, frames_settle. Qed.

Lemma work_subscribe w f st :
  pending_work (subscribe w f st) = frame_weight f + pending_work st.
Proof. by rewrite !pending_work_frames, frames_subscribe. Qed.

Lemma work_all_element a i st : pending_work (all_element a i st) = pending_work st.
Proof.
  unfold all_element. destruct (alls st !! a) as [r|]; [|done].
  destruct (called r !! i) as [[|]|]; try done.
  destruct (decide _); [|done]. by rewrite work_settle.
Qed.

Lemma work_resume E f o st :
  pending_work (resume E f o st) < frame_weight f + pending_work st.
Proof.
  destruct f; cbn [resume frame_weight]; rewrite ?work_settle;
    try (unfold pending_work; st_simpl; lia).
  - destruct o; rewrite ?work_settle; [|lia].
    destruct (downloaded _); rewrite ?work_settle; [|lia].
    unfold ExpoFontLoader_loadAsync. cbn [new_promise].
    rewrite work_subscribe. cbn [frame_weight]. unfold pending_work. st_simpl. lia.
  - destruct o; unfold pending_work; st_simpl; lia.
  - destruct o; rewrite ?work_settle, ?work_all_element; lia.
Qed.

Lemma tick_work E st : queue st <> [] -> pending_work (tick E st) < pending_work st.
Proof.
  intros Hq. unfold tick. destruct (queue st) as [|[f o] rest] eqn:Heq; [done|].
  pose proof (work_resume E f o (set_queue (fun _ => rest) st)) as H.
  assert (pending_work st
          = frame_weight f + pending_work (set_queue (fun _ => rest) st)) as ->.
  { unfold pending_work. st_simpl. rewrite Heq. simpl. lia. }
  done.
Qed.

Lemma tick_idle E st : queue st = [] -> tick E st = st.
Proof. unfold tick. by intros ->. Qed.

Lemma iter_tick_idle E n st : queue st = [] -> Nat.iter n (tick E) st = st.
Proof.
  intros Hq. induction n as [|n IH]; [done|].
  rewrite Nat.iter_succ_r, tick_idle by done. exact IH.
Qed.

Lemma iter_tick_queue E n : forall st,
  pending_work st <= n -> queue (Nat.iter n (tick E) st) = [].
Proof.
  induction n as [|n IH]; intros st Hn.
  - simpl. destruct (queue st) as [|[f o] rest] eqn:Hq; [done|].
    exfalso. unfold pending_work in Hn. rewrite Hq in Hn.
    rewrite fmap_cons in Hn. cbn [sum_list_with fst id] in Hn.
    assert (0 < frame_weight f) by (destruct f; simpl; lia). lia.
  - destruct (queue st) as [|fo rest] eqn:Hq.
    + by rewrite iter_tick_idle.
    + rewrite Nat.iter_succ_r. apply IH.
      pose proof (tick_work E st). rewrite Hq in H.
      assert (pending_work (tick E st) < pending_work st) by (by apply H). lia.
Qed.

(** Draining ends with an empty queue. *)
Lemma drain_queue E st : queue (drain E st) = [].
Proof. unfold drain. by apply iter_tick_queue. Qed.

Lemma iter_tick_preserves E (P : state -> Prop) n : forall st,
  (forall s, P s -> P (tick E s)) -> P st -> P (Nat.iter n (tick E) st).
Proof.
  induction n as [|n IH]; intros st Hstep H; [done|].
  rewrite Nat.iter_succ_r. apply IH; auto.
Qed.

Lemma drain_preserves E (P : state -> Prop) st :
  (forall s, P s -> P (tick E s)) -> P st -> P (drain E st).
Proof. unfold drain. apply iter_tick_preserves. Qed.

Lemma reachable_tick E st : reachable E st -> reachable E (tick E st).
Proof. intros H. exact (reachable_step E st EvTick H). Qed.

Lemma reachable_drain E st : reachable E st -> reachable E (drain E st).
Proof. apply drain_preserves. apply reachable_tick. Qed.

(** ** Promises that follow another promise *)

Lemma similar_refl st : similar st st.
Proof. done. Qed.

Lemma follows_similar st st' q p : similar st st' -> follows st q p -> follows st' q p.
Proof. intros (Hp & Hw & Hq). unfold follows. by rewrite Hp, Hw, Hq. Qed.

Lemma follows_grows st st' q p : grows st st' -> follows st q p -> follows st' q p.
Proof.
  intros G (f & Ht & Hf & H). exists f. split; [done|]. split; [done|].
  assert (forall y x, promises st !! y = Some x -> promises st' !! y = Some x) as Hk.
  { intros y x Hy. rewrite (grows_promises _ _ G); [done|]. by eapply lookup_lt_Some. }
  destruct H as [(H1 & H2 & H3)|[(o & H1 & H2 & H3)|(o & H1 & H2)]].
  - left. repeat split; auto. by apply (grows_waiting _ _ G).
  - right. left. exists o. repeat split; auto. by apply (grows_queue _ _ G).
  - right. right. exists o. auto.
Qed.

Lemma promises_settle_kept x o st y v :
  promises st !! y = Some (Settled v) -> promises (settle x o st) !! y = Some (Settled v).
Proof.
  intros Hy. destruct (decide (promises st !! x = Some Pending)) as [Hp|Hp].
  - rewrite promises_settle_other; [done|]. intros ->. congruence.
  - by rewrite settle_idle.
Qed.

Lemma follows_settle x o st q p :
  follows st q p -> (promises st !! q = Some Pending -> x <> q) ->
  follows (settle x o st) q p.
Proof.
  intros (f & Ht & Hf & H) Hq. exists f. split; [done|]. split; [done|].
  destruct (decide (promises st !! x = Some Pending)) as [Hp|Hp];
    [|by rewrite settle_idle].
  destruct H as [(H1 & H2 & H3)|[(v & H1 & H2 & H3)|(v & H1 & H2)]].
  - specialize (Hq H2). destruct (decide (x = p)) as [->|Hne].
    + right. left. exists o. split; [|split].
      * rewrite (settle_promises p o st Hp). by destruct (decide (p = p)).
      * by rewrite promises_settle_other.
      * apply (settle_queue p o st Hp). by right.
    + left. rewrite !promises_settle_other by done. repeat split; try done.
      by apply waiting_settle_keep.
  - specialize (Hq H2). right. left. exists v. split; [|split].
    + by apply promises_settle_kept.
    + by rewrite promises_settle_other.
    + by apply queue_settle_keep.
  - right. right. exists v. split; by apply promises_settle_kept.
Qed.

(** The three shapes of a job. *)
Lemma resume_shape E g o st0 :
  (exists x oo stM, similar st0 stM /\ resume E g o st0 = settle x oo stM
     /\ (target g = Some x \/ exists i, g = AllElem x i)
     /\ (forwards g -> oo = o))
  \/ similar st0 (resume E g o st0)
  \/ (promises (resume E g o st0) = promises st0 ++ [Pending]
      /\ (exists e, waiting (resume E g o st0) = waiting st0 ++ [e])
      /\ queue (resume E g o st0) = queue st0).
Proof.
  destruct g as [name asset s|name asset s|name p|name q|name q|q|a i]; cbn [resume].
  - destruct o as [|e].
    + destruct (downloaded _).
      * right. right. unfold ExpoFontLoader_loadAsync. cbn [new_promise].
        rewrite subscribe_pending.
        -- st_simpl. split; [done|]. split; [by eexists|done].
        -- unfold pstate_of. st_simpl. by rewrite lookup_app_r, Nat.sub_diag.
      * left. eexists _, _, st0. split; [done|]. split; [done|]. split; [by left|done].
    + left. eexists _, _, st0. split; [done|]. split; [done|]. split; [by left|done].
  - left. eexists _, _, st0. split; [done|]. split; [done|]. split; [by left|done].
  - left. eexists _, _, _. split; [|split; [reflexivity|split; [by left|done]]].
    by destruct o.
  - left. eexists _, _, st0. split; [done|]. split; [done|]. split; [by left|done].
  - left. eexists _, _, st0. split; [done|]. split; [done|]. split; [by left|done].
  - left. eexists _, _, st0. split; [done|]. split; [done|]. split; [by left|done].
  - destruct o as [|e].
    + unfold all_element. destruct (alls st0 !! a) as [r|]; [|by right; left].
      destruct (called r !! i) as [[|]|]; try (by right; left).
      destruct (decide _); [|by right; left].
      left. eexists _, _, _. split; [|split; [reflexivity|split; [right; by eexists|done]]].
      done.
    + left. eexists _, _, st0. split; [done|]. split; [done|].
      split; [right; by eexists|done].
Qed.

Lemma resume_forwards E f o st0 q :
  forwards f -> target f = Some q ->
  exists stM, similar st0 stM /\ resume E f o st0 = settle q o stM.
Proof.
  intros Hf Ht. destruct f; try done; cbn [resume target] in *;
    injection Ht as <-; try (by exists st0).
  eexists. split; [|reflexivity]. by destruct o.
Qed.

Lemma follows_extend st st' q p e :
  promises st' = promises st ++ [Pending] -> waiting st' = waiting st ++ [e] ->
  queue st' = queue st -> follows st q p -> follows st' q p.
Proof.
  intros Hp Hw Hq (f & Ht & Hf & H). exists f. split; [done|]. split; [done|].
  rewrite Hp, Hw, Hq.
  destruct H as [(H1 & H2 & H3)|[(o & H1 & H2 & H3)|(o & H1 & H2)]].
  - left. repeat split; try by apply lookup_app_l_Some. apply elem_of_app. by left.
  - right. left. exists o. repeat split; try by apply lookup_app_l_Some. done.
  - right. right. exists o. split; by apply lookup_app_l_Some.
Qed.

Lemma waiting_not_head st g o rest w f t :
  Runtime st -> queue st = (g, o) :: rest -> (w, f) ∈ waiting st ->
  target f = Some t -> target g <> Some t.
Proof.
  intros HR Hq Hw Ht Hg.
  eapply (pop_other_target st g o rest HR Hq f t Hg); [|done].
  apply elem_frames. left. by exists w.
Qed.

Lemma follows_tick E st q p : Inv E st -> follows st q p -> follows (tick E st) q p.
Proof.
  intros [HR HI] Hfol. unfold tick.
  destruct (queue st) as [|[g o'] rest] eqn:Hq; [done|].
  fold (popped rest st). set (st0 := popped rest st).
  destruct Hfol as (f & Ht & Hf & H).
  (* is the head the very job that settles [q]? *)
  assert ((g = f /\ exists o, o' = o /\ promises st !! p = Some (Settled o)
                              /\ promises st !! q = Some Pending)
          \/ (follows st0 q p
              /\ (promises st !! q = Some Pending -> target g <> Some q))) as Hcase.
  { destruct H as [(H1 & H2 & H3)|[(o & H1 & H2 & H3)|(o & H1 & H2)]].
    - right. split.
      + exists f. split; [done|]. split; [done|]. left. by repeat split.
      + intros _. by eapply waiting_not_head.
    - rewrite Hq in H3. apply elem_of_cons in H3 as [[= -> ->]|H3].
      + left. split; [done|]. by exists o'.
      + right. split.
        * exists f. split; [done|]. split; [done|]. right. left. by exists o.
        * intros _ Hg. eapply (pop_other_target st g o' rest HR Hq f q Hg); [|done].
          apply elem_frames. right. by exists o.
    - right. split.
      + exists f. split; [done|]. split; [done|]. right. right. by exists o.
      + intros Hpend. congruence. }
  destruct Hcase as [[-> (o & -> & Hp & Hqp)]|[Hfol0 Hnot]].
  - (* the job of the follower runs *)
    exists f. split; [done|]. split; [done|]. right. right. exists o.
    destruct (resume_forwards E f o st0 q Hf Ht) as (stM & (Hsp & _) & ->).
    split.
    + apply promises_settle_kept. by rewrite Hsp.
    + rewrite settle_promises by (by rewrite Hsp).
      by destruct (decide (q = q)).
  - destruct (resume_shape E g o' st0) as [(x & oo & stM & Hsim & Heq & Hx & Hoo)|[Hs|Hs]].
    + rewrite Heq. apply follows_settle; [by apply (follows_similar st0)|].
      destruct Hsim as (-> & _). intros Hpend ->. specialize (Hnot Hpend).
      destruct Hx as [?|[i ->]]; [done|].
      (* [q] would be the promise of a [Promise.all] and a frame target *)
      destruct Hfol0 as (f0 & Ht0 & _ & [(_ & _ & Hw)|[(o & _ & _ & Hw)|(o & _ & Hs)]]).
      * apply (all_disjoint _ HR q).
        -- eapply all_known; eauto. by eapply (pop_head_frame st _ o' rest).
        -- eapply target_owner; [|done]. apply elem_frames. left. by eexists.
      * apply (all_disjoint _ HR q).
        -- eapply all_known; eauto. by eapply (pop_head_frame st _ o' rest).
        -- eapply target_owner; [|done]. apply elem_frames. right.
           exists o. rewrite Hq. apply elem_of_cons. by right.
      * st_simpl in Hs. congruence.
    + by apply (follows_similar st0).
    + destruct Hs as (H1 & [e H2] & H3). by eapply follows_extend.
Qed.

Lemma follows_owned st q p :
  follows st q p -> promises st !! q = Some Pending ->
  exists f, f ∈ frames st /\ target f = Some q.
Proof.
  intros (f & Ht & _ & [(_ & _ & Hw)|[(o & _ & _ & Hw)|(o & _ & Hs)]]) Hq.
  - exists f. split; [|done]. apply elem_frames. left. by eexists.
  - exists f. split; [|done]. apply elem_frames. right. by eexists.
  - congruence.
Qed.

Lemma follows_event E ev st q p :
  Inv E st -> follows st q p -> follows (apply_event E ev st) q p.
Proof.
  intros HI Hfol. destruct ev as [arg|nm| |d o|a fields]; cbn [apply_event].
  - destruct (loadAsync_ok E arg st HI) as (_ & G & _). by eapply follows_grows.
  - apply (follows_similar st); [|done].
    destruct (processFontFamily_fields E nm st) as (_ & _ & H1 & H2 & H3 & _).
    by repeat split.
  - by apply (follows_tick E).
  - unfold is_external. case_bool_decide as Hd; [|done].
    apply follows_settle; [done|]. intros Hq Hdq. subst d.
    destruct (follows_owned st q p Hfol Hq) as (f & Hf & Ht).
    by apply (ext_not_target st q f (proj1 HI) Hd Hf).
  - by apply (follows_similar st).
Qed.

Lemma follows_run E evs : forall st q p,
  reachable E st -> follows st q p -> follows (run E evs st) q p.
Proof.
  induction evs as [|ev evs IH]; intros st q p Hr Hfol; [done|].
  cbn [run fold_left]. apply IH; [by constructor|].
  apply follows_event; [by apply reachable_Inv|done].
Qed.

Lemma follows_drain E st q p :
  reachable E st -> follows st q p -> follows (drain E st) q p.
Proof.
  intros Hr Hfol.
  apply (drain_preserves E (fun s => reachable E s /\ follows s q p) st); [|done].
  intros s [Hs Hf]. split; [by apply reachable_tick|].
  apply follows_tick; [by apply reachable_Inv|done].
Qed.

(** A follower is never settled before, or differently from, the promise
    it follows. *)
Lemma follows_settled st q p o :
  follows st q p -> pstate_of st q = Settled o -> pstate_of st p = Settled o.
Proof.
  unfold pstate_of.
  intros (f & _ & _ & [(_ & H2 & _)|[(v & _ & H2 & _)|(v & H1 & H2)]]) Hq;
    rewrite ?H2 in Hq; try done.
  rewrite H1. simpl in *. congruence.
Qed.

(** Once the queue is empty both are in the same state. *)
Lemma follows_quiescent st q p :
  follows st q p -> queue st = [] -> pstate_of st q = pstate_of st p.
Proof.
  unfold pstate_of.
  intros (f & _ & _ & [(H1 & H2 & _)|[(v & _ & _ & H3)|(v & H1 & H2)]]) Hq.
  - by rewrite H1, H2.
  - rewrite Hq in H3. by apply not_elem_of_nil in H3.
  - by rewrite H1, H2.
Qed.

(** The promise a call returns follows the shared operation of the name. *)
Lemma follows_call E st name src p :
  Inv E st -> loadPromises (loadAsync_name_result E name src st) !! name = Some p ->
  follows (loadAsync_name_result E name src st) (length (promises st)) p.
Proof.
  intros HI. unfold loadAsync_name_result.
  assert (forall o, loadPromises (settle (length (promises st)) o (new_promise st).1)
                      !! name = Some p -> loadPromises st !! name = Some p) as Hback.
  { intros o. by rewrite loadPromises_settle. }
  destruct (truthy_flag _) eqn:Hl.
  { intros Hlk%Hback. destruct (entry_fresh _ _ (proj2 HI) _ _ Hlk) as [Hnl Hin].
    unfold get_property in Hl. rewrite Hnl, Hin in Hl. done. }
  destruct (get_property (loadPromises st) name) as [p'| |] eqn:Hlp.
  - apply get_property_own in Hlp. rewrite loadPromises_subscribe. st_simpl.
    intros Heq. rewrite Hlp in Heq. injection Heq as ->.
    pose proof (entry_pending E st name p HI Hlp) as Hp.
    exists (ReturnShared name (length (promises st))).
    split; [done|]. split; [done|]. left. rewrite promises_subscribe. st_simpl.
    split; [by apply lookup_app_l_Some|]. split.
    + by rewrite lookup_app_r, Nat.sub_diag.
    + apply subscribe_waiting. right. split; [done|]. split; [done|].
      apply pstate_of_pending. st_simpl. by apply lookup_app_l_Some.
  - intros Hlk%Hback. apply get_property_inherited in Hlp as [Hn _]. congruence.
  - apply get_property_missing in Hlp as [Hnew _].
    destruct (invariant _ _); [|intros Hlk%Hback; congruence].
    destruct (_getAssetForSource E src) as [asset|e]; [|intros Hlk%Hback; congruence].
    unfold started. st_simpl. rewrite lookup_insert_eq. intros [= <-].
    exists (AwaitShared name (length (promises st))).
    split; [done|]. split; [done|]. left. st_simpl. split; [|split].
    + replace (S (length (promises st))) with (length (promises st) + 1) by lia.
      apply lookup_fresh. lia.
    + by rewrite lookup_app_r, Nat.sub_diag.
    + apply elem_of_app. right. rewrite !elem_of_cons. auto.
Qed.

(** ** Counting the calls made for one name *)

Lemma string_app_inv_head (s a b : string) : s +:+ a = s +:+ b -> a = b.
Proof. induction s as [|c s IH]; simpl; [done|]. intros [= H]. auto. Qed.

Lemma native_name_inj E a b :
  _getNativeFontName E a = _getNativeFontName E b -> a = b.
Proof.
  unfold _getNativeFontName. intros H%string_app_inv_head.
  by apply (string_app_inv_head "-") in H.
Qed.

Lemma downloading_perm name st st' :
  frames st' ≡ₚ frames st -> downloading name st' = downloading name st.
Proof. unfold downloading. by intros ->. Qed.

Lemma downloading_settle name x o st :
  downloading name (settle x o st) = downloading name st.
Proof. apply downloading_perm, frames_settle. Qed.

Lemma downloading_subscribe name w f st :
  downloading name (subscribe w f st)
  = (if decide (is_downloading name f) then 1 else 0) + downloading name st.
Proof.
  unfold downloading. rewrite frames_subscribe, filter_cons.
  by destruct (decide (is_downloading name f)).
Qed.

Lemma same_counts_refl E name st : same_counts E name st st.
Proof. by split. Qed.

Lemma same_counts_trans E name st1 st2 st3 :
  same_counts E name st1 st2 -> same_counts E name st2 st3 ->
  same_counts E name st1 st3.
Proof. intros [] []. split; congruence. Qed.

Lemma same_counts_eq E name st st' :
  calls st' = calls st -> frames st' ≡ₚ frames st -> same_counts E name st st'.
Proof.
  intros Hc Hf. split; unfold downloads_of, registrations_of; rewrite ?Hc; try done.
  by apply downloading_perm.
Qed.

Lemma same_counts_settle E name x o st : same_counts E name st (settle x o st).
Proof. apply same_counts_eq; [apply calls_settle|apply frames_settle]. Qed.

Lemma same_counts_subscribe E name w f st :
  ~ is_downloading name f -> same_counts E name st (subscribe w f st).
Proof.
  intros Hf. split; unfold downloads_of, registrations_of;
    rewrite ?calls_subscribe; try done.
  rewrite downloading_subscribe. by destruct (decide _).
Qed.

Lemma same_counts_name E name nm src st :
  Inv E st -> is_Some (loadPromises st !! name) ->
  same_counts E name st (loadAsync_name_result E nm src st).
Proof.
  intros HI [p Hp]. unfold loadAsync_name_result.
  assert (forall o, same_counts E name st
                      (settle (length (promises st)) o (new_promise st).1)) as Hfresh.
  { intros o. eapply same_counts_trans; [|apply same_counts_settle].
    by apply same_counts_eq. }
  destruct (truthy_flag _); [apply Hfresh|].
  destruct (get_property (loadPromises st) nm) as [p'| |] eqn:Hlp; [|apply Hfresh|].
  - eapply same_counts_trans; [|apply same_counts_subscribe; by intros []].
    by apply same_counts_eq.
  - apply get_property_missing in Hlp as [Hnew _].
    destruct (invariant _ _); [|apply Hfresh].
    destruct (_getAssetForSource E src) as [asset|e]; [|apply Hfresh].
    assert (nm <> name) as Hne by (intros ->; congruence).
    split; unfold downloads_of, registrations_of, downloading, started, frames;
      st_simpl.
    + rewrite filter_app, length_app. rewrite filter_cons_False by exact Hne.
      simpl. lia.
    + rewrite filter_app, length_app. rewrite filter_cons_False by (by intros []).
      simpl. lia.
    + rewrite fmap_app, !filter_app, !length_app. simpl.
      rewrite filter_cons_False by exact Hne.
      rewrite filter_cons_False by (by intros []).
      rewrite filter_cons_False by (by intros []). simpl. lia.
Qed.

Lemma same_counts_each E name {A} (f : A -> state -> state * pid) l st :
  (forall x, call_ok E (f x)) ->
  (forall x st, Inv E st -> call_maps st (f x st).1) ->
  (forall x st, Inv E st -> is_Some (loadPromises st !! name) ->
                same_counts E name st (f x st).1) ->
  Inv E st -> is_Some (loadPromises st !! name) ->
  same_counts E name st (call_each f l st).1.
Proof.
  intros Hok Hmaps Hf. revert st. induction l as [|x l IH]; intros st HI Hin.
  - apply same_counts_refl.
  - cbn [call_each]. pose proof (Hf x st HI Hin) as H1.
    pose proof (Hmaps x st HI) as M1. destruct (Hok x st HI) as (HI1 & _).
    destruct (f x st) as [st1 q]. cbn [fst snd] in *.
    assert (is_Some (loadPromises st1 !! name)) as Hin1.
    { destruct Hin as [p Hp]. exists p. by apply (call_entries _ _ M1). }
    pose proof (IH st1 HI1 Hin1) as H2.
    destruct (call_each f l st1) as [st2 qs]. cbn [fst snd] in *.
    by eapply same_counts_trans.
Qed.

Lemma same_counts_subscribe_all E name a elems : forall i st,
  same_counts E name st (subscribe_all a i elems st).
Proof.
  induction elems as [|e elems IH]; intros i st; [apply same_counts_refl|].
  cbn [subscribe_all]. eapply same_counts_trans; [|apply IH].
  apply same_counts_subscribe. by intros [].
Qed.

Lemma same_counts_Promise_all E name elems st :
  same_counts E name st (Promise_all elems st).1.
Proof.
  unfold Promise_all. cbn [new_promise fst snd].
  eapply same_counts_trans;
    [|destruct elems; [apply same_counts_settle|apply same_counts_refl]].
  eapply same_counts_trans; [|apply same_counts_subscribe_all].
  by apply same_counts_eq.
Qed.

Lemma same_counts_fan_out E name {A} (f : A -> state -> state * pid) l st0 q :
  (forall x, call_ok E (f x)) ->
  (forall x st, Inv E st -> call_maps st (f x st).1) ->
  (forall x st, Inv E st -> is_Some (loadPromises st !! name) ->
                same_counts E name st (f x st).1) ->
  Inv E st0 -> is_Some (loadPromises st0 !! name) ->
  same_counts E name st0 (fan_out f l st0 q).1.
Proof.
  intros Hok Hmaps Hf HI Hin. unfold fan_out.
  pose proof (same_counts_each E name f l st0 Hok Hmaps Hf HI Hin) as H1.
  destruct (call_each f l st0) as [st1 qs]. cbn [fst snd] in *.
  pose proof (same_counts_Promise_all E name qs st1) as H2.
  destruct (Promise_all qs st1) as [st2 a]. cbn [fst snd] in *.
  eapply same_counts_trans; [done|]. eapply same_counts_trans; [done|].
  apply same_counts_subscribe. by intros [].
Qed.

Lemma same_counts_map E name m st :
  Inv E st -> is_Some (loadPromises st !! name) ->
  same_counts E name st (loadAsync_map E m st).1.
Proof.
  intros HI Hin. rewrite loadAsync_map_eq.
  eapply same_counts_trans; [|apply (same_counts_fan_out E)].
  - by apply same_counts_eq.
  - intros nm. apply loadAsync_name_ok.
  - intros nm st' HI'. rewrite loadAsync_name_eq. by apply call_maps_name.
  - intros nm st' HI' Hin'. rewrite loadAsync_name_eq. by apply same_counts_name.
  - by apply Inv_new_promise.
  - done.
Qed.

Lemma same_counts_array E name ms st :
  Inv E st -> is_Some (loadPromises st !! name) ->
  same_counts E name st (loadAsync_array E ms st).1.
Proof.
  intros HI Hin. rewrite loadAsync_array_eq.
  eapply same_counts_trans; [|apply (same_counts_fan_out E)].
  - by apply same_counts_eq.
  - apply loadAsync_map_ok.
  - intros m st' HI'. by apply call_maps_map.
  - intros m st' HI' Hin'. by apply same_counts_map.
  - apply Inv_console. by apply Inv_new_promise.
  - done.
Qed.

(** While a name is in flight no call of [loadAsync], in any of its three
    forms, starts a download or a registration for it. *)
Lemma same_counts_loadAsync E name arg st :
  Inv E st -> is_Some (loadPromises st !! name) ->
  same_counts E name st (loadAsync E arg st).1.
Proof.
  intros HI Hin. destruct arg as [nm src|m|ms]; cbn [loadAsync].
  - rewrite loadAsync_name_eq. by apply same_counts_name.
  - by apply same_counts_map.
  - by apply same_counts_array.
Qed.

Lemma downloading_pop name st g o rest :
  queue st = (g, o) :: rest ->
  downloading name st
  = (if decide (is_downloading name g) then 1 else 0)
    + downloading name (popped rest st).
Proof.
  intros Hq. unfold downloading, frames. st_simpl. rewrite Hq.
  rewrite fmap_cons, !filter_app, !length_app, filter_cons. cbn [fst].
  destruct (decide (is_downloading name g)); simpl; lia.
Qed.

Lemma all_element_counts E name a i st :
  same_counts E name st (all_element a i st).
Proof.
  unfold all_element. destruct (alls st !! a) as [r|]; [|apply same_counts_refl].
  destruct (called r !! i) as [[|]|]; try apply same_counts_refl.
  destruct (decide _).
  - eapply same_counts_trans; [|apply same_counts_settle]. by apply same_counts_eq.
  - by apply same_counts_eq.
Qed.

(** A job makes no download call, and a registration call for [name]
    only by consuming a pending download of [name]. *)
Lemma count_tick E name st :
  downloads_of name (tick E st) = downloads_of name st
  /\ registrations_of E name (tick E st) + downloading name (tick E st)
     <= registrations_of E name st + downloading name st.
Proof.
  unfold tick. destruct (queue st) as [|[g o] rest] eqn:Hq; [done|].
  fold (popped rest st). rewrite (downloading_pop name st g o rest Hq).
  set (st0 := popped rest st).
  assert (downloads_of name st = downloads_of name st0
          /\ registrations_of E name st = registrations_of E name st0) as [-> ->]
    by done.
  assert (forall st', same_counts E name st0 st' ->
            downloads_of name st' = downloads_of name st0
            /\ registrations_of E name st' + downloading name st'
               <= registrations_of E name st0
                  + ((if decide (is_downloading name g) then 1 else 0)
                     + downloading name st0)) as Hsame.
  { intros st' [H1 H2 H3]. rewrite H1, H2, H3. split; [done|]. lia. }
  destruct g as [nm asset s|nm asset s|nm p|nm q|nm q|q|a i]; cbn [resume];
    try (apply Hsame, same_counts_settle).
  - destruct o as [|e]; [|apply Hsame, same_counts_settle].
    destruct (downloaded _); [|apply Hsame, same_counts_settle].
    unfold ExpoFontLoader_loadAsync. cbn [new_promise].
    unfold downloads_of, registrations_of. rewrite !calls_subscribe.
    rewrite downloading_subscribe. st_simpl.
    rewrite !filter_app, !length_app. rewrite (filter_cons_False (is_download name))
      by (by intros []).
    rewrite decide_False by (by intros []).
    split; [simpl; lia|]. cbn [is_downloading]. rewrite filter_cons.
    change (downloading name (set_calls _ (set_promises _ st0)))
      with (downloading name st0).
    destruct (decide (nm = name)) as [->|Hne].
    + rewrite decide_True by done. simpl. unfold registrations_of. lia.
    + rewrite decide_False by (simpl; intros H%native_name_inj; done).
      simpl. unfold registrations_of. lia.
  - eapply Hsame, same_counts_trans; [|apply same_counts_settle].
    apply same_counts_eq; by destruct o.
  - destruct o; [apply Hsame, all_element_counts|apply Hsame, same_counts_settle].
Qed.

Lemma count_event E name ev st :
  Inv E st -> is_Some (loadPromises st !! name) ->
  downloads_of name (apply_event E ev st) = downloads_of name st
  /\ registrations_of E name (apply_event E ev st)
     + downloading name (apply_event E ev st)
     <= registrations_of E name st + downloading name st.
Proof.
  intros HI Hin.
  assert (forall st', same_counts E name st st' ->
            downloads_of name st' = downloads_of name st
            /\ registrations_of E name st' + downloading name st'
               <= registrations_of E name st + downloading name st) as Hsame.
  { intros st' [H1 H2 H3]. rewrite H1, H2, H3. split; [done|]. lia. }
  destruct ev as [arg|nm| |d o|a fields]; cbn [apply_event].
  - by apply Hsame, same_counts_loadAsync.
  - apply Hsame. destruct (processFontFamily_fields E nm st)
      as (_ & _ & _ & H2 & H3 & _ & _ & H4).
    apply same_counts_eq; [done|]. by rewrite (frames_eq st).
  - apply count_tick.
  - destruct (is_external st d); [apply Hsame, same_counts_settle|].
    apply Hsame, same_counts_refl.
  - by apply Hsame, same_counts_eq.
Qed.

Lemma count_run E name evs : forall st,
  reachable E st -> in_flight_during E name evs st ->
  downloads_of name (run E evs st) = downloads_of name st
  /\ registrations_of E name (run E evs st) + downloading name (run E evs st)
     <= registrations_of E name st + downloading name st.
Proof.
  induction evs as [|ev evs IH]; intros st Hr Hin;
    [change (run E [] st) with st; split; [done|lia]|].
  destruct Hin as [Hin Hrest].
  change (run E (ev :: evs) st) with (run E evs (apply_event E ev st)).
  destruct (count_event E name ev st (reachable_Inv E st Hr) Hin) as [H1 H2].
  destruct (IH (apply_event E ev st) (reachable_step E st ev Hr) Hrest) as [H3 H4].
  split; [congruence|lia].
Qed.

(** Outside an operation no download of the name is pending. *)
Lemma downloading_idle E name st :
  Inv E st -> loadPromises st !! name = None -> downloading name st = 0.
Proof.
  intros [HR HI] Hnew. unfold downloading. rewrite filter_none; [done|].
  intros f Hf Hd. destruct f as [nm a s| | | | | |]; try done. simpl in Hd. subst nm.
  destruct (single_chain _ _ HI (AwaitDownload name a s) name s Hf) as [p Hw].
  { exists a. by left. }
  assert (AwaitSingle name p ∈ frames st) as Hfr
    by (apply elem_frames; left; by eexists).
  apply (frame_entry _ _ HI) in Hfr. congruence.
Qed.

Lemma started_counts E name asset st :
  downloads_of name (started st name asset) = S (downloads_of name st)
  /\ registrations_of E name (started st name asset) = registrations_of E name st
  /\ downloading name (started st name asset) = S (downloading name st).
Proof.
  unfold downloads_of, registrations_of, downloading, started, frames. st_simpl.
  split; [|split].
  - rewrite filter_app, length_app, filter_cons_True by done. simpl. lia.
  - rewrite filter_app, length_app, filter_cons_False by (by intros []). simpl. lia.
  - rewrite fmap_app, !filter_app, !length_app. rewrite !fmap_cons. cbn [snd].
    rewrite filter_cons_True by done.
    rewrite filter_cons_False by (by intros []).
    rewrite filter_cons_False by (by intros []). simpl. lia.
Qed.

(** C1: while a name is in flight a further call for it starts nothing
    and is handed the shared operation; the promise of every caller, the
    first included, is settled only with the outcome of that operation
    and, once the microtask queue is drained, is in the same state as it;
    and from the call that starts the operation to the step that ends it,
    whatever other calls are made, exactly one download and at most one
    native registration are requested for the name. *)
Theorem loadAsync_shares_operation E st name :
  reachable E st ->
  (forall p src,
     loadPromises st !! name = Some p ->
     loaded (loadAsync E (ArgName name src) st).1 = loaded st
     /\ loadPromises (loadAsync E (ArgName name src) st).1 = loadPromises st
     /\ calls (loadAsync E (ArgName name src) st).1 = calls st
     /\ (p, ReturnShared name (loadAsync E (ArgName name src) st).2)
        ∈ waiting (loadAsync E (ArgName name src) st).1)
  /\ (forall src p evs,
        loadPromises (loadAsync E (ArgName name src) st).1 !! name = Some p ->
        (forall o,
           pstate_of (run E evs (loadAsync E (ArgName name src) st).1)
                     (loadAsync E (ArgName name src) st).2 = Settled o ->
           pstate_of (run E evs (loadAsync E (ArgName name src) st).1) p
           = Settled o)
        /\ pstate_of (drain E (run E evs (loadAsync E (ArgName name src) st).1))
                     (loadAsync E (ArgName name src) st).2
           = pstate_of (drain E (run E evs (loadAsync E (ArgName name src) st).1)) p)
  /\ (forall src asset evs,
        loadPromises st !! name = None -> loaded st !! name = None ->
        inherited name = false -> usable E src = Some asset ->
        in_flight_during E name evs (loadAsync E (ArgName name src) st).1 ->
        downloads_of name (run E evs (loadAsync E (ArgName name src) st).1)
        = S (downloads_of name st)
        /\ registrations_of E name (run E evs (loadAsync E (ArgName name src) st).1)
           <= S (registrations_of E name st)).
Proof.
  intros Hr. pose proof (reachable_Inv E st Hr) as HI.
  assert (forall src, reachable E (loadAsync E (ArgName name src) st).1) as Hr1.
  { intros src. exact (reachable_step E st (EvLoad (ArgName name src)) Hr). }
  split; [|split].
  - intros p src Hlk. cbn [loadAsync]. rewrite loadAsync_name_eq. cbn [fst snd].
    destruct (entry_fresh _ _ (proj2 HI) _ _ Hlk) as [Hnl Hin].
    unfold loadAsync_name_result, get_property. rewrite Hnl, Hlk, Hin.
    cbn [truthy_flag]. rewrite loaded_subscribe, loadPromises_subscribe, calls_subscribe.
    repeat (split; [done|]). apply subscribe_waiting. right.
    split; [done|]. split; [done|]. apply pstate_of_pending. st_simpl.
    apply lookup_app_l_Some. by eapply entry_pending.
  - intros src p evs Hlk. specialize (Hr1 src).
    cbn [loadAsync] in *. rewrite loadAsync_name_eq in *. cbn [fst snd] in *.
    pose proof (follows_call E st name src p HI Hlk) as Hfol.
    pose proof (follows_run E evs _ _ _ Hr1 Hfol) as Hfol2.
    split.
    + intros o. by apply follows_settled.
    + apply follows_quiescent; [|apply drain_queue].
      apply follows_drain; [by apply reachable_run|done].
  - intros src asset evs Hnew Hnl Hin Hsrc Hfl. specialize (Hr1 src).
    cbn [loadAsync] in *. rewrite loadAsync_name_eq in *. cbn [fst snd] in *.
    rewrite (loadAsync_name_fresh E st name src asset Hnl Hnew Hin Hsrc) in *.
    destruct (count_run E name evs _ Hr1 Hfl) as [H1 H2].
    destruct (started_counts E name asset st) as (H3 & H4 & H5).
    rewrite (downloading_idle E name st HI Hnew) in H5.
    split; [congruence|lia].
Qed.

(** ** Promises never go back *)

Lemma resume_settled E g o st y v :
  promises st !! y = Some (Settled v) ->
  promises (resume E g o st) !! y = Some (Settled v).
Proof.
  intros Hy.
  destruct (resume_shape E g o st) as [(x & oo & stM & (Hs & _) & -> & _)|[Hs|Hs]].
  - apply promises_settle_kept. by rewrite Hs.
  - destruct Hs as (-> & _). done.
  - destruct Hs as (-> & _). by apply lookup_app_l_Some.
Qed.

Lemma event_settled E ev st y v :
  Inv E st -> promises st !! y = Some (Settled v) ->
  promises (apply_event E ev st) !! y = Some (Settled v).
Proof.
  intros HI Hy. destruct ev as [arg|nm| |d o|a fields]; cbn [apply_event].
  - destruct (loadAsync_ok E arg st HI) as (_ & G & _).
    rewrite (grows_promises _ _ G); [done|]. by eapply lookup_lt_Some.
  - by destruct (processFontFamily_fields E nm st) as (_ & _ & -> & _).
  - unfold tick. destruct (queue st) as [|[g o] rest]; [done|].
    by apply resume_settled.
  - destruct (is_external st d); [|done]. by apply promises_settle_kept.
  - done.
Qed.

Lemma run_settled E evs : forall st y v,
  reachable E st -> promises st !! y = Some (Settled v) ->
  promises (run E evs st) !! y = Some (Settled v).
Proof.
  induction evs as [|ev evs IH]; intros st y v Hr Hy; [done|].
  change (run E (ev :: evs) st) with (run E evs (apply_event E ev st)).
  apply IH; [by constructor|]. apply event_settled; [by apply reachable_Inv|done].
Qed.

Lemma resume_allocated E g o st y :
  is_Some (promises st !! y) -> is_Some (promises (resume E g o st) !! y).
Proof.
  rewrite !lookup_lt_is_Some. intros Hy.
  destruct (resume_shape E g o st) as [(x & oo & stM & (Hs & _) & -> & _)|[Hs|Hs]].
  - rewrite length_settle. by rewrite Hs.
  - destruct Hs as (-> & _). done.
  - destruct Hs as (-> & _). rewrite length_app. lia.
Qed.

Lemma event_allocated E ev st y :
  Inv E st -> is_Some (promises st !! y) ->
  is_Some (promises (apply_event E ev st) !! y).
Proof.
  intros HI Hy. destruct ev as [arg|nm| |d o|a fields]; cbn [apply_event].
  - destruct (loadAsync_ok E arg st HI) as (_ & G & _).
    apply lookup_lt_is_Some in Hy. apply lookup_lt_is_Some.
    pose proof (grows_length _ _ G). lia.
  - by destruct (processFontFamily_fields E nm st) as (_ & _ & -> & _).
  - unfold tick. destruct (queue st) as [|[g o] rest]; [done|].
    by apply resume_allocated.
  - destruct (is_external st d); [|done].
    apply lookup_lt_is_Some. rewrite length_settle. by apply lookup_lt_is_Some.
  - done.
Qed.

Lemma pstate_of_settled st y v :
  pstate_of st y = Settled v <-> promises st !! y = Some (Settled v).
Proof.
  unfold pstate_of. destruct (promises st !! y) as [[|w]|]; simpl; naive_solver.
Qed.

(** ** The shared operation and the Loaded Set *)

Lemma entries_event E ev st name p :
  Inv E st -> loadPromises st !! name = Some p ->
  pstate_of (apply_event E ev st) p = Pending ->
  loadPromises (apply_event E ev st) !! name = Some p.
Proof.
  intros HI Hlk Hpend. destruct ev as [arg|nm| |d o|a fields].
  - by apply (call_entries _ _ (call_maps_loadAsync E arg st HI)).
  - cbn [apply_event]. by destruct (processFontFamily_fields E nm st) as (_ & -> & _).
  - cbn [apply_event] in *. unfold tick in *.
    destruct (queue st) as [|[g o] rest] eqn:Hq; [done|].
    rewrite resume_loadPromises. destruct g as [| |nm p'| | | |]; try done. st_simpl.
    rewrite lookup_delete_ne; [done|]. intros ->.
    assert (loadPromises st !! name = Some p') as Hlk'.
    { apply (frame_entry _ _ (proj2 HI)).
      by eapply (pop_head_frame st _ o rest (proj1 HI)). }
    assert (p' = p) as -> by congruence.
    cbn [resume] in Hpend. unfold pstate_of in Hpend.
    rewrite settle_promises in Hpend.
    + by destruct (decide (p = p)).
    + destruct o; st_simpl; by eapply entry_pending.
  - by destruct (is_external_false_same E st d o) as (_ & -> & _).
  - done.
Qed.

Lemma op_for_event E ev st p name :
  Inv E st -> op_for st p name -> op_for (apply_event E ev st) p name.
Proof.
  intros HI [(Hp & Hlk)|[(Hp & Hl)|(e & Hp)]].
  - destruct (pstate_of (apply_event E ev st) p) as [|o] eqn:Hst.
    + left. split; [|by apply (entries_event E)].
      destruct (event_allocated E ev st p HI) as [x Hx]; [by eexists|].
      unfold pstate_of in Hst. rewrite Hx in Hst. simpl in Hst. congruence.
    + pose proof Hst as Hst'. apply pstate_of_settled in Hst'.
      destruct (settles_entry E st name p ev o HI Hlk Hst) as [-> [rest Hq]].
      destruct o as [|e]; [|right; right; by exists e].
      right. left. split; [done|]. cbn [apply_event]. unfold tick. rewrite Hq.
      rewrite resume_loaded. st_simpl. rewrite lookup_insert_eq. by eexists.
  - right. left. split; [by apply event_settled|by apply loaded_event].
  - right. right. exists e. by apply event_settled.
Qed.

Lemma op_for_run E evs : forall st p name,
  reachable E st -> op_for st p name -> op_for (run E evs st) p name.
Proof.
  induction evs as [|ev evs IH]; intros st p name Hr H; [done|].
  change (run E (ev :: evs) st) with (run E evs (apply_event E ev st)).
  apply IH; [by constructor|]. apply op_for_event; [by apply reachable_Inv|done].
Qed.

(** A caller whose promise is fulfilled finds the name loaded. *)
Lemma fulfilled_call_loaded E st name src evs :
  reachable E st -> inherited name = false ->
  pstate_of (run E evs (loadAsync E (ArgName name src) st).1)
            (loadAsync E (ArgName name src) st).2 = Settled Fulfilled ->
  is_Some (loaded (run E evs (loadAsync E (ArgName name src) st).1) !! name).
Proof.
  intros Hr Hin Hq. pose proof (reachable_Inv E st Hr) as HI.
  pose proof (reachable_step E st (EvLoad (ArgName name src)) Hr) as Hr1.
  cbn [apply_event] in Hr1.
  pose proof (reachable_Inv E _ Hr1) as HI1.
  cbn [loadAsync] in *. rewrite loadAsync_name_eq in *. cbn [fst snd] in *.
  destruct (loadPromises (loadAsync_name_result E name src st) !! name)
    as [p|] eqn:Hlk.
  - pose proof (follows_call E st name src p HI Hlk) as Hfol.
    apply (follows_run E evs _ _ _ Hr1) in Hfol.
    pose proof (follows_settled _ _ _ _ Hfol Hq) as Hp.
    apply pstate_of_settled in Hp.
    assert (op_for (loadAsync_name_result E name src st) p name) as Hop.
    { left. split; [by eapply entry_pending|done]. }
    apply (op_for_run E evs _ _ _ Hr1) in Hop.
    destruct Hop as [(Hp' & _)|[(_ & Hl)|(e & Hp')]]; [congruence|done|congruence].
  - apply loaded_run; [done|].
    assert (forall o, o <> Fulfilled ->
              loadAsync_name_result E name src st
              = settle (length (promises st)) o (new_promise st).1 -> False) as Hrej.
    { intros o Ho Heq. rewrite Heq, settle_fresh_state in Hq by apply HI.
      apply pstate_of_settled in Hq.
      assert (promises (set_promises (fun ps => ps ++ [Settled o]) st)
                !! length (promises st) = Some (Settled o)) as Hs.
      { st_simpl. by rewrite lookup_app_r, Nat.sub_diag. }
      apply (run_settled E evs) in Hs; [|by rewrite <- settle_fresh_state, <- Heq by apply HI].
      congruence. }
    unfold loadAsync_name_result in *.
    destruct (truthy_flag (get_property (loaded st) name)) eqn:Hl.
    + rewrite loaded_settle. st_simpl. unfold get_property in Hl.
      destruct (loaded st !! name); [done|]. by rewrite Hin in Hl.
    + destruct (get_property (loadPromises st) name) as [p'| |] eqn:Hlp.
      * apply get_property_own in Hlp. rewrite loadPromises_subscribe in Hlk.
        st_simpl in Hlk. congruence.
      * apply get_property_inherited in Hlp as [_ ?]. congruence.
      * destruct (invariant _ _); [|exfalso; eapply Hrej; [|reflexivity]; done].
        destruct (_getAssetForSource E src); [|exfalso; eapply Hrej; [|reflexivity]; done].
        unfold started in Hlk. st_simpl in Hlk. by rewrite lookup_insert_eq in Hlk.
Qed.

(** C4 (amended): in an environment whose session identifier is "abc" and
    whose system fonts do not include "Foo", once the promise returned by
    [loadAsync("Foo", src)] is fulfilled, [isLoaded("Foo")] is true,
    [isLoading("Foo")] is false and the resolver leaves the state alone and
    returns "ExpoFont-abc-Foo". *)
Theorem loaded_font_resolves E st src evs :
  sessionId E = "abc" ->
  array_includes (systemFonts E) "Foo" = false ->
  reachable E st ->
  pstate_of (run E evs (loadAsync E (ArgName "Foo" src) st).1)
            (loadAsync E (ArgName "Foo" src) st).2 = Settled Fulfilled ->
  isLoaded (run E evs (loadAsync E (ArgName "Foo" src) st).1) "Foo" = Normal true
  /\ isLoading (run E evs (loadAsync E (ArgName "Foo" src) st).1) "Foo" = Normal false
  /\ processFontFamily E (JsString "Foo")
       (run E evs (loadAsync E (ArgName "Foo" src) st).1)
     = (run E evs (loadAsync E (ArgName "Foo" src) st).1,
        Normal (JsString "ExpoFont-abc-Foo"))
  /\ "ExpoFont-abc-Foo" = "ExpoFont-" +:+ _getNativeFontName E "Foo".
Proof.
  intros Hs Hsys Hr Hq.
  pose proof (fulfilled_call_loaded E st "Foo" src evs Hr eq_refl Hq) as Hl.
  assert (Inv E (run E evs (loadAsync E (ArgName "Foo" src) st).1)) as HI.
  { apply reachable_Inv, reachable_run.
    exact (reachable_step E st (EvLoad (ArgName "Foo" src)) Hr). }
  set (st' := run E evs (loadAsync E (ArgName "Foo" src) st).1) in *.
  assert (isLoaded st' "Foo" = Normal true) as H1 by (by apply (isLoaded_true E)).
  split; [exact H1|]. split.
  - apply (isLoading_false E); [done|].
    destruct (loadPromises st' !! "Foo") as [p|] eqn:Hp; [|done].
    destruct (entry_fresh _ _ (proj2 HI) _ _ Hp) as [Hn _].
    rewrite Hn in Hl. by destruct Hl.
  - unfold processFontFamily, _getNativeFontName. rewrite Hsys, Hs, H1. done.
Qed.

(** C4 on a run: "Foo" loaded in [sample_env]. *)
Lemma loaded_font_resolves_witness :
  sessionId sample_env = "abc"
  /\ array_includes (systemFonts sample_env) "Foo" = false
  /\ reachable sample_env initial
  /\ processFontFamily sample_env (JsString "Foo")
       (run sample_env success_events
          (loadAsync sample_env (ArgName "Foo" (Some (SrcAsset 1))) initial).1)
     = (run sample_env success_events
          (loadAsync sample_env (ArgName "Foo" (Some (SrcAsset 1))) initial).1,
        Normal (JsString "ExpoFont-abc-Foo")).
Proof.
  split; [reflexivity|]. split; [by vm_compute|]. split; [constructor|].
  refine (proj1 (proj2 (proj2 (loaded_font_resolves sample_env initial
            (Some (SrcAsset 1)) success_events eq_refl _
            (reachable_initial sample_env) _)))); by vm_compute.
Defined.

(** C4 as stated fails where "Foo" is also a system font: the load with
    session identifier "abc" succeeds and "Foo" is loaded, yet the resolver
    returns "Foo" itself. *)
Lemma system_font_name_not_prefixed :
  sessionId foo_env = "abc"
  /\ reachable foo_env initial
  /\ pstate_of (run foo_env success_events
                  (loadAsync foo_env (ArgName "Foo" (Some (SrcAsset 1))) initial).1)
               (loadAsync foo_env (ArgName "Foo" (Some (SrcAsset 1))) initial).2
     = Settled Fulfilled
  /\ isLoaded (run foo_env success_events
                 (loadAsync foo_env (ArgName "Foo" (Some (SrcAsset 1))) initial).1)
              "Foo" = Normal true
  /\ (processFontFamily foo_env (JsString "Foo")
        (run foo_env success_events
           (loadAsync foo_env (ArgName "Foo" (Some (SrcAsset 1))) initial).1)).2
     = Normal (JsString "Foo")
  /\ (processFontFamily foo_env (JsString "Foo")
        (run foo_env success_events
           (loadAsync foo_env (ArgName "Foo" (Some (SrcAsset 1))) initial).1)).2
     <> Normal (JsString "ExpoFont-abc-Foo").
Proof.
  split; [reflexivity|]. split; [constructor|].
  split; [by vm_compute|]. split; [by vm_compute|].
  split; [by vm_compute|]. by vm_compute.
Qed.

(** ** The message of a failed download names the font *)

Lemma prefix_append (a b : string) : String.prefix a (a +:+ b) = true.
Proof.
  induction a as [|c a IH]; simpl; [by destruct b|].
  destruct (ascii_dec c c); [done|congruence].
Qed.

Lemma includes_here (a b : string) : includes (a +:+ b) a = true.
Proof.
  destruct (a +:+ b) eqn:Heq; cbn [includes]; rewrite <- Heq, prefix_append; done.
Qed.

Lemma includes_append (a b c : string) :
  includes b c = true -> includes (a +:+ b) c = true.
Proof.
  intros H. induction a as [|x a IH]; [done|].
  change (String x a +:+ b) with (String x (a +:+ b)).
  cbn [includes]. rewrite IH. apply orb_true_r.
Qed.

Lemma downloadFailedMessage_names name :
  includes (downloadFailedMessage name) name = true.
Proof.
  unfold downloadFailedMessage. do 2 apply includes_append. apply includes_here.
Qed.

(** ** Jobs and frames across one resumption *)

Lemma resume_queue_keep E g o st0 j :
  j ∈ queue st0 -> j ∈ queue (resume E g o st0).
Proof.
  intros Hj. destruct j as [f o'].
  destruct (resume_shape E g o st0)
    as [(x & oo & stM & (_ & _ & Hs) & -> & _)|[(_ & _ & Hs)|(_ & _ & Hs)]].
  - apply queue_settle_keep. by rewrite Hs.
  - by rewrite Hs.
  - by rewrite Hs.
Qed.

Lemma frames_all_element a i st : frames (all_element a i st) ≡ₚ frames st.
Proof.
  unfold all_element. destruct (alls st !! a) as [r|]; [|done].
  destruct (called r !! i) as [[|]|]; try done.
  destruct (decide _); [|done]. by rewrite frames_settle.
Qed.

(** A resumption adds no frame but the wait for the native module. *)
Lemma resume_frames E g o st0 f :
  f ∈ frames (resume E g o st0) ->
  f ∈ frames st0 \/ exists nm a t, f = AwaitNative nm a t.
Proof.
  destruct g as [nm asset s|nm asset s|nm p|nm q|nm q|q|a i]; cbn [resume];
    rewrite ?frames_settle; auto.
  - destruct o as [|e]; rewrite ?frames_settle; auto.
    destruct (downloaded _); rewrite ?frames_settle; auto.
    unfold ExpoFontLoader_loadAsync. cbn [new_promise].
    rewrite frames_subscribe. intros [->|H]%elem_of_cons; [right; by eauto|].
    by left.
  - destruct o; auto.
  - destruct o; rewrite ?frames_settle, ?frames_all_element; auto.
Qed.

Lemma wait_queue_disjoint st w f o t :
  Runtime st -> (w, f) ∈ waiting st -> (f, o) ∈ queue st -> target f = Some t ->
  False.
Proof.
  intros HR Hw Hq Ht. pose proof (owners_nodup _ HR) as Hn.
  unfold owners, frames in Hn. rewrite omap_app in Hn.
  apply NoDup_app in Hn as [Hn _]. apply NoDup_app in Hn as (_ & Hn & _).
  apply (Hn t); apply list_elem_of_omap.
  - exists f. split; [|done]. apply list_elem_of_fmap. by exists (w, f).
  - exists f. split; [|done]. apply list_elem_of_fmap. by exists (f, o).
Qed.

Lemma queue_head_unique st g o rest o' t :
  Runtime st -> queue st = (g, o) :: rest -> (g, o') ∈ queue st ->
  target g = Some t -> o' = o.
Proof.
  intros HR Hq Hin Ht. rewrite Hq in Hin.
  apply elem_of_cons in Hin as [[= ->]|Hin]; [done|].
  exfalso. apply (pop_other_target st g o rest HR Hq g t Ht); [|done].
  apply elem_frames. right. by exists o'.
Qed.

Lemma registrations_resume E name g o st0 :
  (forall a t, g <> AwaitDownload name a t) ->
  registrations_of E name (resume E g o st0) = registrations_of E name st0.
Proof.
  intros Hg. unfold registrations_of. rewrite resume_calls.
  destruct g as [nm asset s| | | | | |]; try done.
  destruct o; [|done]. destruct (downloaded _); [|done].
  rewrite filter_app, length_app. rewrite filter_cons_False; [simpl; lia|].
  simpl. intros H%native_name_inj. subst nm. by eapply Hg.
Qed.

(** ** A load whose download failed, until the queue is empty *)

Lemma failing_tick E name p e r0 s :
  failing E name p e r0 s -> failing E name p e r0 (tick E s).
Proof.
  intros (Hr & Hl & Hreg & Hnd & Hent).
  split; [by apply reachable_tick|].
  pose proof (reachable_Inv E s Hr) as [HR HG].
  destruct (queue s) as [|[g o] rest] eqn:Hq; rewrite <- Hq in Hent;
    [rewrite tick_idle by done; by split_and!|].
  unfold tick. rewrite Hq. fold (popped rest s).
  assert (g ∈ frames s) as Hg by (by eapply pop_head_frame).
  assert (forall o', g = AwaitSingle name p ->
            (AwaitSingle name p, o') ∈ queue s -> o' = o) as Huniq.
  { intros o' -> Hin. by eapply queue_head_unique. }
  split; [|split; [|split]].
  - rewrite resume_loaded.
    change (loaded (popped rest s)) with (loaded s).
    destruct g as [| |nm p'| | | |]; try done. destruct o as [|e']; [|done].
    destruct (decide (nm = name)) as [->|Hne]; [|by rewrite lookup_insert_ne].
    exfalso. pose proof (frame_entry _ _ HG _ _ Hg) as Hlk.
    destruct Hent as [(Hlk' & Hin)|(Hlk' & _)]; [|congruence].
    assert (p' = p) as -> by congruence.
    by pose proof (Huniq _ eq_refl Hin).
  - rewrite registrations_resume; [done|].
    intros a t ->. by apply (Hnd a t).
  - intros a t [Hin|(nm & a' & t' & Heq)]%resume_frames; [|done].
    apply (Hnd a t). by eapply pop_frame_in.
  - rewrite resume_loadPromises.
    destruct Hent as [(Hlk & Hin)|(Hlk & Hp)].
    + destruct (decide (g = AwaitSingle name p)) as [->|Hne].
      * right. split; [apply lookup_delete_eq|].
        pose proof (Huniq _ eq_refl Hin) as [= <-]. cbn [resume].
        rewrite settle_promises; [by destruct (decide (p = p))|].
        by eapply (pop_target_pending s (AwaitSingle name p)).
      * left. split.
        -- destruct g as [| |nm p'| | | |]; try done.
           change (loadPromises (popped rest s)) with (loadPromises s).
           rewrite lookup_delete_ne; [done|]. intros ->.
           pose proof (frame_entry _ _ HG _ _ Hg) as Hlk'. congruence.
        -- apply resume_queue_keep. rewrite Hq in Hin.
           apply elem_of_cons in Hin as [[= <- <-]|Hin]; done.
    + right. split; [|by apply resume_settled].
      destruct g as [| |nm p'| | | |]; try done.
      change (loadPromises (popped rest s)) with (loadPromises s).
      destruct (decide (nm = name)) as [->|Hne];
        [apply lookup_delete_eq|by rewrite lookup_delete_ne].
Qed.

Lemma failing_drain E name p e r0 s :
  failing E name p e r0 s ->
  promises (drain E s) !! p = Some (Settled (Rejected e))
  /\ loadPromises (drain E s) !! name = None
  /\ loaded (drain E s) !! name = None
  /\ registrations_of E name (drain E s) = r0.
Proof.
  intros H. pose proof (drain_preserves E (failing E name p e r0) s
                (failing_tick E name p e r0) H)
    as (_ & Hl & Hreg & _ & Hent).
  destruct Hent as [(_ & Hin)|(Hlk & Hp)]; [|done].
  rewrite drain_queue in Hin. by apply not_elem_of_nil in Hin.
Qed.

(** C9: the continuation of [_loadSingleFontAsync] after the download. If
    the asset is not downloaded, the load is rejected with the message
    that names the font, the step calls nothing, and once the queue is
    empty the shared operation of the name is rejected with that error,
    the name is neither in flight nor loaded, and no registration of the
    name has been made. Otherwise the step calls the native module with
    the session-namespaced name and the local URI of the asset, and waits
    for it. *)
Theorem download_outcome_decides E st name asset s rest :
  reachable E st ->
  queue st = (AwaitDownload name asset s, Fulfilled) :: rest ->
  (downloaded (asset_of st asset) = false ->
     pstate_of (tick E st) s
     = Settled (Rejected (Error (downloadFailedMessage name)))
     /\ includes (downloadFailedMessage name) name = true
     /\ calls (tick E st) = calls st
     /\ loaded (tick E st) = loaded st
     /\ exists p, loadPromises st !! name = Some p
        /\ pstate_of (drain E (tick E st)) p
           = Settled (Rejected (Error (downloadFailedMessage name)))
        /\ isLoading (drain E (tick E st)) name = Normal false
        /\ isLoaded (drain E (tick E st)) name = Normal false
        /\ registrations_of E name (drain E (tick E st))
           = registrations_of E name st)
  /\ (downloaded (asset_of st asset) = true ->
     calls (tick E st)
     = calls st ++ [CallNative (_getNativeFontName E name)
                               (localUri (asset_of st asset))
                               (length (promises st))]
     /\ _getNativeFontName E name = sessionId E +:+ "-" +:+ name
     /\ (length (promises st), AwaitNative name asset s) ∈ waiting (tick E st)
     /\ pstate_of (tick E st) s = Pending
     /\ loaded (tick E st) = loaded st).
Proof.
  intros Hr Hq. pose proof (reachable_Inv E st Hr) as [HR HG].
  assert (AwaitDownload name asset s ∈ frames st) as Hf
    by (by eapply pop_head_frame).
  assert (promises st !! s = Some Pending) as Hs
    by (by eapply (pop_target_pending st (AwaitDownload name asset s))).
  unfold tick. rewrite Hq. fold (popped rest st).
  split; intros Hd.
  - assert (resume E (AwaitDownload name asset s) Fulfilled (popped rest st)
            = settle s (Rejected (Error (downloadFailedMessage name)))
                     (popped rest st)) as Heq.
    { cbn [resume]. change (asset_of (popped rest st) asset) with (asset_of st asset).
      by rewrite Hd. }
    rewrite Heq.
    assert (promises (settle s (Rejected (Error (downloadFailedMessage name)))
                             (popped rest st)) !! s
            = Some (Settled (Rejected (Error (downloadFailedMessage name))))) as Hrej.
    { rewrite settle_promises by done. by destruct (decide (s = s)). }
    split; [by apply pstate_of_settled|].
    split; [apply downloadFailedMessage_names|].
    split; [by rewrite calls_settle|]. split; [by rewrite loaded_settle|].
    destruct (single_chain _ _ HG _ name s Hf) as [p Hw]; [by exists asset; left|].
    assert (loadPromises st !! name = Some p) as Hlk.
    { apply (frame_entry _ _ HG). apply elem_frames. left. by exists s. }
    destruct (entry_fresh _ _ HG _ _ Hlk) as [Hnl _].
    exists p. split; [done|].
    assert (reachable E (settle s (Rejected (Error (downloadFailedMessage name)))
                                (popped rest st))) as Hr'.
    { pose proof (reachable_tick E st Hr) as H. unfold tick in H.
      rewrite Hq in H. fold (popped rest st) in H. by rewrite Heq in H. }
    pose proof (reachable_Inv E _ Hr') as HI'.
    assert ((AwaitSingle name p, Rejected (Error (downloadFailedMessage name)))
              ∈ queue (settle s (Rejected (Error (downloadFailedMessage name)))
                              (popped rest st))) as Hjob.
    { apply settle_queue; [done|]. right. done. }
    assert (loadPromises (settle s (Rejected (Error (downloadFailedMessage name)))
                                 (popped rest st)) !! name = Some p) as Hlk'
      by (by rewrite loadPromises_settle).
    destruct (failing_drain E name p (Error (downloadFailedMessage name))
                (registrations_of E name st)
                (settle s (Rejected (Error (downloadFailedMessage name)))
                        (popped rest st))) as (H1 & H2 & H3 & H4).
    { split; [done|]. split; [by rewrite loaded_settle|].
      split; [unfold registrations_of; by rewrite calls_settle|].
      split; [|by left].
      intros a t Hin.
      destruct (single_chain _ _ (proj2 HI') _ name t Hin) as [p' Hw'];
        [by exists a; left|].
      assert (p' = p) as ->.
      { assert (loadPromises (settle s (Rejected (Error (downloadFailedMessage name)))
                                     (popped rest st)) !! name = Some p') as Hx.
        { apply (frame_entry _ _ (proj2 HI')). apply elem_frames. left. by exists t. }
        congruence. }
      by eapply (wait_queue_disjoint _ t (AwaitSingle name p) _ p (proj1 HI')). }
    pose proof (reachable_Inv E _ (reachable_drain E _ Hr')) as HId.
    split; [by apply pstate_of_settled|].
    split; [by apply (isLoading_false E)|].
    split; [by apply (isLoaded_false E)|done].
  - assert (resume E (AwaitDownload name asset s) Fulfilled (popped rest st)
            = subscribe (length (promises st)) (AwaitNative name asset s)
                (ExpoFontLoader_loadAsync (_getNativeFontName E name)
                   (localUri (asset_of st asset)) (popped rest st)).1) as Heq.
    { cbn [resume]. change (asset_of (popped rest st) asset) with (asset_of st asset).
      by rewrite Hd. }
    split.
    { rewrite resume_calls.
      change (asset_of (popped rest st) asset) with (asset_of st asset).
      by rewrite Hd. }
    split; [done|]. rewrite Heq.
    unfold ExpoFontLoader_loadAsync. cbn [new_promise fst].
    rewrite subscribe_pending.
    + st_simpl. split; [apply elem_of_app; right; by apply list_elem_of_singleton|].
      split; [|done]. unfold pstate_of. st_simpl.
      by rewrite (lookup_app_l_Some _ _ _ _ Hs).
    + unfold pstate_of. st_simpl. by rewrite lookup_app_r, Nat.sub_diag.
Qed.

(** ** Reactions of a [Promise.all] across later calls *)

Lemma keeps_all_refl st : keeps_all st st.
Proof. split; auto. Qed.

Lemma keeps_all_trans st1 st2 st3 :
  length (promises st1) <= length (promises st2) ->
  keeps_all st1 st2 -> keeps_all st2 st3 -> keeps_all st1 st3.
Proof.
  intros Hl [W1 Q1] [W2 Q2]. split.
  - intros w a i [H|H]%W2; [auto|right; lia].
  - intros a i o [H|H]%Q2; [auto|right; lia].
Qed.

Lemma keeps_all_fields b st st' :
  keeps_all b st -> waiting st' = waiting st -> queue st' = queue st ->
  keeps_all b st'.
Proof. intros [W Q] Hw Hq. split; rewrite ?Hw, ?Hq; auto. Qed.

Lemma keeps_all_subscribe b st w f :
  keeps_all b st ->
  (forall a i, f = AllElem a i -> length (promises b) <= a) ->
  keeps_all b (subscribe w f st).
Proof.
  intros [W Q] Hf. split.
  - intros w' a i [H|(_ & H & _)]%subscribe_waiting; [auto|].
    right. by eapply Hf.
  - intros a i o [H|(H & _)]%subscribe_queue; [auto|].
    right. by eapply Hf.
Qed.

Lemma settle_unwaited x o st :
  (forall f, (x, f) ∉ waiting st) ->
  waiting (settle x o st) = waiting st /\ queue (settle x o st) = queue st.
Proof.
  intros Hx. unfold settle. destruct (promises st !! x) as [[|v]|]; try done.
  st_simpl. split.
  - apply filter_all. intros [w f] Hin Heq. simpl in Heq. subst w. by apply (Hx f).
  - rewrite filter_none; [by rewrite app_nil_r|].
    intros [w f] Hin Heq. simpl in Heq. subst w. by apply (Hx f).
Qed.

Lemma fresh_unwaited st x f :
  Runtime st -> length (promises st) <= x -> (x, f) ∉ waiting st.
Proof.
  intros HR Hx Hin. pose proof (wait_pending _ HR _ _ Hin) as Hp.
  apply lookup_lt_Some in Hp. lia.
Qed.

Lemma keeps_all_name E name src st :
  Inv E st -> keeps_all st (loadAsync_name_result E name src st).
Proof.
  intros HI. unfold loadAsync_name_result.
  assert (forall o, keeps_all st (settle (length (promises st)) o (new_promise st).1))
    as Hfresh.
  { intros o. rewrite settle_fresh_state by apply HI.
    by apply (keeps_all_fields st st); [apply keeps_all_refl| |]. }
  destruct (truthy_flag _); [apply Hfresh|].
  destruct (get_property (loadPromises st) name) as [p| |]; [|apply Hfresh|].
  - apply keeps_all_subscribe; [|done].
    by apply (keeps_all_fields st st); [apply keeps_all_refl| |].
  - destruct (invariant _ _); [|apply Hfresh].
    destruct (_getAssetForSource E src); [|apply Hfresh].
    unfold started. split; st_simpl.
    + intros w a' i [H|H]%elem_of_app; [by left|].
      repeat (apply elem_of_cons in H as [H|H]; [done|]).
      by apply not_elem_of_nil in H.
    + auto.
Qed.

Lemma keeps_all_each E {A} (f : A -> state -> state * pid) l st :
  (forall x, call_ok E (f x)) ->
  (forall x st, Inv E st -> keeps_all st (f x st).1) ->
  Inv E st -> keeps_all st (call_each f l st).1.
Proof.
  intros Hok Hf. revert st. induction l as [|x l IH]; intros st HI.
  - apply keeps_all_refl.
  - cbn [call_each]. destruct (Hok x st HI) as (H1 & G1 & _).
    pose proof (Hf x st HI) as K1.
    destruct (f x st) as [st1 q]. cbn [fst snd] in *.
    pose proof (IH st1 H1) as K2.
    destruct (call_each f l st1) as [st2 qs]. cbn [fst snd] in *.
    eapply keeps_all_trans; [|done|done]. apply G1.
Qed.

Lemma keeps_all_subscribe_all b a elems : forall i st,
  keeps_all b st -> length (promises b) <= a ->
  keeps_all b (subscribe_all a i elems st).
Proof.
  induction elems as [|e elems IH]; intros i st K Ha; [done|].
  cbn [subscribe_all]. apply IH; [|done].
  apply keeps_all_subscribe; [done|]. by intros a' i' [= <- <-].
Qed.

Lemma keeps_all_Promise_all E elems st :
  Inv E st -> keeps_all st (Promise_all elems st).1.
Proof.
  intros HI. unfold Promise_all. cbn [new_promise fst snd].
  set (st1 := set_alls _ _).
  assert (keeps_all st (subscribe_all (length (promises st)) 0 elems st1)) as K.
  { apply keeps_all_subscribe_all; [|done].
    by apply (keeps_all_fields st st); [apply keeps_all_refl| |]. }
  destruct elems as [|e0 elems]; [|done].
  cbn [subscribe_all] in *.
  destruct (settle_unwaited (length (promises st)) Fulfilled st1) as [Hw Hq].
  { intros f. apply (fresh_unwaited st); [apply HI|done]. }
  by apply (keeps_all_fields st st1).
Qed.

Lemma keeps_all_fan_out E {A} (f : A -> state -> state * pid) l st0 q :
  (forall x, call_ok E (f x)) ->
  (forall x st, Inv E st -> keeps_all st (f x st).1) ->
  Inv E st0 -> keeps_all st0 (fan_out f l st0 q).1.
Proof.
  intros Hok Hf HI. unfold fan_out.
  pose proof (keeps_all_each E f l st0 Hok Hf HI) as K1.
  destruct (call_each_ok E f l st0 Hok HI) as (H1 & G1 & _).
  destruct (call_each f l st0) as [st1 qs]. cbn [fst snd] in *.
  pose proof (keeps_all_Promise_all E qs st1 H1) as K2.
  destruct (Promise_all qs st1) as [st2 a]. cbn [fst snd] in *.
  apply keeps_all_subscribe; [|done].
  eapply keeps_all_trans; [|done|done]. apply G1.
Qed.

Lemma keeps_all_map E m st : Inv E st -> keeps_all st (loadAsync_map E m st).1.
Proof.
  intros HI. rewrite loadAsync_map_eq.
  eapply keeps_all_trans; [| |apply (keeps_all_fan_out E)].
  - st_simpl. rewrite length_app. lia.
  - by apply (keeps_all_fields st st); [apply keeps_all_refl| |].
  - intros nm. apply loadAsync_name_ok.
  - intros nm st' HI'. rewrite loadAsync_name_eq. by apply keeps_all_name.
  - by apply Inv_new_promise.
Qed.

Lemma keeps_all_array E ms st : Inv E st -> keeps_all st (loadAsync_array E ms st).1.
Proof.
  intros HI. rewrite loadAsync_array_eq.
  eapply keeps_all_trans; [| |apply (keeps_all_fan_out E)].
  - st_simpl. rewrite length_app. lia.
  - by apply (keeps_all_fields st st); [apply keeps_all_refl| |].
  - apply loadAsync_map_ok.
  - intros m st' HI'. by apply keeps_all_map.
  - apply Inv_console. by apply Inv_new_promise.
Qed.

Lemma keeps_all_loadAsync E arg st :
  Inv E st -> keeps_all st (loadAsync E arg st).1.
Proof.
  intros HI. destruct arg as [name src|m|ms]; cbn [loadAsync].
  - rewrite loadAsync_name_eq. by apply keeps_all_name.
  - by apply keeps_all_map.
  - by apply keeps_all_array.
Qed.

(** ** The elements of a [Promise.all] *)

Section Gathers.

Variables (a : pid) (qs : list pid) (extra : list (frame * outcome)).

Lemma gathers_with_step st st' :
  (forall y v, promises st !! y = Some (Settled v) ->
               promises st' !! y = Some (Settled v)) ->
  is_Some (promises st' !! a) ->
  alls st' !! a = alls st !! a ->
  (forall q i, promises st !! q = Some Pending -> (q, AllElem a i) ∈ waiting st ->
     (promises st' !! q = Some Pending /\ (q, AllElem a i) ∈ waiting st')
     \/ (exists o, promises st' !! q = Some (Settled o)
                   /\ (AllElem a i, o) ∈ queue st')) ->
  (forall i o, (AllElem a i, o) ∈ queue st -> (AllElem a i, o) ∈ queue st') ->
  (forall w i, (w, AllElem a i) ∈ waiting st' -> (w, AllElem a i) ∈ waiting st) ->
  (forall i o, (AllElem a i, o) ∈ queue st' ->
     (AllElem a i, o) ∈ queue st
     \/ ((exists w, (w, AllElem a i) ∈ waiting st)
         /\ forall w, (w, AllElem a i) ∈ waiting st ->
                      promises st' !! w = Some (Settled o))) ->
  (forall e, promises st' !! a = Some (Settled (Rejected e)) ->
     promises st !! a = Some (Settled (Rejected e))
     \/ exists i q, qs !! i = Some q
                    /\ promises st' !! q = Some (Settled (Rejected e))) ->
  gathers_with extra st a qs -> gathers_with extra st' a qs.
Proof.
  intros Hp Hall Hal Hpend Hq Hw' Hq' Ha [G1 (r & Hr & G2) G3 G4 G5].
  assert (forall i o, (AllElem a i, o) ∈ extra ++ queue st ->
                      (AllElem a i, o) ∈ extra ++ queue st') as Hjobs.
  { intros i o [H|H]%elem_of_app; apply elem_of_app; auto. }
  split.
  - done.
  - exists r. split; [by rewrite Hal|]. intros i q Hi.
    destruct (G2 i q Hi) as [(Hc & Hf)|(Hc & [(H1 & H2)|[(o & H1 & H2)|(e & e' & H1 & H2)]])].
    + left. auto.
    + right. split; [done|].
      destruct (Hpend q i H1 H2) as [(H3 & H4)|(o & H3 & H4)]; [by left|].
      right. left. exists o. split; [done|]. apply elem_of_app. by right.
    + right. split; [done|]. right. left. exists o. auto.
    + right. split; [done|]. right. right. exists e, e'. auto.
  - intros w i H. by apply G3, Hw'.
  - intros i o [H|H]%elem_of_app.
    + destruct (G4 i o) as (q & H1 & H2); [apply elem_of_app; by left|].
      exists q. auto.
    + destruct (Hq' i o H) as [H0|([w Hw] & Hall')].
      * destruct (G4 i o) as (q & H1 & H2); [apply elem_of_app; by right|].
        exists q. auto.
      * exists w. split; [by apply G3|by apply Hall'].
  - intros e He. destruct (Ha e He) as [H|H]; [|done].
    destruct (G5 e H) as (i & q & H1 & H2). exists i, q. auto.
Qed.

Lemma gathers_with_fields st st' :
  (forall y v, promises st !! y = Some v -> promises st' !! y = Some v) ->
  (forall y v, promises st' !! y = Some (Settled v) ->
               promises st !! y = Some (Settled v)) ->
  waiting st' = waiting st -> queue st' = queue st ->
  alls st' !! a = alls st !! a ->
  gathers_with extra st a qs -> gathers_with extra st' a qs.
Proof.
  intros Hp Hp' Hw Hq Hal HG. apply (gathers_with_step st st'); try done.
  - auto.
  - destruct (gathers_alloc _ _ _ _ HG) as [v Hv]. exists v. auto.
  - intros q i H1 H2. left. rewrite Hw. auto.
  - intros i o. by rewrite Hq.
  - intros w i. by rewrite Hw.
  - intros i o. rewrite Hq. auto.
  - intros e He. left. auto.
Qed.

Lemma gathers_with_subscribe w f st :
  (forall i, f <> AllElem a i) ->
  gathers_with extra st a qs -> gathers_with extra (subscribe w f st) a qs.
Proof.
  intros Hf HG.
  destruct (subscribe_fields w f st) as (_ & _ & Hp & Hal & _).
  apply (gathers_with_step st (subscribe w f st)); rewrite ?Hp, ?Hal; try done.
  - apply (gathers_alloc _ _ _ _ HG).
  - intros q i H1 H2. left. split; [done|]. apply subscribe_waiting. by left.
  - intros i o H. apply subscribe_queue. by left.
  - intros w' i [H|(_ & H & _)]%subscribe_waiting; [done|]. by destruct (Hf i).
  - intros i o [H|(H & _)]%subscribe_queue; [by left|]. by destruct (Hf i).
  - intros e He. by left.
Qed.

Lemma gathers_with_settle x o st :
  (x = a -> forall e, o = Rejected e ->
     exists i q, qs !! i = Some q
                 /\ promises st !! q = Some (Settled (Rejected e))) ->
  gathers_with extra st a qs -> gathers_with extra (settle x o st) a qs.
Proof.
  intros Hx HG.
  destruct (decide (promises st !! x = Some Pending)) as [Hpx|Hpx];
    [|by rewrite settle_idle].
  apply (gathers_with_step st (settle x o st)); try done.
  - intros y v. apply promises_settle_kept.
  - apply lookup_lt_is_Some. rewrite length_settle. apply lookup_lt_is_Some.
    apply (gathers_alloc _ _ _ _ HG).
  - by destruct (settle_fields x o st) as (_ & _ & -> & _).
  - intros q i H1 H2. destruct (decide (q = x)) as [->|Hne].
    + right. exists o. split.
      * rewrite settle_promises by done. by destruct (decide (x = x)).
      * apply settle_queue; [done|]. by right.
    + left. split; [by rewrite promises_settle_other|].
      by apply waiting_settle_keep.
  - intros i o' H. by apply queue_settle_keep.
  - intros w i H. by apply waiting_settle_sub in H as [? _].
  - intros i o' [H|(-> & H1 & H2 & H3)]%queue_settle_cases; [by left|].
    right. split; [by exists x|]. intros w Hw.
    pose proof (gathers_waiting _ _ _ _ HG _ _ H1) as E1.
    pose proof (gathers_waiting _ _ _ _ HG _ _ Hw) as E2.
    assert (w = x) as -> by congruence. done.
  - intros e He. destruct (decide (x = a)) as [->|Hne].
    + rewrite settle_promises in He by done.
      destruct (decide (a = a)); [|done]. injection He as ->.
      destruct (Hx eq_refl e eq_refl) as (i & q & H1 & H2).
      right. exists i, q. split; [done|]. by apply promises_settle_kept.
    + left. by rewrite promises_settle_other in He.
Qed.

(** Marking element [i] as done, as its reaction does. *)
Lemma gathers_with_mark st r i q :
  alls st !! a = Some r -> called r !! i = Some false -> qs !! i = Some q ->
  promises st !! q = Some (Settled Fulfilled) ->
  gathers_with extra st a qs ->
  gathers_with extra
    (set_alls (fun m => <[a := {| remaining := remaining r - 1;
                                  called := <[i := true]> (called r) |}]> m) st)
    a qs.
Proof.
  intros Hr Hc Hi Hq [G1 (r0 & Hr0 & G2) G3 G4 G5].
  assert (r0 = r) as -> by congruence.
  split; st_simpl; try done.
  eexists. split; [apply lookup_insert_eq|]. cbn [called].
  intros j q' Hj. destruct (decide (j = i)) as [->|Hne].
  - left. assert (q' = q) as -> by congruence. split; [|exact Hq].
    apply list_lookup_insert_eq. by eapply lookup_lt_Some.
  - rewrite list_lookup_insert_ne by done. by apply G2.
Qed.

(** Once the job being run has had its effect it can be forgotten. *)
Lemma gathers_with_drop g o st :
  (forall i r q, g = AllElem a i -> alls st !! a = Some r -> qs !! i = Some q ->
     promises st !! q = Some (Settled o) -> called r !! i = Some false ->
     exists e e', o = Rejected e
                  /\ promises st !! a = Some (Settled (Rejected e'))) ->
  gathers_with [(g, o)] st a qs -> gathers st a qs.
Proof.
  intros Hg [G1 (r & Hr & G2) G3 G4 G5]. split; try done.
  - exists r. split; [done|]. intros i q Hi.
    destruct (G2 i q Hi) as [H|(Hc & [H|[(o' & H1 & H2)|H]])].
    + by left.
    + right. split; [done|]. by left.
    + right. split; [done|]. cbn [app] in *.
      apply elem_of_cons in H2 as [[= <- <-]|H2].
      * destruct (Hg i r q eq_refl Hr Hi H1 Hc) as (e & e' & -> & Ha).
        right. right. by exists e, e'.
      * right. left. by exists o'.
    + right. split; [done|]. by right; right.
  - intros i o' H. apply G4. cbn [app] in *. apply elem_of_cons. by right.
Qed.

End Gathers.

Lemma count_false_pos (l : list bool) i :
  l !! i = Some false -> 0 < count_false l.
Proof.
  intros H. unfold count_false.
  assert (false ∈ filter (fun b => b = false) l) as Hin.
  { apply list_elem_of_filter. split; [done|]. by eapply list_elem_of_lookup_2. }
  destruct (filter _ l); [by apply not_elem_of_nil in Hin|simpl; lia].
Qed.

Lemma all_element_called a i st r0 r :
  alls st !! a = Some r0 -> alls (all_element a i st) !! a = Some r ->
  called r !! i <> Some false.
Proof.
  unfold all_element. intros Hr0. rewrite Hr0.
  destruct (called r0 !! i) as [[|]|] eqn:Hc.
  - intros Hr. assert (r = r0) as -> by congruence. congruence.
  - assert (alls (set_alls (fun m => <[a := {| remaining := remaining r0 - 1;
                called := <[i := true]> (called r0) |}]> m) st) !! a
            = Some {| remaining := remaining r0 - 1;
                      called := <[i := true]> (called r0) |}) as Hins
      by (st_simpl; apply lookup_insert_eq).
    destruct (decide _).
    + destruct (settle_fields a Fulfilled (set_alls (fun m => <[a := {| remaining := remaining r0 - 1;
                called := <[i := true]> (called r0) |}]> m) st)) as (_ & _ & -> & _).
      rewrite Hins. intros [= <-]. cbn [called].
      rewrite list_lookup_insert_eq by (by eapply lookup_lt_Some). done.
    + rewrite Hins. intros [= <-]. cbn [called].
      rewrite list_lookup_insert_eq by (by eapply lookup_lt_Some). done.
  - intros Hr. assert (r = r0) as -> by congruence. congruence.
Qed.

Section GathersEvents.

Variables (E : Env) (a : pid) (qs : list pid).

Lemma gathers_free st :
  Runtime st -> gathers st a qs -> a ∉ owners st.
Proof.
  intros HR [_ (r & Hr & _) _ _ _]. apply (all_disjoint _ HR). by rewrite Hr.
Qed.

Lemma gathers_tick st : Inv E st -> gathers st a qs -> gathers (tick E st) a qs.
Proof.
  intros [HR HI] HG. unfold tick.
  destruct (queue st) as [|[g o] rest] eqn:Hq; [done|]. fold (popped rest st).
  pose proof (gathers_free st HR HG) as Hfree.
  assert (forall t, target g = Some t -> t <> a) as Hta.
  { intros t Ht ->. apply Hfree. apply (target_owner st g a); [|done].
    by eapply pop_head_frame. }
  assert (gathers_with [(g, o)] (popped rest st) a qs) as HP.
  { destruct HG as [G1 G2 G3 G4 G5]. cbn [app] in *. rewrite Hq in *.
    split; st_simpl; try done. }
  assert (forall t o', target g = Some t ->
            gathers_with [(g, o)] (settle t o' (popped rest st)) a qs) as Hset.
  { intros t o' Ht. apply gathers_with_settle; [|done].
    intros ->. by destruct (Hta a Ht). }
  destruct (gathers_elems _ _ _ _ HP) as (r0 & Hr0 & _).
  apply (gathers_with_drop a qs g o).
  - intros i r q -> Hr Hi Hqo Hc. destruct o as [|e]; cbn [resume] in *.
    + by destruct (all_element_called a i _ r0 r Hr0 Hr).
    + exists e. destruct (settle_fields a (Rejected e) (popped rest st))
        as (_ & _ & Hal & _). rewrite Hal in Hr.
      destruct (gathers_alloc _ _ _ _ HP) as [[|[|e']] Hv].
      * exists e. split; [done|].
        rewrite settle_promises by done. by destruct (decide (a = a)).
      * exfalso. destruct (all_count _ HR a r Hr) as [H1 H2].
        specialize (H2 Hv). pose proof (count_false_pos _ _ Hc). lia.
      * exists e'. split; [done|]. by apply promises_settle_kept.
  - destruct g as [nm asset s|nm asset s|nm p|nm q|nm q|q|a' i]; cbn [resume];
      try (by apply Hset).
    + destruct o as [|e]; [|by apply Hset].
      destruct (downloaded _); [|by apply Hset].
      unfold ExpoFontLoader_loadAsync. cbn [new_promise fst].
      apply gathers_with_subscribe; [done|].
      apply (gathers_with_fields a qs _ (popped rest st)); st_simpl; try done.
      * intros y v Hy. by apply lookup_app_l_Some.
      * intros y v [Hy|[_ Hy]]%lookup_app_Some; [done|].
        by destruct (y - _) as [|[|?]].
    + apply gathers_with_settle; [intros ->; by destruct (Hta a eq_refl)|].
      apply (gathers_with_fields a qs _ (popped rest st)); try done;
        by destruct o.
    + destruct (decide (a' = a)) as [->|Hne].
      * destruct (gathers_queue _ _ _ _ HP i o) as (q & Hi & Hqo);
          [apply elem_of_app; left; by apply list_elem_of_singleton|].
        destruct o as [|e].
        -- unfold all_element. rewrite Hr0.
           destruct (called r0 !! i) as [[|]|] eqn:Hc; try done.
           pose proof (gathers_with_mark a qs _ _ r0 i q Hr0 Hc Hi Hqo HP) as HM.
           destruct (decide _); [|done].
           apply gathers_with_settle; [|done]. by intros _ e0 [=].
        -- apply gathers_with_settle; [|done].
           intros _ e' [= <-]. by exists i, q.
      * assert (forall o', gathers_with [(AllElem a' i, o)]
                  (settle a' o' (popped rest st)) a qs) as Hset'.
        { intros o'. apply gathers_with_settle; [by intros ->|done]. }
        destruct o as [|e]; [|apply Hset'].
        unfold all_element. destruct (alls _ !! a') as [r'|]; [|done].
        destruct (called r' !! i) as [[|]|]; try done.
        assert (gathers_with [(AllElem a' i, Fulfilled)]
                  (set_alls (fun m => <[a' := {| remaining := remaining r' - 1;
                      called := <[i := true]> (called r') |}]> m)
                     (popped rest st)) a qs) as HM.
        { apply (gathers_with_fields a qs _ (popped rest st)); try done.
          st_simpl. by apply lookup_insert_ne. }
        destruct (decide _); [|done].
        apply gathers_with_settle; [by intros ->|done].
Qed.

Lemma gathers_call st st' :
  grows st st' -> keeps_all st st' -> gathers st a qs -> gathers st' a qs.
Proof.
  intros G K HG. pose proof (gathers_alloc _ _ _ _ HG) as Ha.
  apply lookup_lt_is_Some in Ha.
  assert (forall y v, promises st !! y = Some v -> promises st' !! y = Some v) as Hk.
  { intros y v Hy. rewrite (grows_promises _ _ G); [done|]. by eapply lookup_lt_Some. }
  apply (gathers_with_step a qs [] st st'); try done.
  - auto.
  - apply lookup_lt_is_Some. pose proof (grows_length _ _ G). lia.
  - by apply (grows_alls _ _ G).
  - intros q i H1 H2. left. split; [auto|]. by apply (grows_waiting _ _ G).
  - intros i o. apply (grows_queue _ _ G).
  - intros w i [H|H]%(keeps_waiting _ _ K); [done|lia].
  - intros i o [H|H]%(keeps_queue _ _ K); [by left|lia].
  - intros e He. left. by rewrite (grows_promises _ _ G) in He.
Qed.

Lemma gathers_event ev st :
  Inv E st -> gathers st a qs -> gathers (apply_event E ev st) a qs.
Proof.
  intros HI HG. destruct ev as [arg|nm| |d o|x fields]; cbn [apply_event].
  - destruct (loadAsync_ok E arg st HI) as (_ & G & _).
    apply (gathers_call st); [done| |done]. by apply keeps_all_loadAsync.
  - destruct (processFontFamily_fields E nm st)
      as (_ & _ & H1 & H2 & H3 & H4 & _).
    apply (gathers_with_fields a qs [] st); rewrite ?H1, ?H4; done.
  - by apply gathers_tick.
  - unfold is_external. case_bool_decide as Hd; [|done].
    apply gathers_with_settle; [|done]. intros ->.
    destruct (gathers_free st (proj1 HI) HG). by apply ext_owner.
  - by apply (gathers_with_fields a qs [] st).
Qed.

Lemma gathers_run evs : forall st,
  reachable E st -> gathers st a qs -> gathers (run E evs st) a qs.
Proof.
  induction evs as [|ev evs IH]; intros st Hr HG; [done|].
  change (run E (ev :: evs) st) with (run E evs (apply_event E ev st)).
  apply IH; [by constructor|]. apply gathers_event; [by apply reachable_Inv|done].
Qed.

Lemma gathers_drain st :
  reachable E st -> gathers st a qs -> gathers (drain E st) a qs.
Proof.
  intros Hr HG.
  apply (drain_preserves E (fun s => reachable E s /\ gathers s a qs) st); [|done].
  intros s [Hs Hg]. split; [by apply reachable_tick|].
  apply gathers_tick; [by apply reachable_Inv|done].
Qed.

End GathersEvents.

(** ** What [Promise.all] sets up *)

Lemma subscribe_all_spec a elems : forall k st,
  (forall e, e ∈ elems -> e < length (promises st)) ->
  promises (subscribe_all a k elems st) = promises st
  /\ alls (subscribe_all a k elems st) = alls st
  /\ (forall w f, (w, f) ∈ waiting (subscribe_all a k elems st) <->
        (w, f) ∈ waiting st
        \/ exists j, elems !! j = Some w /\ f = AllElem a (k + j)
                     /\ promises st !! w = Some Pending)
  /\ (forall f o, (f, o) ∈ queue (subscribe_all a k elems st) <->
        (f, o) ∈ queue st
        \/ exists j w, elems !! j = Some w /\ f = AllElem a (k + j)
                       /\ promises st !! w = Some (Settled o)).
Proof.
  induction elems as [|e elems IH]; intros k st He.
  - cbn [subscribe_all]. split; [done|]. split; [done|]. split.
    + intros w f. split; [by left|]. by intros [?|(j & ? & _)].
    + intros f o. split; [by left|]. by intros [?|(j & w & ? & _)].
  - cbn [subscribe_all].
    destruct (subscribe_fields e (AllElem a k) st) as (_ & _ & Hp & Hal & _).
    destruct (IH (S k) (subscribe e (AllElem a k) st)) as (H1 & H2 & H3 & H4).
    { intros e' He'. rewrite Hp. apply He, elem_of_cons. by right. }
    assert (is_Some (promises st !! e)) as [v Hv].
    { apply lookup_lt_is_Some, He, elem_of_cons. by left. }
    split; [by rewrite H1|]. split; [by rewrite H2|]. split.
    + intros w f. rewrite H3, subscribe_waiting, Hp. split.
      * intros [[H|(-> & -> & H)]|(j & Hj & -> & H)].
        -- by left.
        -- right. exists 0. rewrite Nat.add_0_r. split; [done|]. split; [done|].
           unfold pstate_of in H. rewrite Hv in *. simpl in H. by subst v.
        -- right. exists (S j). split; [done|]. split; [f_equal; lia|done].
      * intros [H|([|j] & Hj & -> & H)].
        -- by left; left.
        -- left. right. cbn in Hj. injection Hj as ->. rewrite Nat.add_0_r.
           split; [done|]. split; [done|]. unfold pstate_of. by rewrite H.
        -- right. exists j. split; [done|]. split; [f_equal; lia|done].
    + intros f o. rewrite H4, subscribe_queue, Hp. split.
      * intros [[H|(-> & H)]|(j & w & Hj & -> & H)].
        -- by left.
        -- right. exists 0, e. rewrite Nat.add_0_r. split; [done|]. split; [done|].
           unfold pstate_of in H. rewrite Hv in *. simpl in H. by subst v.
        -- right. exists (S j), w. split; [done|]. split; [f_equal; lia|done].
      * intros [H|([|j] & w & Hj & -> & H)].
        -- by left; left.
        -- left. right. cbn in Hj. injection Hj as ->. rewrite Nat.add_0_r.
           split; [done|]. unfold pstate_of. by rewrite H.
        -- right. exists j, w. split; [done|]. split; [f_equal; lia|done].
Qed.

Lemma gathers_Promise_all E elems st :
  Inv E st -> (forall e, e ∈ elems -> e < length (promises st)) ->
  gathers (Promise_all elems st).1 (length (promises st)) elems.
Proof.
  intros [HR HI] He. unfold Promise_all. cbn [new_promise fst snd].
  set (a := length (promises st)).
  set (r := {| remaining := length elems; called := replicate (length elems) false |}).
  set (st1 := set_alls (fun m => <[a := r]> m)
                       (set_promises (fun ps => ps ++ [Pending]) st)).
  destruct (subscribe_all_spec a elems 0 st1) as (Hp & Hal & Hw & Hq).
  { intros e Hin. unfold st1. st_simpl. rewrite length_app. specialize (He e Hin). lia. }
  assert (promises st1 !! a = Some Pending) as Ha.
  { unfold st1. st_simpl. by rewrite lookup_app_r, Nat.sub_diag. }
  assert (forall i, AllElem a i ∉ frames st) as Hnone.
  { intros i Hin. pose proof (all_bound _ HR a (all_known _ HR a i Hin)).
    unfold a in *. lia. }
  assert (forall y v, promises st1 !! y = Some (Settled v) ->
                      promises st !! y = Some (Settled v)) as Hback.
  { unfold st1. st_simpl. intros y v [Hy|[_ Hy]]%lookup_app_Some; [done|].
    by destruct (y - _) as [|[|?]]. }
  assert (gathers (subscribe_all a 0 elems st1) a elems) as HG.
  { split.
    - rewrite Hp, Ha. by eexists.
    - exists r. split; [rewrite Hal; unfold st1; st_simpl; apply lookup_insert_eq|].
      intros i q Hi. right. split.
      { cbn [called r]. apply lookup_replicate_2. by eapply lookup_lt_Some. }
      assert (is_Some (promises st1 !! q)) as [[|o] Hv].
      { apply lookup_lt_is_Some. unfold st1. st_simpl. rewrite length_app.
        pose proof (He q (list_elem_of_lookup_2 _ _ _ Hi)). lia. }
      + left. rewrite Hp. split; [done|]. apply Hw. right. by exists i.
      + right. left. exists o. rewrite Hp. split; [done|]. cbn [app].
        apply Hq. right. by exists i, q.
    - intros w i [H|(j & Hj & [= ->] & _)]%Hw; [|done].
      destruct (Hnone i). apply elem_frames. left. by exists w.
    - intros i o [H|(j & w & Hj & [= ->] & H)]%Hq.
      + destruct (Hnone i). apply elem_frames. right. by exists o.
      + exists w. by rewrite Hp.
    - intros e. rewrite Hp, Ha. done. }
  destruct elems as [|e0 elems']; [|done].
  apply gathers_with_settle; [|done]. by intros _ e [=].
Qed.

Lemma call_each_length {A} (f : A -> state -> state * pid) l : forall st,
  length (call_each f l st).2 = length l.
Proof.
  induction l as [|x l IH]; intros st; [done|]. cbn [call_each].
  destruct (f x st) as [st1 q]. specialize (IH st1).
  destruct (call_each f l st1) as [st2 qs]. simpl in *. by rewrite IH.
Qed.

Lemma map_elements_length E m st : length (map_elements E m st) = length m.
Proof. unfold map_elements. by rewrite call_each_length, length_map. Qed.

Lemma gathers_map E m st :
  Inv E st ->
  gathers (loadAsync_map E m st).1 (map_all E m st) (map_elements E m st).
Proof.
  intros HI. rewrite loadAsync_map_eq. unfold fan_out, map_all, map_elements.
  destruct (call_each_ok E (fun name => loadAsync_name E name (object_get m name))
              (map fst m) (new_promise st).1) as (H1 & G1 & A1).
  { intros name. apply loadAsync_name_ok. }
  { by apply Inv_new_promise. }
  destruct (call_each _ _ _) as [st1 qs]. cbn [fst snd] in *.
  pose proof (gathers_Promise_all E qs st1 H1 A1) as HG.
  destruct (Promise_all qs st1) as [st2 a]. cbn [fst snd] in *.
  by apply gathers_with_subscribe.
Qed.

Lemma follows_map E m st :
  Inv E st ->
  follows (loadAsync_map E m st).1 (length (promises st)) (map_all E m st).
Proof.
  intros HI. rewrite loadAsync_map_eq. unfold fan_out, map_all.
  destruct (call_each_ok E (fun name => loadAsync_name E name (object_get m name))
              (map fst m) (new_promise st).1) as (H1 & G1 & A1).
  { intros name. apply loadAsync_name_ok. }
  { by apply Inv_new_promise. }
  destruct (call_each _ _ _) as [st1 qs]. cbn [fst snd] in *.
  destruct (Promise_all_ok E qs st1 H1 A1) as (H2 & G2 & Ea & L2).
  destruct (Promise_all qs st1) as [st2 a]. cbn [fst snd] in *. subst a.
  set (a := length (promises st1)) in *. set (q := length (promises st)).
  assert (promises st2 !! q = Some Pending) as Hq.
  { pose proof (grows_trans _ _ _ G1 G2) as G.
    rewrite (grows_promises _ _ G); st_simpl.
    - by rewrite lookup_app_r, Nat.sub_diag.
    - rewrite length_app. simpl. unfold q. lia. }
  destruct (subscribe_fields a (AwaitAll q) st2) as (_ & _ & Hp & _).
  assert (is_Some (promises st2 !! a)) as [v Hv].
  { apply lookup_lt_is_Some. unfold a. lia. }
  exists (AwaitAll q). split; [done|]. split; [done|]. rewrite Hp.
  destruct v as [|o].
  - left. split; [done|]. split; [done|]. apply subscribe_waiting. right.
    split; [done|]. split; [done|]. unfold pstate_of. by rewrite Hv.
  - right. left. exists o. split; [done|]. split; [done|].
    apply subscribe_queue. right. split; [done|]. unfold pstate_of. by rewrite Hv.
Qed.

(** ** What the promise of one call says about its name *)

Lemma tracks_name E name src st :
  Inv E st -> tracks (loadAsync_name_result E name src st) (length (promises st)) name.
Proof.
  intros HI.
  destruct (loadAsync_name_ok E name src st HI) as (HI' & _).
  rewrite loadAsync_name_eq in HI'. cbn [fst] in HI'.
  destruct (loadPromises (loadAsync_name_result E name src st) !! name)
    as [p|] eqn:Hlk.
  { left. exists p. split; [by apply follows_call|].
    left. split; [by eapply entry_pending|done]. }
  assert (forall o, promises (settle (length (promises st)) o (new_promise st).1)
                      !! length (promises st) = Some (Settled o)) as Hset.
  { intros o. rewrite settle_fresh_state by apply HI. st_simpl.
    by rewrite lookup_app_r, Nat.sub_diag. }
  unfold loadAsync_name_result in *.
  destruct (truthy_flag (get_property (loaded st) name)) eqn:Hl.
  - right. left. split; [apply Hset|]. rewrite loaded_settle. st_simpl.
    unfold get_property in Hl. destruct (loaded st !! name); [left; by eexists|].
    right. by destruct (inherited name).
  - destruct (get_property (loadPromises st) name) as [p'| |] eqn:Hlp.
    + apply get_property_own in Hlp. rewrite loadPromises_subscribe in Hlk.
      st_simpl in Hlk. congruence.
    + right. left. split; [apply Hset|]. right.
      by apply get_property_inherited in Hlp as [_ ?].
    + destruct (invariant _ _); [|right; right; eexists; apply Hset].
      destruct (_getAssetForSource E src); [|right; right; eexists; apply Hset].
      unfold started in Hlk. st_simpl in Hlk. by rewrite lookup_insert_eq in Hlk.
Qed.

Lemma op_for_call st st' p name :
  grows st st' -> call_maps st st' -> op_for st p name -> op_for st' p name.
Proof.
  intros G M.
  assert (forall y v, promises st !! y = Some v -> promises st' !! y = Some v) as Hk.
  { intros y v Hy. rewrite (grows_promises _ _ G); [done|]. by eapply lookup_lt_Some. }
  intros [(Hp & Hlk)|[(Hp & Hl)|(e & Hp)]].
  - left. split; [auto|]. by apply (call_entries _ _ M).
  - right. left. split; [auto|]. by rewrite (call_loaded _ _ M).
  - right. right. exists e. auto.
Qed.

Lemma tracks_call st st' q name :
  grows st st' -> call_maps st st' -> tracks st q name -> tracks st' q name.
Proof.
  intros G M.
  assert (forall y v, promises st !! y = Some v -> promises st' !! y = Some v) as Hk.
  { intros y v Hy. rewrite (grows_promises _ _ G); [done|]. by eapply lookup_lt_Some. }
  intros [(p & Hf & Hop)|[(Hq & Hl)|(e & Hq)]].
  - left. exists p. split; [by eapply follows_grows|by eapply op_for_call].
  - right. left. split; [auto|]. by rewrite (call_loaded _ _ M).
  - right. right. exists e. auto.
Qed.

Lemma tracks_subscribe w f st q name :
  tracks st q name -> tracks (subscribe w f st) q name.
Proof.
  destruct (subscribe_fields w f st) as (Hl & Hlp & Hp & _).
  unfold tracks, op_for, follows. rewrite Hl, Hlp, Hp.
  intros [(p & (g & Ht & Hg & Hf) & Hop)|[H|H]]; [left|by right; left|by right; right].
  exists p. split; [|done]. exists g. split; [done|]. split; [done|].
  destruct Hf as [(H1 & H2 & H3)|[(o & H1 & H2 & H3)|H]].
  - left. split; [done|]. split; [done|]. apply subscribe_waiting. by left.
  - right. left. exists o. split; [done|]. split; [done|].
    apply subscribe_queue. by left.
  - by right; right.
Qed.

Lemma tracks_event E ev st q name :
  Inv E st -> tracks st q name -> tracks (apply_event E ev st) q name.
Proof.
  intros HI [(p & Hf & Hop)|[(Hq & Hl)|(e & Hq)]].
  - left. exists p. split; [by apply follows_event|by apply op_for_event].
  - right. left. split; [by apply event_settled|].
    destruct Hl as [Hl|Hl]; [left; by apply loaded_event|by right].
  - right. right. exists e. by apply event_settled.
Qed.


(** A fulfilled promise of a call means the name is loaded. *)
Lemma tracks_fulfilled st q name :
  tracks st q name -> inherited name = false ->
  promises st !! q = Some (Settled Fulfilled) -> is_Some (loaded st !! name).
Proof.
  intros [(p & Hf & Hop)|[(Hq & [Hl|Hl])|(e & Hq)]] Hin Hful; try congruence.
  apply pstate_of_settled in Hful. apply (follows_settled _ _ _ _ Hf) in Hful.
  apply pstate_of_settled in Hful.
  destruct Hop as [(Hp & _)|[(_ & Hl)|(e & Hp)]]; congruence.
Qed.

Section Each.

Variables (E : Env) (m : fontMap).

Let load := fun name => loadAsync_name E name (object_get m name).

Lemma load_ok x : call_ok E (load x).
Proof. apply loadAsync_name_ok. Qed.

Lemma load_maps x st : Inv E st -> call_maps st (load x st).1.
Proof. intros HI. unfold load. rewrite loadAsync_name_eq. by apply call_maps_name. Qed.

Lemma tracks_each l : forall st i name q,
  Inv E st -> l !! i = Some name -> (call_each load l st).2 !! i = Some q ->
  tracks (call_each load l st).1 q name.
Proof.
  induction l as [|x l IH]; intros st i name q HI Hi Hq; [done|].
  cbn [call_each] in *.
  destruct (load_ok x st HI) as (H1 & G1 & _).
  pose proof (tracks_name E x (object_get m x) st HI) as Ht.
  pose proof (IH (load x st).1) as IH'.
  destruct (call_each_ok E load l (load x st).1 load_ok H1) as (H2 & G2 & _).
  pose proof (call_maps_each E load l (load x st).1 load_ok load_maps H1) as M2.
  pose proof (loadAsync_name_eq E x (object_get m x) st) as Hx.
  change (loadAsync_name E x (object_get m x) st) with (load x st) in Hx.
  rewrite Hx in *. cbn [fst snd] in *.
  destruct (call_each load l (loadAsync_name_result E x (object_get m x) st))
    as [st2 qs]. cbn [fst snd] in *.
  destruct i as [|i]; cbn in Hi, Hq.
  - injection Hi as ->. injection Hq as <-. by eapply tracks_call.
  - by eapply IH'.
Qed.


End Each.

Lemma map_elements_tracks E m st i name q :
  Inv E st -> (map fst m) !! i = Some name -> map_elements E m st !! i = Some q ->
  tracks (loadAsync_map E m st).1 q name.
Proof.
  intros HI Hi Hq. unfold map_elements in Hq. rewrite loadAsync_map_eq. unfold fan_out.
  pose proof (Inv_new_promise E st HI) as HI0.
  pose proof (tracks_each E m (map fst m) (new_promise st).1 i name q HI0 Hi Hq) as Ht.
  destruct (call_each_ok E (fun name => loadAsync_name E name (object_get m name))
              (map fst m) (new_promise st).1) as (H1 & G1 & A1);
    [apply load_ok|done|].
  destruct (call_each _ _ _) as [st1 qs]. cbn [fst snd] in *.
  destruct (Promise_all_ok E qs st1 H1 A1) as (H2 & G2 & Ea & L2).
  pose proof (call_maps_Promise_all qs st1) as M2.
  destruct (Promise_all qs st1) as [st2 a]. cbn [fst snd] in *.
  apply tracks_subscribe. by eapply tracks_call.
Qed.


Lemma map_pending E m st :
  Inv E st ->
  promises (loadAsync_map E m st).1 !! length (promises st) = Some Pending
  /\ (loadAsync_map E m st).2 = length (promises st).
Proof.
  intros HI. rewrite loadAsync_map_eq. unfold fan_out.
  destruct (call_each_ok E (fun name => loadAsync_name E name (object_get m name))
              (map fst m) (new_promise st).1) as (H1 & G1 & A1);
    [apply load_ok|by apply Inv_new_promise|].
  destruct (call_each _ _ _) as [st1 qs]. cbn [fst snd] in *.
  destruct (Promise_all_ok E qs st1 H1 A1) as (H2 & G2 & Ea & L2).
  destruct (Promise_all qs st1) as [st2 a]. cbn [fst snd] in *.
  split; [|done]. rewrite promises_subscribe.
  pose proof (grows_trans _ _ _ G1 G2) as G.
  rewrite (grows_promises _ _ G); st_simpl.
  - by rewrite lookup_app_r, Nat.sub_diag.
  - rewrite length_app. simpl. lia.
Qed.

Lemma drain_settled E st y v :
  reachable E st -> promises st !! y = Some (Settled v) ->
  promises (drain E st) !! y = Some (Settled v).
Proof.
  intros Hr Hy.
  apply (drain_preserves E
           (fun s => reachable E s /\ promises s !! y = Some (Settled v)) st);
    [|done].
  intros s [Hs Hv]. split; [by apply reachable_tick|].
  apply (event_settled E EvTick); [by apply reachable_Inv|done].
Qed.


Lemma reachable_foo_loading : reachable sample_env foo_loading.
Proof.
  exact (reachable_step sample_env initial
           (EvLoad (ArgName "Foo" (Some (SrcAsset 1))))
           (reachable_initial sample_env)).
Qed.

(** C1 on a run: a second call for "Foo" while it is in flight, and the
    calls counted over a load started in the initial state. *)
Lemma loadAsync_shares_operation_witness :
  reachable sample_env foo_loading
  /\ loadPromises foo_loading !! "Foo" = Some 1
  /\ calls (loadAsync sample_env (ArgName "Foo" None) foo_loading).1
     = calls foo_loading
  /\ (1, ReturnShared "Foo" (loadAsync sample_env (ArgName "Foo" None) foo_loading).2)
     ∈ waiting (loadAsync sample_env (ArgName "Foo" None) foo_loading).1
  /\ downloads_of "Foo" (run sample_env in_flight_events foo_loading) = 1
  /\ registrations_of sample_env "Foo" (run sample_env in_flight_events foo_loading)
     <= 1.
Proof.
  split; [exact reachable_foo_loading|]. split; [by vm_compute|].
  destruct (proj1 (loadAsync_shares_operation sample_env foo_loading "Foo"
                     reachable_foo_loading) 1 None) as (_ & _ & H3 & H4);
    [by vm_compute|].
  split; [exact H3|]. split; [exact H4|].
  apply (proj2 (proj2 (loadAsync_shares_operation sample_env initial "Foo"
                         (reachable_initial sample_env)))
           (Some (SrcAsset 1)) 1 in_flight_events); try reflexivity.
  vm_compute. repeat split; by eexists.
Defined.

Lemma reachable_foo_failing : reachable sample_env foo_failing.
Proof. do 2 apply reachable_run. exact reachable_foo_loading. Qed.

(** C2 on a run: the load of "Foo" fails, its entry goes, and a new call
    is in flight again. *)
Lemma in_flight_entry_removed_witness :
  reachable sample_env foo_failing
  /\ loadPromises foo_failing !! "Foo" = Some 1
  /\ pstate_of (apply_event sample_env EvTick foo_failing) 1
     = Settled (Rejected (Error (downloadFailedMessage "Foo")))
  /\ isLoading (apply_event sample_env EvTick foo_failing) "Foo" = Normal false
  /\ isLoading (loadAsync sample_env (ArgName "Foo" (Some (SrcAsset 1)))
                  (apply_event sample_env EvTick foo_failing)).1 "Foo"
     = Normal true.
Proof.
  assert (loadPromises foo_failing !! "Foo" = Some 1) as H1 by (by vm_compute).
  assert (pstate_of (apply_event sample_env EvTick foo_failing) 1
          = Settled (Rejected (Error (downloadFailedMessage "Foo")))) as H2
    by (by vm_compute).
  destruct (in_flight_entry_removed sample_env foo_failing "Foo" 1 EvTick _
              reachable_foo_failing H1 H2) as (_ & H3 & _ & H4).
  split; [exact reachable_foo_failing|]. split; [exact H1|]. split; [exact H2|].
  split; [exact H3|].
  by destruct (H4 ltac:(discriminate) (Some (SrcAsset 1)) 1 eq_refl) as (H5 & _).
Defined.

(** C3 on a run: "Foo" is loaded, was registered, and stays loaded. *)
Lemma loaded_set_monotone_witness :
  reachable sample_env (run sample_env success_events foo_loading)
  /\ isLoaded (run sample_env success_events foo_loading) "Foo" = Normal true
  /\ registered sample_env (run sample_env success_events foo_loading) "Foo"
  /\ isLoaded (run sample_env [EvLoad (ArgName "Foo" None); EvTick]
                 (run sample_env success_events foo_loading)) "Foo"
     = Normal true.
Proof.
  assert (reachable sample_env (run sample_env success_events foo_loading)) as Hr
    by (apply reachable_run; exact reachable_foo_loading).
  assert (isLoaded (run sample_env success_events foo_loading) "Foo" = Normal true)
    as Hl by (by vm_compute).
  destruct (loaded_set_monotone sample_env _ Hr) as (H1 & _ & _ & H4).
  split; [exact Hr|]. split; [exact Hl|]. split; [by apply H1|]. by apply H4.
Defined.

Lemma reachable_foo_download_done : reachable sample_env foo_download_done.
Proof. apply reachable_run. exact reachable_foo_loading. Qed.

(** C9 on a run: the download of "Foo" completes without the asset. *)
Lemma download_outcome_decides_witness :
  reachable sample_env foo_download_done
  /\ queue foo_download_done = [(AwaitDownload "Foo" 1 2, Fulfilled)]
  /\ downloaded (asset_of foo_download_done 1) = false
  /\ pstate_of (tick sample_env foo_download_done) 2
     = Settled (Rejected (Error (downloadFailedMessage "Foo")))
  /\ calls (tick sample_env foo_download_done) = calls foo_download_done.
Proof.
  assert (queue foo_download_done = [(AwaitDownload "Foo" 1 2, Fulfilled)]) as Hq
    by (by vm_compute).
  assert (downloaded (asset_of foo_download_done 1) = false) as Hd
    by (by vm_compute).
  destruct (proj1 (download_outcome_decides sample_env foo_download_done "Foo" 1 2 []
                     reachable_foo_download_done Hq) Hd) as (H1 & _ & H3 & _).
  split; [exact reachable_foo_download_done|]. split; [exact Hq|].
  split; [exact Hd|]. split; [exact H1|exact H3].
Defined.


(** The same scenario evaluated: the call is rejected with the
    error of "B", "A" is in the Loaded Set and "B" is not. *)
Lemma font_pair_scenario :
  pstate_of (after_map sample_env font_pair pair_events initial)
            (loadAsync sample_env (ArgMap font_pair) initial).2
  = Settled (Rejected (Error (downloadFailedMessage "B")))
  /\ isLoaded (after_map sample_env font_pair pair_events initial) "A" = Normal true
  /\ isLoaded (after_map sample_env font_pair pair_events initial) "B" = Normal false
  /\ isLoading (after_map sample_env font_pair pair_events initial) "A" = Normal false.
Proof. repeat split; by vm_compute. Qed.

(** ** The two queries and the keys of the two maps *)

Lemma reachable_proto_attempt : reachable sample_env proto_attempt.
Proof. apply reachable_run. constructor. Qed.

(** X1: in every state the module can reach, [isLoaded] and [isLoading]
    return for every name (the [hasOwnProperty] they call is never
    shadowed by a font of that name), they say exactly whether the name is
    an own key of [loaded] and of [loadPromises], and they are never both
    true. *)
Theorem queries_never_throw E st name :
  reachable E st ->
  isLoaded st name = Normal (bool_decide (is_Some (loaded st !! name)))
  /\ isLoading st name = Normal (bool_decide (is_Some (loadPromises st !! name)))
  /\ ~ (isLoaded st name = Normal true /\ isLoading st name = Normal true).
Proof.
  intros Hr. pose proof (reachable_Inv E st Hr) as HI.
  split; [by apply (isLoaded_spec E)|]. split; [by apply (isLoading_spec E)|].
  intros [H1 H2]. apply (isLoaded_true E) in H1; [|done].
  apply (isLoading_true E) in H2 as [p Hp]; [|done].
  destruct (entry_fresh _ _ (proj2 HI) _ _ Hp) as [Hn _].
  rewrite Hn in H1. by destruct H1.
Qed.

(** X1 on a run: while "Foo" is in flight, and for the name
    "hasOwnProperty" itself. *)
Lemma queries_never_throw_witness :
  reachable sample_env foo_loading
  /\ isLoaded foo_loading "Foo" = Normal false
  /\ isLoading foo_loading "Foo" = Normal true
  /\ isLoaded foo_loading "hasOwnProperty" = Normal false.
Proof.
  destruct (queries_never_throw sample_env foo_loading "Foo" reachable_foo_loading)
    as (H1 & H2 & _).
  destruct (queries_never_throw sample_env foo_loading "hasOwnProperty"
              reachable_foo_loading) as (H3 & _).
  split; [exact reachable_foo_loading|].
  split; [exact H1|]. split; [exact H2|exact H3].
Defined.

(** X2: no property name of [Object.prototype] ever becomes an own key of
    [loaded] or of [loadPromises] (so [loaded["__proto__"] = true] is never
    run), and every value stored in [loaded] is [true]. *)
Theorem prototype_names_never_stored E st name :
  reachable E st ->
  (inherited name = true ->
   loaded st !! name = None /\ loadPromises st !! name = None)
  /\ (forall b, loaded st !! name = Some b -> b = true).
Proof.
  intros Hr. pose proof (reachable_Inv E st Hr) as [_ HG]. split.
  - intros Hin. split.
    + destruct (loaded st !! name) as [b|] eqn:Hl; [|done].
      destruct (loaded_own _ _ HG _ _ Hl) as [_ H]. congruence.
    + destruct (loadPromises st !! name) as [p|] eqn:Hl; [|done].
      destruct (entry_fresh _ _ HG _ _ Hl) as [_ H]. congruence.
  - intros b Hl. by destruct (loaded_own _ _ HG _ _ Hl).
Qed.

(** X2 on a run: after [loadAsync("__proto__", asset)]. *)
Lemma prototype_names_never_stored_witness :
  reachable sample_env proto_attempt /\ inherited "__proto__" = true
  /\ loaded proto_attempt !! "__proto__" = None
  /\ loadPromises proto_attempt !! "__proto__" = None.
Proof.
  split; [exact reachable_proto_attempt|]. split; [reflexivity|].
  exact (proj1 (prototype_names_never_stored sample_env proto_attempt "__proto__"
                  reachable_proto_attempt) eq_refl).
Defined.

(** X3: the promise stored under a name in [loadPromises] is pending (a
    settled promise is never left there for a later caller to be handed),
    the name is not in [loaded], and no other name is stored with the same
    promise. *)
Theorem in_flight_promise_is_pending E st name p :
  reachable E st -> loadPromises st !! name = Some p ->
  promises st !! p = Some Pending
  /\ loaded st !! name = None
  /\ forall name', loadPromises st !! name' = Some p -> name' = name.
Proof.
  intros Hr Hlk. pose proof (reachable_Inv E st Hr) as HI.
  split; [by eapply entry_pending|].
  split; [by destruct (entry_fresh _ _ (proj2 HI) _ _ Hlk)|].
  intros name' Hlk'.
  pose proof (entry_frame _ _ (proj2 HI) _ _ Hlk) as H1.
  pose proof (entry_frame _ _ (proj2 HI) _ _ Hlk') as H2.
  pose proof (same_target st _ _ p (proj1 HI) H1 H2 eq_refl eq_refl) as Heq.
  congruence.
Qed.

(** X3 on a run: "Foo" in flight. *)
Lemma in_flight_promise_is_pending_witness :
  reachable sample_env foo_loading
  /\ loadPromises foo_loading !! "Foo" = Some 1
  /\ promises foo_loading !! 1 = Some Pending.
Proof.
  assert (loadPromises foo_loading !! "Foo" = Some 1) as H by (by vm_compute).
  split; [exact reachable_foo_loading|]. split; [exact H|].
  exact (proj1 (in_flight_promise_is_pending sample_env foo_loading "Foo" 1
                  reachable_foo_loading H)).
Defined.

(** ** Calls for a name that is loaded, and numeric sources *)

Lemma loadAsync_name_loaded E st name src :
  Inv E st -> is_Some (loaded st !! name) ->
  loadAsync_name_result E name src st
  = set_promises (fun ps => ps ++ [Settled Fulfilled]) st.
Proof.
  intros HI [b Hl]. unfold loadAsync_name_result, get_property. rewrite Hl.
  destruct (loaded_own _ _ (proj2 HI) _ _ Hl) as [-> _]. cbn [truthy_flag].
  apply settle_fresh_state, HI.
Qed.

(** X4: for a name that is loaded, [loadAsync] returns a promise that is
    already fulfilled whatever its second argument is (missing and string
    sources included: the source is not looked at), and starts nothing:
    no download, no registration, no frame, both maps as they were. *)
Theorem loadAsync_loaded_name E st name src :
  reachable E st -> isLoaded st name = Normal true ->
  pstate_of (loadAsync E (ArgName name src) st).1
            (loadAsync E (ArgName name src) st).2 = Settled Fulfilled
  /\ calls (loadAsync E (ArgName name src) st).1 = calls st
  /\ loaded (loadAsync E (ArgName name src) st).1 = loaded st
  /\ loadPromises (loadAsync E (ArgName name src) st).1 = loadPromises st
  /\ waiting (loadAsync E (ArgName name src) st).1 = waiting st
  /\ queue (loadAsync E (ArgName name src) st).1 = queue st.
Proof.
  intros Hr Hl. pose proof (reachable_Inv E st Hr) as HI.
  apply (isLoaded_true E) in Hl; [|done].
  cbn [loadAsync]. rewrite loadAsync_name_eq. cbn [fst snd].
  rewrite (loadAsync_name_loaded E st name src HI Hl).
  split; [apply pstate_of_snoc|done].
Qed.

(** X4 on a run: "Foo" is loaded and is asked for again without a source. *)
Lemma loadAsync_loaded_name_witness :
  reachable sample_env (run sample_env success_events foo_loading)
  /\ isLoaded (run sample_env success_events foo_loading) "Foo" = Normal true
  /\ pstate_of
       (loadAsync sample_env (ArgName "Foo" None)
          (run sample_env success_events foo_loading)).1
       (loadAsync sample_env (ArgName "Foo" None)
          (run sample_env success_events foo_loading)).2
     = Settled Fulfilled.
Proof.
  assert (reachable sample_env (run sample_env success_events foo_loading)) as Hr
    by (apply reachable_run; exact reachable_foo_loading).
  assert (isLoaded (run sample_env success_events foo_loading) "Foo" = Normal true)
    as Hl by (by vm_compute).
  split; [exact Hr|]. split; [exact Hl|].
  exact (proj1 (loadAsync_loaded_name sample_env _ "Foo" None Hr Hl)).
Defined.



(** ** Native names *)

(** X6: within a session two font names have the same native name, or
    the same resolved family name, only if they are the same name: fonts
    never collide in the native registry. *)
Theorem native_names_distinct E a b :
  (_getNativeFontName E a = _getNativeFontName E b <-> a = b)
  /\ ("ExpoFont-" +:+ _getNativeFontName E a = "ExpoFont-" +:+ _getNativeFontName E b
      <-> a = b).
Proof.
  split; split; try (by intros ->).
  - apply native_name_inj.
  - intros H%string_app_inv_head. by apply native_name_inj in H.
Qed.

(** ** More on the resolver *)

Lemma includes_empty (s : string) : includes s EmptyString = true.
Proof. by destruct s. Qed.

Lemma resolved_name_has_session E (s : string) :
  includes ("ExpoFont-" +:+ _getNativeFontName E s) (sessionId E) = true.
Proof. unfold _getNativeFontName. apply includes_append, includes_here. Qed.

(** A family name that already carries the session identifier is handed
    back, whatever else it is. *)
Lemma processFontFamily_session_name E st (s : string) :
  includes s (sessionId E) = true ->
  processFontFamily E (JsString s) st = (st, Normal (JsString s)).
Proof.
  intros H. unfold processFontFamily.
  destruct (_ || _ || _); [done|]. destruct (includes s "FuturaBT"); [done|].
  by rewrite H.
Qed.

(** X7: the resolver is idempotent. Whatever it returns for a name, it
    returns unchanged when given that result, in the state it left, and
    without logging anything more: a resolved family name can be resolved
    again safely. *)
Theorem processFontFamily_idempotent E st name v :
  (processFontFamily E name st).2 = Normal v ->
  processFontFamily E v (processFontFamily E name st).1
  = ((processFontFamily E name st).1, Normal v).
Proof.
  unfold processFontFamily at 1 3 4.
  destruct name as [| |s]; try (by intros [= <-]).
  destruct (bool_decide (s = EmptyString) || array_includes (systemFonts E) s
            || bool_decide (s = "System")) eqn:H1.
  { cbn [fst snd]. intros [= <-]. unfold processFontFamily. by rewrite H1. }
  destruct (includes s "FuturaBT") eqn:H2.
  { cbn [fst snd]. intros [= <-]. unfold processFontFamily. by rewrite H1, H2. }
  destruct (includes s (sessionId E)) eqn:H3.
  { cbn [fst snd]. intros [= <-]. by apply processFontFamily_session_name. }
  destruct (isLoaded st s) as [[|]|e]; cbn [fst snd].
  - intros [= <-]. apply processFontFamily_session_name, resolved_name_has_session.
  - destruct (diagnose E s st) as [st1 [u|e]]; cbn [fst snd]; [|done].
    intros [= <-]. unfold processFontFamily.
    rewrite (bool_decide_eq_true_2 ("System" = "System")) by done.
    by rewrite orb_true_r.
  - done.
Qed.

(** X7 on a run: "Foo", loaded, is resolved twice. *)
Lemma processFontFamily_idempotent_witness :
  (processFontFamily sample_env (JsString "Foo")
     (run sample_env success_events foo_loading)).2
  = Normal (JsString "ExpoFont-abc-Foo")
  /\ processFontFamily sample_env (JsString "ExpoFont-abc-Foo")
       (processFontFamily sample_env (JsString "Foo")
          (run sample_env success_events foo_loading)).1
     = ((processFontFamily sample_env (JsString "Foo")
           (run sample_env success_events foo_loading)).1,
        Normal (JsString "ExpoFont-abc-Foo")).
Proof.
  assert ((processFontFamily sample_env (JsString "Foo")
             (run sample_env success_events foo_loading)).2
          = Normal (JsString "ExpoFont-abc-Foo")) as H by (by vm_compute).
  split; [exact H|].
  exact (processFontFamily_idempotent sample_env _ _ _ H).
Defined.

(** X8: from a call to the resolver, for any name. Once the promise
    returned by [loadAsync(s, src)] is fulfilled, a non-empty name [s]
    that takes none of the bypasses and that [Object.prototype] does not
    define is loaded, not in flight, and resolves to "ExpoFont-" followed
    by the session identifier, "-" and [s], the resolver leaving the state
    as it was; a name that [Object.prototype] defines resolves to "System"
    even then. *)
Theorem fulfilled_load_resolves E st (s : string) src evs :
  reachable E st ->
  s <> EmptyString -> s ∉ systemFonts E -> s <> "System" ->
  includes s "FuturaBT" = false -> includes s (sessionId E) = false ->
  pstate_of (run E evs (loadAsync E (ArgName s src) st).1)
            (loadAsync E (ArgName s src) st).2 = Settled Fulfilled ->
  (inherited s = false ->
     isLoaded (run E evs (loadAsync E (ArgName s src) st).1) s = Normal true
     /\ isLoading (run E evs (loadAsync E (ArgName s src) st).1) s = Normal false
     /\ processFontFamily E (JsString s) (run E evs (loadAsync E (ArgName s src) st).1)
        = (run E evs (loadAsync E (ArgName s src) st).1,
           Normal (JsString ("ExpoFont-" +:+ sessionId E +:+ "-" +:+ s))))
  /\ (inherited s = true ->
      (processFontFamily E (JsString s)
         (run E evs (loadAsync E (ArgName s src) st).1)).2
      = Normal (JsString "System")).
Proof.
  intros Hr H1 H2 H3 H4 H5 Hq.
  assert (Inv E (run E evs (loadAsync E (ArgName s src) st).1)) as HI.
  { apply reachable_Inv, reachable_run.
    exact (reachable_step E st (EvLoad (ArgName s src)) Hr). }
  assert (forall b, isLoaded (run E evs (loadAsync E (ArgName s src) st).1) s = Normal b ->
            processFontFamily E (JsString s) (run E evs (loadAsync E (ArgName s src) st).1)
            = if b then (run E evs (loadAsync E (ArgName s src) st).1,
                         Normal (JsString ("ExpoFont-" +:+ sessionId E +:+ "-" +:+ s)))
              else match diagnose E s (run E evs (loadAsync E (ArgName s src) st).1) with
                   | (st1, Throw e) => (st1, Throw e)
                   | (st1, Normal _) => (st1, Normal (JsString "System"))
                   end) as Hres.
  { intros b Hb. unfold processFontFamily.
    rewrite !bool_decide_eq_false_2 by done.
    unfold array_includes. rewrite bool_decide_eq_false_2 by done. cbn [orb].
    rewrite H4, H5, Hb. by destruct b. }
  split; intros Hin.
  - pose proof (fulfilled_call_loaded E st s src evs Hr Hin Hq) as Hl.
    assert (isLoaded (run E evs (loadAsync E (ArgName s src) st).1) s = Normal true)
      as Hl' by (by apply (isLoaded_true E)).
    split; [exact Hl'|]. split; [|exact (Hres true Hl')].
    apply (isLoading_false E); [done|].
    destruct (loadPromises (run E evs (loadAsync E (ArgName s src) st).1) !! s)
      as [p|] eqn:Hp; [|done].
    destruct (entry_fresh _ _ (proj2 HI) _ _ Hp) as [Hn _].
    rewrite Hn in Hl. by destruct Hl.
  - assert (isLoaded (run E evs (loadAsync E (ArgName s src) st).1) s = Normal false)
      as Hl'.
    { apply (isLoaded_false E); [done|].
      destruct (loaded (run E evs (loadAsync E (ArgName s src) st).1) !! s)
        as [b|] eqn:Hl; [|done].
      destruct (loaded_own _ _ (proj2 HI) _ _ Hl) as [_ H]. congruence. }
    rewrite (Hres false Hl'). unfold diagnose. destruct (dev E); [|done].
    rewrite (isLoading_spec E) by done. by destruct (bool_decide _).
Qed.

(** X8 on a run: "Foo" loaded in [sample_env]. *)
Lemma fulfilled_load_resolves_witness :
  reachable sample_env initial
  /\ pstate_of (run sample_env success_events
                  (loadAsync sample_env (ArgName "Foo" (Some (SrcAsset 1))) initial).1)
               (loadAsync sample_env (ArgName "Foo" (Some (SrcAsset 1))) initial).2
     = Settled Fulfilled
  /\ isLoaded (run sample_env success_events
                 (loadAsync sample_env (ArgName "Foo" (Some (SrcAsset 1))) initial).1)
              "Foo" = Normal true.
Proof.
  assert (pstate_of (run sample_env success_events
                  (loadAsync sample_env (ArgName "Foo" (Some (SrcAsset 1))) initial).1)
               (loadAsync sample_env (ArgName "Foo" (Some (SrcAsset 1))) initial).2
          = Settled Fulfilled) as Hq by (by vm_compute).
  assert ("Foo" ∉ systemFonts sample_env) as Hs
    by (apply not_in_list; by vm_compute).
  split; [constructor|]. split; [exact Hq|].
  exact (proj1 (proj1 (fulfilled_load_resolves sample_env initial "Foo"
                         (Some (SrcAsset 1)) success_events
                         (reachable_initial sample_env)
                         ltac:(discriminate) Hs ltac:(discriminate)
                         eq_refl eq_refl Hq) eq_refl)).
Defined.

(** X9: with an empty session identifier every name contains it, so the
    resolver hands every input back unchanged, loaded or not, and never
    produces an "ExpoFont-" name or a diagnostic. *)
Theorem processFontFamily_empty_session E st name :
  sessionId E = EmptyString ->
  processFontFamily E name st = (st, Normal name).
Proof.
  intros Hs. destruct name as [| |s]; try done.
  apply processFontFamily_session_name. rewrite Hs. apply includes_empty.
Qed.

(** X9 on a run: "Foo" is loaded, and is resolved to itself. *)
Lemma processFontFamily_empty_session_witness :
  sessionId anonymous_env = EmptyString
  /\ isLoaded (run anonymous_env success_events
                 (loadAsync anonymous_env (ArgName "Foo" (Some (SrcAsset 1))) initial).1)
              "Foo" = Normal true
  /\ processFontFamily anonymous_env (JsString "Foo")
       (run anonymous_env success_events
          (loadAsync anonymous_env (ArgName "Foo" (Some (SrcAsset 1))) initial).1)
     = (run anonymous_env success_events
          (loadAsync anonymous_env (ArgName "Foo" (Some (SrcAsset 1))) initial).1,
        Normal (JsString "Foo")).
Proof.
  split; [reflexivity|]. split; [by vm_compute|].
  exact (processFontFamily_empty_session anonymous_env _ (JsString "Foo") eq_refl).
Defined.

(** ** From the answer of a collaborator to the end of the load *)

(** The frame of [_loadSingleFontAsync] for [name] ends with a rejection:
    its caller's job is queued, and [name] is [failing]. *)
Lemma single_rejected_failing E st f o name s e rest :
  reachable E st -> queue st = (f, o) :: rest -> is_single f name s ->
  resume E f o (popped rest st) = settle s (Rejected e) (popped rest st) ->
  exists p, loadPromises st !! name = Some p
            /\ failing E name p e (registrations_of E name st) (tick E st).
Proof.
  intros Hr Hq Hf Heq. pose proof (reachable_Inv E st Hr) as [HR HG].
  pose proof (single_target _ _ _ Hf) as Ht.
  assert (f ∈ frames st) as Hin by (by eapply pop_head_frame).
  assert (promises st !! s = Some Pending) as Hs
    by (by eapply (pop_target_pending st f)).
  destruct (single_chain _ _ HG _ name s Hin Hf) as [p Hw].
  assert (loadPromises st !! name = Some p) as Hlk.
  { apply (frame_entry _ _ HG). apply elem_frames. left. by exists s. }
  destruct (entry_fresh _ _ HG _ _ Hlk) as [Hnl _].
  exists p. split; [done|].
  pose proof (reachable_tick E st Hr) as Hr'.
  pose proof (reachable_Inv E _ Hr') as HI'.
  unfold tick in *. rewrite Hq in *. fold (popped rest st) in *. rewrite Heq in *.
  assert ((AwaitSingle name p, Rejected e)
            ∈ queue (settle s (Rejected e) (popped rest st))) as Hjob.
  { apply settle_queue; [done|]. by right. }
  assert (loadPromises (settle s (Rejected e) (popped rest st)) !! name = Some p)
    as Hlk' by (by rewrite loadPromises_settle).
  split; [done|]. split; [by rewrite loaded_settle|].
  split; [unfold registrations_of; by rewrite calls_settle|].
  split; [|by left].
  intros a t Hd.
  destruct (single_chain _ _ (proj2 HI') _ name t Hd) as [p' Hw'];
    [by exists a; left|].
  assert (p' = p) as ->.
  { assert (loadPromises (settle s (Rejected e) (popped rest st)) !! name = Some p')
      as Hx.
    { apply (frame_entry _ _ (proj2 HI')). apply elem_frames. left. by exists t. }
    congruence. }
  by eapply (wait_queue_disjoint _ t (AwaitSingle name p) _ p (proj1 HI')).
Qed.

(** A caller that waits on the shared operation follows it. *)
Lemma caller_follows E st name p g q :
  Inv E st -> loadPromises st !! name = Some p -> is_shared g name q ->
  (p, g) ∈ waiting st -> follows st q p.
Proof.
  intros HI Hlk Hg Hw. exists g. split; [by eapply shared_target|].
  split; [by destruct Hg as [->| ->]|]. left.
  split; [by eapply entry_pending|]. split; [|done].
  apply (target_pending _ (proj1 HI) g); [|by eapply shared_target].
  apply elem_frames. left. by exists p.
Qed.

Lemma caller_settles E st q p :
  reachable E st -> follows st q p ->
  pstate_of (drain E (tick E st)) q = pstate_of (drain E (tick E st)) p.
Proof.
  intros Hr Hf. apply (follows_tick E) in Hf; [|by apply reachable_Inv].
  apply (follows_drain E) in Hf; [|by apply reachable_tick].
  apply (follows_quiescent _ _ _ Hf), drain_queue.
Qed.

(** X10: a rejection by a collaborator reaches the callers unchanged.
    When [asset.downloadAsync()] or [ExpoFontLoader.loadAsync] rejects
    with [e] and the frame of [_loadSingleFontAsync] is resumed with it,
    then once the queue is empty the shared operation of the name and
    every caller waiting on it are rejected with that same [e], the name
    is neither in flight nor loaded, and no registration was requested on
    the way. *)
Theorem collaborator_rejection_propagates E st f name s e rest :
  reachable E st -> queue st = (f, Rejected e) :: rest -> is_single f name s ->
  exists p,
    loadPromises st !! name = Some p
    /\ pstate_of (drain E (tick E st)) p = Settled (Rejected e)
    /\ isLoading (drain E (tick E st)) name = Normal false
    /\ isLoaded (drain E (tick E st)) name = Normal false
    /\ registrations_of E name (drain E (tick E st)) = registrations_of E name st
    /\ forall g q, is_shared g name q -> (p, g) ∈ waiting st ->
                   pstate_of (drain E (tick E st)) q = Settled (Rejected e).
Proof.
  intros Hr Hq Hf.
  destruct (single_rejected_failing E st f (Rejected e) name s e rest Hr Hq Hf)
    as (p & Hlk & Hfail).
  { by destruct Hf as [a [->| ->]]. }
  destruct (failing_drain E name p e _ _ Hfail) as (H1 & H2 & H3 & H4).
  pose proof (reachable_Inv E _ (reachable_drain E _ (reachable_tick E st Hr))) as HId.
  assert (pstate_of (drain E (tick E st)) p = Settled (Rejected e)) as Hp
    by (by apply pstate_of_settled).
  exists p. split; [done|]. split; [done|].
  split; [by apply (isLoading_false E)|].
  split; [by apply (isLoaded_false E)|]. split; [done|].
  intros g q Hg Hw. rewrite <- Hp. apply caller_settles; [done|].
  eapply caller_follows; eauto. by apply reachable_Inv.
Qed.

Lemma reachable_foo_download_rejected : reachable sample_env foo_download_rejected.
Proof. apply reachable_run. exact reachable_foo_loading. Qed.

(** X10 on a run: the download of "Foo" is rejected with "offline". *)
Lemma collaborator_rejection_propagates_witness :
  reachable sample_env foo_download_rejected
  /\ queue foo_download_rejected
     = [(AwaitDownload "Foo" 1 2, Rejected (Foreign "offline"))]
  /\ is_single (AwaitDownload "Foo" 1 2) "Foo" 2
  /\ pstate_of (drain sample_env (tick sample_env foo_download_rejected)) 0
     = Settled (Rejected (Foreign "offline")).
Proof.
  assert (queue foo_download_rejected
          = [(AwaitDownload "Foo" 1 2, Rejected (Foreign "offline"))]) as Hq
    by (by vm_compute).
  assert (is_single (AwaitDownload "Foo" 1 2) "Foo" 2) as Hs
    by (exists 1; by left).
  destruct (collaborator_rejection_propagates sample_env foo_download_rejected _
              "Foo" 2 _ [] reachable_foo_download_rejected Hq Hs)
    as (p & Hlk & _ & _ & _ & _ & Hcallers).
  assert (p = 1) as -> by (vm_compute in Hlk; congruence).
  split; [exact reachable_foo_download_rejected|]. split; [exact Hq|].
  split; [exact Hs|].
  apply (Hcallers (AwaitShared "Foo" 0) 0); [by left|].
  assert (waiting foo_download_rejected
          = [(2, AwaitSingle "Foo" 1); (1, AwaitShared "Foo" 0)]) as Hw
    by (by vm_compute).
  rewrite Hw. apply elem_of_cons; right. apply elem_of_cons. by left.
Defined.

Lemma succeeding_tick E name p s : succeeding E name p s -> succeeding E name p (tick E s).
Proof.
  intros (Hr & Hent). split; [by apply reachable_tick|].
  pose proof (reachable_Inv E s Hr) as [HR HG].
  destruct (queue s) as [|[g o] rest] eqn:Hq; rewrite <- Hq in Hent;
    [by rewrite tick_idle|].
  destruct Hent as [(Hlk & Hin)|(Hlk & Hl & Hp)].
  - unfold tick. rewrite Hq. fold (popped rest s).
    assert (g ∈ frames s) as Hg by (by eapply pop_head_frame).
    rewrite resume_loadPromises, resume_loaded.
    destruct (decide (g = AwaitSingle name p)) as [->|Hne].
    + pose proof (queue_head_unique s _ o rest Fulfilled p HR Hq Hin eq_refl)
        as <-.
      right. split; [apply lookup_delete_eq|].
      change (loaded (popped rest s)) with (loaded s).
      split; [rewrite lookup_insert_eq; by eexists|]. cbn [resume].
      rewrite settle_promises; [by destruct (decide (p = p))|].
      by eapply (pop_target_pending s (AwaitSingle name p)).
    + left. split.
      * destruct g as [| |nm p'| | | |]; try done.
        change (loadPromises (popped rest s)) with (loadPromises s).
        rewrite lookup_delete_ne; [done|]. intros ->.
        pose proof (frame_entry _ _ HG _ _ Hg) as Hlk'. congruence.
      * apply resume_queue_keep. rewrite Hq in Hin.
        apply elem_of_cons in Hin as [[= <- <-]|Hin]; done.
  - right. split; [|split].
    + unfold tick. rewrite Hq. rewrite resume_loadPromises.
      destruct g as [| |nm p'| | | |]; try done.
      change (loadPromises (set_queue (fun _ => rest) s)) with (loadPromises s).
      destruct (decide (nm = name)) as [->|Hne];
        [apply lookup_delete_eq|by rewrite lookup_delete_ne].
    + by apply (loaded_event E EvTick).
    + by apply (event_settled E EvTick).
Qed.

Lemma succeeding_drain E name p s :
  succeeding E name p s ->
  promises (drain E s) !! p = Some (Settled Fulfilled)
  /\ loadPromises (drain E s) !! name = None
  /\ is_Some (loaded (drain E s) !! name).
Proof.
  intros H. pose proof (drain_preserves E (succeeding E name p) s
                          (succeeding_tick E name p) H) as (_ & Hent).
  destruct Hent as [(_ & Hin)|(Hlk & Hl & Hp)]; [|done].
  rewrite drain_queue in Hin. by apply not_elem_of_nil in Hin.
Qed.

(** X11: an acknowledged registration completes the load. When the
    promise of [ExpoFontLoader.loadAsync] is fulfilled and the frame of
    [_loadSingleFontAsync] is resumed, then once the queue is empty the
    shared operation of the name and every caller waiting on it are
    fulfilled, the name is in the Loaded Set and no longer in flight. *)
Theorem acknowledged_registration_completes E st name asset s rest :
  reachable E st -> queue st = (AwaitNative name asset s, Fulfilled) :: rest ->
  exists p,
    loadPromises st !! name = Some p
    /\ pstate_of (drain E (tick E st)) p = Settled Fulfilled
    /\ isLoaded (drain E (tick E st)) name = Normal true
    /\ isLoading (drain E (tick E st)) name = Normal false
    /\ forall g q, is_shared g name q -> (p, g) ∈ waiting st ->
                   pstate_of (drain E (tick E st)) q = Settled Fulfilled.
Proof.
  intros Hr Hq. pose proof (reachable_Inv E st Hr) as [HR HG].
  assert (AwaitNative name asset s ∈ frames st) as Hin
    by (by eapply pop_head_frame).
  assert (promises st !! s = Some Pending) as Hs
    by (by eapply (pop_target_pending st (AwaitNative name asset s))).
  destruct (single_chain _ _ HG _ name s Hin) as [p Hw]; [by exists asset; right|].
  assert (loadPromises st !! name = Some p) as Hlk.
  { apply (frame_entry _ _ HG). apply elem_frames. left. by exists s. }
  assert (succeeding E name p (tick E st)) as Hsucc.
  { split; [by apply reachable_tick|]. left.
    unfold tick. rewrite Hq. fold (popped rest st). cbn [resume].
    split; [by rewrite loadPromises_settle|].
    apply settle_queue; [done|]. by right. }
  destruct (succeeding_drain E name p _ Hsucc) as (H1 & H2 & H3).
  pose proof (reachable_Inv E _ (reachable_drain E _ (reachable_tick E st Hr))) as HId.
  assert (pstate_of (drain E (tick E st)) p = Settled Fulfilled) as Hp
    by (by apply pstate_of_settled).
  exists p. split; [done|]. split; [done|].
  split; [by apply (isLoaded_true E)|].
  split; [by apply (isLoading_false E)|].
  intros g q Hg Hwg. rewrite <- Hp. apply caller_settles; [done|].
  eapply caller_follows; eauto. by split.
Qed.

Lemma reachable_foo_registered : reachable sample_env foo_registered.
Proof. apply reachable_run. exact reachable_foo_loading. Qed.

(** X11 on a run: the registration of "Foo" is acknowledged. *)
Lemma acknowledged_registration_completes_witness :
  reachable sample_env foo_registered
  /\ queue foo_registered = [(AwaitNative "Foo" 1 2, Fulfilled)]
  /\ isLoaded (drain sample_env (tick sample_env foo_registered)) "Foo"
     = Normal true
  /\ pstate_of (drain sample_env (tick sample_env foo_registered)) 0
     = Settled Fulfilled.
Proof.
  assert (queue foo_registered = [(AwaitNative "Foo" 1 2, Fulfilled)]) as Hq
    by (by vm_compute).
  destruct (acknowledged_registration_completes sample_env foo_registered
              "Foo" 1 2 [] reachable_foo_registered Hq)
    as (p & Hlk & _ & Hl & _ & Hcallers).
  assert (p = 1) as -> by (vm_compute in Hlk; congruence).
  split; [exact reachable_foo_registered|]. split; [exact Hq|].
  split; [exact Hl|].
  apply (Hcallers (AwaitShared "Foo" 0) 0); [by left|].
  assert (waiting foo_registered
          = [(2, AwaitSingle "Foo" 1); (1, AwaitShared "Foo" 0)]) as Hw
    by (by vm_compute).
  rewrite Hw. apply elem_of_cons; right. apply elem_of_cons. by left.
Defined.

(** ** The queue always empties *)



(** ** What is written to the console *)

Lemma console_settle x o st : console (settle x o st) = console st.
Proof. apply settle_fields. Qed.

Lemma console_subscribe w f st : console (subscribe w f st) = console st.
Proof. apply subscribe_fields. Qed.

Lemma console_name E name src st :
  console (loadAsync_name_result E name src st) = console st.
Proof.
  unfold loadAsync_name_result.
  destruct (truthy_flag _); [by rewrite console_settle|].
  destruct (get_property _ _); rewrite ?console_settle, ?console_subscribe; try done.
  destruct (invariant _ _); [|by rewrite console_settle].
  destruct (_getAssetForSource E src); [done|by rewrite console_settle].
Qed.

Lemma console_each {A} (f : A -> state -> state * pid) l :
  (forall x st, console (f x st).1 = console st) ->
  forall st, console (call_each f l st).1 = console st.
Proof.
  intros Hf. induction l as [|x l IH]; intros st; [done|].
  cbn [call_each]. specialize (Hf x st). destruct (f x st) as [st1 q].
  specialize (IH st1). destruct (call_each f l st1) as [st2 qs].
  cbn [fst] in *. congruence.
Qed.

Lemma console_subscribe_all a elems : forall i st,
  console (subscribe_all a i elems st) = console st.
Proof.
  induction elems as [|e elems IH]; intros i st; [done|].
  cbn [subscribe_all]. by rewrite IH, console_subscribe.
Qed.

Lemma console_Promise_all elems st :
  console (Promise_all elems st).1 = console st.
Proof.
  unfold Promise_all. cbn [new_promise fst].
  destruct elems; rewrite ?console_settle, console_subscribe_all; done.
Qed.

Lemma console_fan_out {A} (f : A -> state -> state * pid) l st0 q :
  (forall x st, console (f x st).1 = console st) ->
  console (fan_out f l st0 q).1 = console st0.
Proof.
  intros Hf. unfold fan_out. pose proof (console_each f l Hf st0) as H1.
  destruct (call_each f l st0) as [st1 qs].
  pose proof (console_Promise_all qs st1) as H2.
  destruct (Promise_all qs st1) as [st2 a]. cbn [fst] in *.
  rewrite console_subscribe. congruence.
Qed.

Lemma console_map E m st : console (loadAsync_map E m st).1 = console st.
Proof.
  rewrite loadAsync_map_eq, console_fan_out; [done|].
  intros name st'. rewrite loadAsync_name_eq. apply console_name.
Qed.

Lemma console_all_element a i st : console (all_element a i st) = console st.
Proof.
  unfold all_element. destruct (alls st !! a) as [r|]; [|done].
  destruct (called r !! i) as [[|]|]; try done.
  destruct (decide _); [|done]. by rewrite console_settle.
Qed.

Lemma console_resume E g o st : console (resume E g o st) = console st.
Proof.
  destruct g; cbn [resume]; rewrite ?console_settle; try done.
  - destruct o; rewrite ?console_settle; [|done].
    destruct (downloaded _); rewrite ?console_settle; [|done].
    unfold ExpoFontLoader_loadAsync. cbn [new_promise]. by rewrite console_subscribe.
  - by destruct o.
  - destruct o; rewrite ?console_settle, ?console_all_element; done.
Qed.

(** X12: the console. A call of [loadAsync] with a name or with a mapping
    logs nothing; a call with an array logs the deprecation warning once,
    however many mappings the array holds; no job and no answer of a
    collaborator logs anything; and the resolver logs nothing in a
    production build and at most one error in a development build. *)
Theorem console_writes E ev st :
  match ev with
  | EvLoad (ArgArray _) =>
      console (apply_event E ev st)
      = console st ++ [(LevelWarn, arrayDeprecatedMessage)]
  | EvResolve _ =>
      console (apply_event E ev st) = console st
      \/ (dev E = true
          /\ exists msg, console (apply_event E ev st)
                         = console st ++ [(LevelError, msg)])
  | _ => console (apply_event E ev st) = console st
  end.
Proof.
  destruct ev as [[name src|m|ms]|name| |d o|a fields]; cbn [apply_event loadAsync].
  - rewrite loadAsync_name_eq. apply console_name.
  - apply console_map.
  - rewrite loadAsync_array_eq, console_fan_out; [done|]. apply console_map.
  - unfold processFontFamily. destruct name as [| |s]; try by left.
    destruct (_ || _ || _); [by left|]. destruct (includes s "FuturaBT"); [by left|].
    destruct (includes s (sessionId E)); [by left|].
    destruct (isLoaded st s) as [[|]|e]; try by left.
    unfold diagnose. destruct (dev E); [|by left].
    destruct (isLoading st s) as [[|]|e]; [right|right|by left];
      (split; [done|]); eexists; reflexivity.
  - unfold tick. destruct (queue st) as [|[g o] rest]; [done|].
    by rewrite console_resume.
  - destruct (is_external st d); [apply console_settle|done].
  - done.
Qed.

(** ** A [Promise.all] whose elements are all fulfilled *)

Lemma live_all_step st st' a n :
  length (promises st) <= length (promises st') ->
  alls st' !! a = alls st !! a ->
  (promises st' !! a = Some Pending -> promises st !! a = Some Pending) ->
  live_all st a n -> live_all st' a n.
Proof.
  intros Hl Hal Hp (Ha & r & Hr & Hn & Hlive). split; [lia|].
  exists r. rewrite Hal. auto.
Qed.

Lemma pending_settle_back x o st y :
  promises (settle x o st) !! y = Some Pending -> promises st !! y = Some Pending.
Proof.
  destruct (decide (promises st !! x = Some Pending)) as [Hp|Hp];
    [|by rewrite settle_idle].
  rewrite settle_promises by done. by destruct (decide (y = x)).
Qed.

Lemma resume_pending_back E g o st y :
  y < length (promises st) ->
  promises (resume E g o st) !! y = Some Pending -> promises st !! y = Some Pending.
Proof.
  intros Hy.
  destruct (resume_shape E g o st)
    as [(x & oo & stM & (Hs & _) & -> & _)|[(Hs & _)|(Hs & _)]].
  - intros H%pending_settle_back. by rewrite <- Hs.
  - by rewrite Hs.
  - rewrite Hs. by rewrite lookup_app_l.
Qed.

Lemma resume_alls_other E g o st a :
  (forall i, g <> AllElem a i) -> alls (resume E g o st) !! a = alls st !! a.
Proof.
  intros Hg.
  assert (forall x o' s, alls (settle x o' s) = alls s) as Hset.
  { intros x o' s. by destruct (settle_fields x o' s) as (_ & _ & -> & _). }
  destruct g as [nm asset s|nm asset s|nm p|nm q|nm q|q|a' i]; cbn [resume];
    rewrite ?Hset; try done.
  - destruct o; rewrite ?Hset; [|done]. destruct (downloaded _); rewrite ?Hset; [|done].
    unfold ExpoFontLoader_loadAsync. cbn [new_promise].
    by destruct (subscribe_fields (length (promises st)) (AwaitNative nm asset s)
                   (set_calls (fun l => l ++ [CallNative (_getNativeFontName E nm)
                                 (localUri (asset_of st asset)) (length (promises st))])
                      (set_promises (fun ps => ps ++ [Pending]) st)))
      as (_ & _ & _ & -> & _).
  - by destruct o.
  - assert (a' <> a) as Hne by (intros ->; by destruct (Hg i)).
    destruct o; rewrite ?Hset; [|done].
    unfold all_element. destruct (alls st !! a') as [r|]; [|done].
    destruct (called r !! i) as [[|]|]; try done.
    destruct (decide _); rewrite ?Hset; st_simpl; by rewrite lookup_insert_ne.
Qed.

Lemma length_resume E g o st : length (promises st) <= length (promises (resume E g o st)).
Proof.
  destruct (resume_shape E g o st)
    as [(x & oo & stM & (Hs & _) & -> & _)|[(Hs & _)|(Hs & _)]].
  - rewrite length_settle. by rewrite Hs.
  - by rewrite Hs.
  - rewrite Hs, length_app. lia.
Qed.

Lemma live_all_tick E st a n : live_all st a n -> live_all (tick E st) a n.
Proof.
  intros HL. unfold tick. destruct (queue st) as [|[g o] rest]; [done|].
  fold (popped rest st).
  assert (live_all (popped rest st) a n) as HP by done.
  assert ((exists i, g = AllElem a i) \/ (forall i, g <> AllElem a i))
    as [[i ->]|Hg].
  { destruct g as [| | | | | |a' i]; try (by right).
    destruct (decide (a' = a)) as [->|Hne]; [left; by exists i|right; congruence]. }
  - destruct o as [|e]; cbn [resume].
    + destruct HP as (Ha & r & Hr & Hn & Hlive).
      unfold all_element. rewrite Hr.
      destruct (called r !! i) as [[|]|] eqn:Hc;
        try (split; [done|]; by exists r).
      set (st1 := set_alls _ _).
      assert (alls st1 !! a
              = Some {| remaining := remaining r - 1;
                        called := <[i := true]> (called r) |}) as Hr1
        by (unfold st1; st_simpl; apply lookup_insert_eq).
      destruct (decide _) as [Hz|Hz].
      * split; [by rewrite length_settle|]. eexists.
        destruct (settle_fields a Fulfilled st1) as (_ & _ & -> & _).
        split; [exact Hr1|]. cbn [called remaining].
        split; [by rewrite length_insert|]. intros Hp. exfalso.
        pose proof (pending_settle_back _ _ _ _ Hp) as Hp'.
        rewrite settle_promises in Hp by done. by destruct (decide (a = a)).
      * split; [done|]. eexists. split; [exact Hr1|]. cbn [called remaining] in *.
        split; [by rewrite length_insert|]. intros _. lia.
    + apply (live_all_step (popped rest st)); try done.
      * by rewrite length_settle.
      * by destruct (settle_fields a (Rejected e) (popped rest st)) as (_ & _ & -> & _).
      * apply pending_settle_back.
  - apply (live_all_step (popped rest st)); try done.
    + apply length_resume.
    + by apply resume_alls_other.
    + apply resume_pending_back, HP.
Qed.

Lemma live_all_event E ev st a n :
  Inv E st -> live_all st a n -> live_all (apply_event E ev st) a n.
Proof.
  intros HI HL. destruct ev as [arg|nm| |d o|x fields]; cbn [apply_event].
  - destruct (loadAsync_ok E arg st HI) as (_ & G & _).
    apply (live_all_step st); try done.
    + apply G.
    + apply (grows_alls _ _ G), HL.
    + rewrite (grows_promises _ _ G); [done|apply HL].
  - destruct (processFontFamily_fields E nm st) as (_ & _ & H1 & _ & _ & H4 & _).
    apply (live_all_step st); rewrite ?H1, ?H4; done.
  - by apply live_all_tick.
  - destruct (is_external st d); [|done].
    apply (live_all_step st); try done.
    + by rewrite length_settle.
    + by destruct (settle_fields d o st) as (_ & _ & -> & _).
    + apply pending_settle_back.
  - done.
Qed.

Lemma live_all_run E evs : forall st a n,
  reachable E st -> live_all st a n -> live_all (run E evs st) a n.
Proof.
  induction evs as [|ev evs IH]; intros st a n Hr H; [done|].
  change (run E (ev :: evs) st) with (run E evs (apply_event E ev st)).
  apply IH; [by constructor|]. apply live_all_event; [by apply reachable_Inv|done].
Qed.

Lemma live_all_drain E st a n :
  live_all st a n -> live_all (drain E st) a n.
Proof.
  apply (drain_preserves E (fun s => live_all s a n)).
  intros s. apply live_all_tick.
Qed.

Lemma live_all_Promise_all elems st :
  (forall e, e ∈ elems -> e < length (promises st)) ->
  live_all (Promise_all elems st).1 (length (promises st)) (length elems).
Proof.
  intros He. unfold Promise_all. cbn [new_promise fst snd].
  set (a := length (promises st)).
  set (r := {| remaining := length elems; called := replicate (length elems) false |}).
  set (st1 := set_alls (fun m => <[a := r]> m)
                       (set_promises (fun ps => ps ++ [Pending]) st)).
  destruct (subscribe_all_spec a elems 0 st1) as (Hp & Hal & _).
  { intros e Hin. unfold st1. st_simpl. rewrite length_app. specialize (He e Hin). lia. }
  assert (promises st1 !! a = Some Pending) as Hpa.
  { unfold st1. st_simpl. unfold a. by rewrite lookup_app_r, Nat.sub_diag. }
  assert (alls st1 !! a = Some r) as Hr
    by (unfold st1; st_simpl; apply lookup_insert_eq).
  assert (a < length (promises st1)) as Ha by (by eapply lookup_lt_Some).
  destruct elems as [|e0 elems'].
  - cbn [subscribe_all] in *. split; [by rewrite length_settle|]. exists r.
    destruct (settle_fields a Fulfilled st1) as (_ & _ & -> & _).
    split; [done|]. split; [done|]. intros Hpend. exfalso.
    rewrite settle_promises in Hpend by done. by destruct (decide (a = a)).
  - split; [by rewrite Hp|]. exists r. rewrite Hal. split; [done|].
    split; [apply length_replicate|]. intros _. simpl. lia.
Qed.

(** ** The fan-out of both branches *)

Section FanOut.

Context {A : Type}.

Variables (E : Env) (f : A -> state -> state * pid) (l : list A)
          (st0 : state) (q : pid).

Hypothesis Hf : forall x, call_ok E (f x).

Hypothesis HI : Inv E st0.

Lemma gathers_fan_out :
  gathers (fan_out f l st0 q).1 (fan_all f l st0) (fan_elements f l st0).
Proof using Hf HI.
  unfold fan_out, fan_all, fan_elements.
  destruct (call_each_ok E f l st0 Hf HI) as (H1 & G1 & A1).
  destruct (call_each f l st0) as [st1 qs]. cbn [fst snd] in *.
  pose proof (gathers_Promise_all E qs st1 H1 A1) as HG.
  destruct (Promise_all qs st1) as [st2 a]. cbn [fst snd] in *.
  by apply gathers_with_subscribe.
Qed.

Lemma live_all_fan_out :
  live_all (fan_out f l st0 q).1 (fan_all f l st0) (length l).
Proof using Hf HI.
  unfold fan_out, fan_all.
  pose proof (call_each_length f l st0) as Hlen.
  destruct (call_each_ok E f l st0 Hf HI) as (H1 & G1 & A1).
  destruct (call_each f l st0) as [st1 qs]. cbn [fst snd] in *.
  pose proof (live_all_Promise_all qs st1 A1) as HL.
  destruct (Promise_all qs st1) as [st2 a]. cbn [fst snd] in *.
  rewrite <- Hlen.
  destruct (subscribe_fields a (AwaitAll q) st2) as (_ & _ & Hp & Hal & _).
  apply (live_all_step st2); rewrite ?Hp, ?Hal; done.
Qed.

Lemma follows_fan_out :
  promises st0 !! q = Some Pending ->
  follows (fan_out f l st0 q).1 q (fan_all f l st0)
  /\ promises (fan_out f l st0 q).1 !! q = Some Pending.
Proof using Hf HI.
  intros Hq0. unfold fan_out, fan_all.
  destruct (call_each_ok E f l st0 Hf HI) as (H1 & G1 & A1).
  destruct (call_each f l st0) as [st1 qs]. cbn [fst snd] in *.
  destruct (Promise_all_ok E qs st1 H1 A1) as (H2 & G2 & Ea & L2).
  destruct (Promise_all qs st1) as [st2 a]. cbn [fst snd] in *. subst a.
  set (a := length (promises st1)) in *.
  assert (promises st2 !! q = Some Pending) as Hq.
  { pose proof (grows_trans _ _ _ G1 G2) as G.
    rewrite (grows_promises _ _ G); [done|]. by eapply lookup_lt_Some. }
  destruct (subscribe_fields a (AwaitAll q) st2) as (_ & _ & Hp & _).
  assert (is_Some (promises st2 !! a)) as [v Hv].
  { apply lookup_lt_is_Some. unfold a. lia. }
  split; [|by rewrite Hp].
  exists (AwaitAll q). split; [done|]. split; [done|]. rewrite Hp.
  destruct v as [|o].
  - left. split; [done|]. split; [done|]. apply subscribe_waiting. right.
    split; [done|]. split; [done|]. unfold pstate_of. by rewrite Hv.
  - right. left. exists o. split; [done|]. split; [done|].
    apply subscribe_queue. right. split; [done|]. unfold pstate_of. by rewrite Hv.
Qed.

End FanOut.

(** ** What the elements of a [Promise.all] decide *)

Lemma count_false_none (l : list bool) :
  (forall i, i < length l -> l !! i = Some true) -> count_false l = 0.
Proof.
  intros H. unfold count_false. rewrite filter_none; [done|].
  intros b [i Hi]%list_elem_of_lookup ->.
  rewrite (H i) in Hi by (by eapply lookup_lt_Some). done.
Qed.

Section Gathered.

Variables (E : Env) (st : state) (a q : pid) (qs : list pid).

Hypothesis Hr : reachable E st.

Hypothesis HG : gathers st a qs.

Hypothesis HF : follows st q a.

(** The call is fulfilled only if every element is. *)
Lemma gathered_all_fulfilled i qi :
  promises st !! q = Some (Settled Fulfilled) -> qs !! i = Some qi ->
  promises st !! qi = Some (Settled Fulfilled).
Proof using Hr HG HF.
  intros Hq Hi. apply pstate_of_settled in Hq.
  apply (follows_settled _ _ _ _ HF) in Hq. apply pstate_of_settled in Hq.
  destruct (gathers_elems _ _ _ _ HG) as (r & Hr' & Hel).
  destruct (all_count _ (proj1 (reachable_Inv E st Hr)) a r Hr') as [Hc1 Hc2].
  specialize (Hc2 Hq).
  destruct (Hel i qi Hi) as [(_ & H)|(Hc & _)]; [done|].
  pose proof (count_false_pos _ _ Hc). lia.
Qed.

(** A rejected element rejects the call, once the queue is empty. *)
Lemma gathered_rejection i qi e :
  qs !! i = Some qi -> promises st !! qi = Some (Settled (Rejected e)) ->
  exists j qj e', qs !! j = Some qj
    /\ pstate_of (drain E st) qj = Settled (Rejected e')
    /\ pstate_of (drain E st) q = Settled (Rejected e').
Proof using Hr HG HF.
  intros Hi Hqi. apply (drain_settled E st _ _ Hr) in Hqi.
  pose proof (gathers_drain E a qs st Hr HG) as HGD.
  pose proof (follows_drain E st q a Hr HF) as HFD.
  destruct (gathers_elems _ _ _ _ HGD) as (r & Hr' & Hel).
  assert (exists e', promises (drain E st) !! a = Some (Settled (Rejected e')))
    as [e' Ha].
  { destruct (Hel i qi Hi)
      as [(_ & H)|(_ & [(H & _)|[(o & _ & H)|(e1 & e2 & _ & H)]])].
    - congruence.
    - congruence.
    - cbn [app] in H. rewrite drain_queue in H. by apply not_elem_of_nil in H.
    - by exists e2. }
  destruct (gathers_rejected _ _ _ _ HGD e' Ha) as (j & qj & Hj & Hqj).
  exists j, qj, e'. split; [done|]. split; [by apply pstate_of_settled|].
  rewrite (follows_quiescent _ _ _ HFD (drain_queue E st)).
  by apply pstate_of_settled.
Qed.

(** When every element is fulfilled so is the call, once the queue is
    empty. *)
Lemma gathered_fulfilment :
  live_all st a (length qs) ->
  (forall i qi, qs !! i = Some qi -> promises st !! qi = Some (Settled Fulfilled)) ->
  pstate_of (drain E st) q = Settled Fulfilled.
Proof using Hr HG HF.
  intros HL Hall.
  pose proof (gathers_drain E a qs st Hr HG) as HGD.
  pose proof (follows_drain E st q a Hr HF) as HFD.
  pose proof (live_all_drain E st a _ HL) as (Ha & r & Hr' & Hn & Hlive).
  pose proof (reachable_Inv E _ (reachable_drain E st Hr)) as HID.
  rewrite (follows_quiescent _ _ _ HFD (drain_queue E st)).
  destruct (gathers_elems _ _ _ _ HGD) as (r0 & Hr0 & Hel).
  assert (r0 = r) as -> by congruence.
  assert (count_false (called r) = 0) as Hz.
  { apply count_false_none. intros i Hi. rewrite Hn in Hi.
    apply lookup_lt_is_Some in Hi as [qi Hqi].
    pose proof (drain_settled E st _ _ Hr (Hall i qi Hqi)) as Hful.
    destruct (Hel i qi Hqi)
      as [(Hc & _)|(_ & [(H & _)|[(o & _ & H)|(e1 & e2 & H & _)]])].
    - done.
    - congruence.
    - cbn [app] in H. rewrite drain_queue in H. by apply not_elem_of_nil in H.
    - congruence. }
  destruct (all_count _ (proj1 HID) a r Hr') as [Hc1 _].
  apply lookup_lt_is_Some in Ha as [[|[|e]] Hv].
  - specialize (Hlive Hv). lia.
  - by apply pstate_of_settled.
  - destruct (gathers_rejected _ _ _ _ HGD e Hv) as (j & qj & Hj & Hqj).
    pose proof (drain_settled E st _ _ Hr (Hall j qj Hj)). congruence.
Qed.

End Gathered.

(** X13: [loadAsync(fontMap)] resolves when all its entries have. If the
    promise of every entry is fulfilled, then once the queue is empty the
    promise of the call is fulfilled; in particular the call with an empty
    mapping is fulfilled by the queue alone. *)
Theorem loadAsync_map_resolves E st m evs :
  reachable E st ->
  (forall i qi, map_elements E m st !! i = Some qi ->
                pstate_of (after_map E m evs st) qi = Settled Fulfilled) ->
  pstate_of (drain E (after_map E m evs st)) (loadAsync E (ArgMap m) st).2
  = Settled Fulfilled.
Proof.
  intros Hr Hall. pose proof (reachable_Inv E st Hr) as HI.
  pose proof (reachable_step E st (EvLoad (ArgMap m)) Hr) as Hr1.
  unfold after_map in *. cbn [apply_event loadAsync] in *.
  destruct (map_pending E m st HI) as [_ ->].
  pose proof (gathers_map E m st HI) as HG.
  pose proof (follows_map E m st HI) as HF.
  assert (live_all (loadAsync_map E m st).1 (map_all E m st)
                   (length (map_elements E m st))) as HL.
  { rewrite map_elements_length, <- (length_map fst m), loadAsync_map_eq.
    apply (live_all_fan_out E); [apply load_ok|by apply Inv_new_promise]. }
  apply (gathered_fulfilment E _ (map_all E m st) _ (map_elements E m st)).
  - by apply reachable_run.
  - by apply gathers_run.
  - by apply follows_run.
  - by apply live_all_run.
  - intros i qi Hi. apply pstate_of_settled. exact (Hall i qi Hi).
Qed.

(** X13 on a run: the mapping [{A: asset 1}], whose font is downloaded and
    registered. *)
Lemma loadAsync_map_resolves_witness :
  reachable sample_env initial
  /\ map_elements sample_env font_single initial = [1]
  /\ pstate_of (after_map sample_env font_single single_events initial) 1
     = Settled Fulfilled
  /\ pstate_of (drain sample_env (after_map sample_env font_single single_events initial))
               (loadAsync sample_env (ArgMap font_single) initial).2
     = Settled Fulfilled.
Proof.
  assert (map_elements sample_env font_single initial = [1]) as He
    by (by vm_compute).
  assert (pstate_of (after_map sample_env font_single single_events initial) 1
          = Settled Fulfilled) as H1 by (by vm_compute).
  split; [constructor|]. split; [exact He|]. split; [exact H1|].
  apply (loadAsync_map_resolves sample_env initial font_single single_events
           (reachable_initial sample_env)).
  intros i qi. rewrite He. destruct i as [|i]; [|by destruct i].
  intros [= <-]. exact H1.
Defined.

(** ** The array branch (lines 85-90) *)

Lemma follows_subscribe w f st q p :
  follows st q p -> follows (subscribe w f st) q p.
Proof.
  destruct (subscribe_fields w f st) as (_ & _ & Hp & _).
  intros (g & Ht & Hg & Hf). exists g. split; [done|]. split; [done|]. rewrite Hp.
  destruct Hf as [(H1 & H2 & H3)|[(o & H1 & H2 & H3)|H]].
  - left. split; [done|]. split; [done|]. apply subscribe_waiting. by left.
  - right. left. exists o. split; [done|]. split; [done|].
    apply subscribe_queue. by left.
  - by right; right.
Qed.

Lemma covers_map E m st :
  Inv E st -> covers (loadAsync_map E m st).1 (length (promises st)) (map fst m).
Proof.
  intros HI. exists (map_all E m st), (map_elements E m st).
  split; [by apply follows_map|]. split; [by apply gathers_map|].
  split; [by rewrite map_elements_length, length_map|].
  intros i name qi Hi Hqi. by apply (map_elements_tracks E m st i).
Qed.

Lemma covers_call st st' q names :
  grows st st' -> keeps_all st st' -> call_maps st st' ->
  covers st q names -> covers st' q names.
Proof.
  intros G K M (a & qs & HF & HG & Hl & Ht). exists a, qs.
  split; [by eapply follows_grows|]. split; [by eapply gathers_call|].
  split; [done|]. intros i name qi Hi Hqi. eapply tracks_call; eauto.
Qed.

Lemma covers_subscribe w f st q names :
  (forall a i, f <> AllElem a i) ->
  covers st q names -> covers (subscribe w f st) q names.
Proof.
  intros Hf (a & qs & HF & HG & Hl & Ht). exists a, qs.
  split; [by apply follows_subscribe|].
  split; [by apply gathers_with_subscribe|]. split; [done|].
  intros i name qi Hi Hqi. apply tracks_subscribe. eauto.
Qed.

Lemma covers_event E ev st q names :
  Inv E st -> covers st q names -> covers (apply_event E ev st) q names.
Proof.
  intros HI (a & qs & HF & HG & Hl & Ht). exists a, qs.
  split; [by apply follows_event|]. split; [by apply gathers_event|].
  split; [done|]. intros i name qi Hi Hqi. apply tracks_event; eauto.
Qed.

Lemma covers_run E evs : forall st q names,
  reachable E st -> covers st q names -> covers (run E evs st) q names.
Proof.
  induction evs as [|ev evs IH]; intros st q names Hr H; [done|].
  change (run E (ev :: evs) st) with (run E evs (apply_event E ev st)).
  apply IH; [by constructor|]. apply covers_event; [by apply reachable_Inv|done].
Qed.

Lemma covers_loaded E st q names name :
  reachable E st -> covers st q names ->
  promises st !! q = Some (Settled Fulfilled) ->
  name ∈ names -> inherited name = false -> is_Some (loaded st !! name).
Proof.
  intros Hr (a & qs & HF & HG & Hl & Ht) Hq [i Hi]%list_elem_of_lookup Hin.
  assert (is_Some (qs !! i)) as [qi Hqi].
  { apply lookup_lt_is_Some. rewrite Hl. by eapply lookup_lt_Some. }
  apply (tracks_fulfilled st qi name); [by eapply Ht|done|].
  by apply (gathered_all_fulfilled E st a q qs Hr HG HF i qi).
Qed.

Lemma covers_each E l : forall st k m qk,
  Inv E st -> l !! k = Some m ->
  (call_each (loadAsync_map E) l st).2 !! k = Some qk ->
  covers (call_each (loadAsync_map E) l st).1 qk (map fst m).
Proof.
  induction l as [|x l IH]; intros st k m qk HI Hk Hqk; [done|].
  cbn [call_each] in *.
  destruct (loadAsync_map_ok E x st HI) as (H1 & G1 & _).
  pose proof (covers_map E x st HI) as Hc.
  destruct (map_pending E x st HI) as [_ Hq].
  pose proof (IH (loadAsync_map E x st).1) as IH'.
  destruct (call_each_ok E (loadAsync_map E) l (loadAsync_map E x st).1
              (loadAsync_map_ok E) H1) as (H2 & G2 & _).
  pose proof (keeps_all_each E (loadAsync_map E) l (loadAsync_map E x st).1
                (loadAsync_map_ok E) (keeps_all_map E) H1) as K2.
  pose proof (call_maps_each E (loadAsync_map E) l (loadAsync_map E x st).1
                (loadAsync_map_ok E) (call_maps_map E) H1) as M2.
  destruct (loadAsync_map E x st) as [st1 q0]. cbn [fst snd] in *. subst q0.
  destruct (call_each (loadAsync_map E) l st1) as [st2 qs]. cbn [fst snd] in *.
  destruct k as [|k]; cbn in Hk, Hqk.
  - injection Hk as ->. injection Hqk as <-. by eapply covers_call.
  - by eapply IH'.
Qed.

Lemma covers_array E ms st k m qk :
  Inv E st -> ms !! k = Some m -> array_elements E ms st !! k = Some qk ->
  covers (loadAsync_array E ms st).1 qk (map fst m).
Proof.
  intros HI Hk Hqk. unfold array_elements, fan_elements in Hqk.
  rewrite loadAsync_array_eq. unfold fan_out.
  assert (Inv E (console_warn arrayDeprecatedMessage (new_promise st).1)) as HI0
    by (apply Inv_console; by apply Inv_new_promise).
  pose proof (covers_each E ms _ k m qk HI0 Hk Hqk) as Hc.
  destruct (call_each_ok E (loadAsync_map E) ms _ (loadAsync_map_ok E) HI0)
    as (H1 & G1 & A1).
  destruct (call_each _ _ _) as [st1 qs]. cbn [fst snd] in *.
  destruct (Promise_all_ok E qs st1 H1 A1) as (H2 & G2 & Ea & L2).
  pose proof (call_maps_Promise_all qs st1) as M2.
  pose proof (keeps_all_Promise_all E qs st1 H1) as K2.
  destruct (Promise_all qs st1) as [st2 a]. cbn [fst snd] in *.
  apply covers_subscribe; [done|]. by eapply covers_call.
Qed.

Lemma array_pending E ms st :
  Inv E st ->
  promises (console_warn arrayDeprecatedMessage (new_promise st).1)
    !! length (promises st) = Some Pending
  /\ (loadAsync_array E ms st).2 = length (promises st).
Proof.
  intros HI. split; [st_simpl; by rewrite lookup_app_r, Nat.sub_diag|].
  rewrite loadAsync_array_eq. unfold fan_out.
  destruct (call_each _ _ _) as [st1 qs]. by destruct (Promise_all qs st1).
Qed.

(** X15: [loadAsync([fontMap1, ...])]. The promise of the call is pending
    when the call returns; it is fulfilled only when every key of every
    mapping (that [Object.prototype] does not define) is in the Loaded
    Set; if the promise of one mapping is rejected then, once the queue
    is empty, so is the promise of the call, with the error of one of the
    mappings; and if the promises of all mappings are fulfilled then, once
    the queue is empty, so is the promise of the call (at once for an
    empty array). *)
Theorem loadAsync_array_fan_out E st ms evs :
  reachable E st ->
  pstate_of (loadAsync E (ArgArray ms) st).1 (loadAsync E (ArgArray ms) st).2
  = Pending
  /\ (pstate_of (after_array E ms evs st) (loadAsync E (ArgArray ms) st).2
      = Settled Fulfilled ->
      forall m name, m ∈ ms -> name ∈ map fst m -> inherited name = false ->
                     isLoaded (after_array E ms evs st) name = Normal true)
  /\ (forall k qk e,
        array_elements E ms st !! k = Some qk ->
        pstate_of (after_array E ms evs st) qk = Settled (Rejected e) ->
        exists j qj e',
          array_elements E ms st !! j = Some qj
          /\ pstate_of (drain E (after_array E ms evs st)) qj = Settled (Rejected e')
          /\ pstate_of (drain E (after_array E ms evs st))
                       (loadAsync E (ArgArray ms) st).2
             = Settled (Rejected e'))
  /\ ((forall k qk, array_elements E ms st !! k = Some qk ->
                    pstate_of (after_array E ms evs st) qk = Settled Fulfilled) ->
      pstate_of (drain E (after_array E ms evs st)) (loadAsync E (ArgArray ms) st).2
      = Settled Fulfilled).
Proof.
  intros Hr. pose proof (reachable_Inv E st Hr) as HI.
  pose proof (reachable_step E st (EvLoad (ArgArray ms)) Hr) as Hr1.
  unfold after_array. cbn [apply_event loadAsync] in *.
  pose proof (reachable_run E evs _ Hr1) as HrS.
  destruct (array_pending E ms st HI) as [Hq0 ->].
  assert (Inv E (console_warn arrayDeprecatedMessage (new_promise st).1)) as HI0
    by (apply Inv_console; by apply Inv_new_promise).
  pose proof (gathers_fan_out E (loadAsync_map E) ms _ (length (promises st))
                (loadAsync_map_ok E) HI0) as HG.
  pose proof (live_all_fan_out E (loadAsync_map E) ms _ (length (promises st))
                (loadAsync_map_ok E) HI0) as HL.
  destruct (follows_fan_out E (loadAsync_map E) ms _ (length (promises st))
              (loadAsync_map_ok E) HI0 Hq0) as [HF Hq].
  rewrite <- loadAsync_array_eq in HG, HL, HF, Hq.
  fold (array_elements E ms st) in HG.
  set (a := fan_all _ _ _) in *.
  assert (length (array_elements E ms st) = length ms) as Hlen
    by apply call_each_length.
  pose proof (gathers_run E a _ evs _ Hr1 HG) as HGS.
  pose proof (follows_run E evs _ _ a Hr1 HF) as HFS.
  split; [by apply pstate_of_pending|]. split; [|split].
  - intros Hful m name [k Hk]%list_elem_of_lookup Hin Hinh.
    apply pstate_of_settled in Hful.
    apply (isLoaded_true E); [by apply reachable_Inv|].
    assert (is_Some (array_elements E ms st !! k)) as [qk Hqk].
    { apply lookup_lt_is_Some. rewrite Hlen. by eapply lookup_lt_Some. }
    apply (covers_loaded E _ qk (map fst m)); try done.
    + apply covers_run; [done|]. by apply (covers_array E ms st k).
    + by apply (gathered_all_fulfilled E _ a (length (promises st))
                  (array_elements E ms st) HrS HGS HFS k qk).
  - intros k qk e Hk Hqk. apply pstate_of_settled in Hqk.
    by apply (gathered_rejection E _ a (length (promises st))
                (array_elements E ms st) HrS HGS HFS k qk e).
  - intros Hall.
    apply (gathered_fulfilment E _ a (length (promises st))
             (array_elements E ms st) HrS HGS HFS).
    + rewrite Hlen. by apply live_all_run.
    + intros k qk Hk. apply pstate_of_settled. exact (Hall k qk Hk).
Qed.

(** X15 on a run: both fonts of [[{A}, {B}]] are downloaded and
    registered. *)
Lemma loadAsync_array_fan_out_witness :
  reachable sample_env initial
  /\ pstate_of (after_array sample_env font_array array_events initial)
               (loadAsync sample_env (ArgArray font_array) initial).2
     = Settled Fulfilled
  /\ isLoaded (after_array sample_env font_array array_events initial) "B"
     = Normal true.
Proof.
  assert (pstate_of (after_array sample_env font_array array_events initial)
                    (loadAsync sample_env (ArgArray font_array) initial).2
          = Settled Fulfilled) as Hq by (by vm_compute).
  split; [constructor|]. split; [exact Hq|].
  apply (proj1 (proj2 (loadAsync_array_fan_out sample_env initial font_array
                         array_events (reachable_initial sample_env)))
           Hq [("B", SrcAsset 2)] "B").
  - apply elem_of_cons. right. apply elem_of_cons. by left.
  - apply elem_of_cons. by left.
  - reflexivity.
Defined.

(** ** The collaborator calls of one call with a mapping *)

Lemma loadAsync_name_unusable E st name src :
  Inv E st -> loaded st !! name = None -> loadPromises st !! name = None ->
  inherited name = false -> usable E src = None ->
  calls (loadAsync_name_result E name src st) = calls st
  /\ loadPromises (loadAsync_name_result E name src st) = loadPromises st.
Proof.
  intros HI Hnl Hnew Hin Hsrc. unfold loadAsync_name_result, get_property.
  rewrite Hnl, Hnew, Hin. cbn [truthy_flag].
  destruct src as [[uri|n|a]|]; cbn [usable] in Hsrc; try done;
    unfold invariant; cbn [truthy_source _getAssetForSource].
  - destruct (negb _); by rewrite calls_settle, loadPromises_settle.
  - destruct (bool_decide (n = 0%Z)); [|done]. cbn [negb].
    by rewrite calls_settle, loadPromises_settle.
  - by rewrite calls_settle, loadPromises_settle.
Qed.

Lemma calls_subscribe_all a elems : forall i st,
  calls (subscribe_all a i elems st) = calls st.
Proof.
  induction elems as [|e elems IH]; intros i st; [done|].
  cbn [subscribe_all]. by rewrite IH, calls_subscribe.
Qed.

Lemma calls_Promise_all elems st : calls (Promise_all elems st).1 = calls st.
Proof.
  unfold Promise_all. cbn [new_promise fst].
  destruct elems; rewrite ?calls_settle, calls_subscribe_all; done.
Qed.

Lemma requests_each E m l : forall st,
  Inv E st -> NoDup l ->
  (forall name, name ∈ l ->
     loaded st !! name = None /\ loadPromises st !! name = None
     /\ inherited name = false) ->
  map request
    (calls (call_each (fun name => loadAsync_name E name (object_get m name)) l st).1)
  = map request (calls st) ++ omap (wanted E m) l.
Proof.
  induction l as [|x l IH]; intros st HI Hnd Hfresh.
  - cbn [call_each omap list_omap fst]. by rewrite app_nil_r.
  - cbn [call_each]. apply NoDup_cons in Hnd as [Hx Hnd].
    destruct (Hfresh x) as (Hnl & Hnew & Hin); [apply elem_of_cons; by left|].
    destruct (loadAsync_name_ok E x (object_get m x) st HI) as (H1 & _).
    pose proof (call_maps_name E x (object_get m x) st HI) as M1.
    specialize (IH (loadAsync_name E x (object_get m x) st).1).
    rewrite loadAsync_name_eq in *. cbn [fst snd] in *.
    set (st1 := loadAsync_name_result E x (object_get m x) st) in *.
    assert (map request (calls st1)
            = map request (calls st) ++ option_list (wanted E m x)
            /\ forall name, name <> x ->
                 loadPromises st1 !! name = loadPromises st !! name) as [Hc Hlp].
    { unfold wanted, st1. destruct (usable E (object_get m x)) as [asset|] eqn:Hu.
      - rewrite (loadAsync_name_fresh E st x _ asset Hnl Hnew Hin Hu).
        unfold started. st_simpl. split; [by rewrite map_app|].
        intros name Hne. by rewrite lookup_insert_ne.
      - destruct (loadAsync_name_unusable E st x _ HI Hnl Hnew Hin Hu) as [-> ->].
        split; [by rewrite app_nil_r|done]. }
    destruct (call_each _ l st1) as [st2 qs] eqn:Heach. cbn [fst snd] in *.
    rewrite IH; [|done|done|].
    + rewrite Hc, <- app_assoc. f_equal. cbn [omap list_omap].
      by destruct (wanted E m x).
    + intros name Hname.
      destruct (Hfresh name) as (H2 & H3 & H4); [apply elem_of_cons; by right|].
      split; [by rewrite (call_loaded _ _ M1)|]. split; [|done].
      rewrite Hlp; [done|]. intros ->. done.
Qed.

(** X16: the collaborator calls of [loadAsync(fontMap)]. When the keys of
    the mapping are neither loaded, nor in flight, nor names that
    [Object.prototype] defines, the call asks for one download for each
    key whose source is an asset or a non-zero module id, in the order of
    the keys, skipping the keys whose source is refused, and asks for
    nothing else (no registration is requested before a download has
    completed). *)
Theorem loadAsync_map_requests E st m :
  reachable E st -> NoDup (map fst m) ->
  (forall name, name ∈ map fst m ->
     isLoaded st name = Normal false /\ isLoading st name = Normal false
     /\ inherited name = false) ->
  map request (calls (loadAsync E (ArgMap m) st).1)
  = map request (calls st) ++ omap (wanted E m) (map fst m).
Proof.
  intros Hr Hnd Hfresh. pose proof (reachable_Inv E st Hr) as HI.
  cbn [loadAsync]. rewrite loadAsync_map_eq. unfold fan_out.
  pose proof (requests_each E m (map fst m) (new_promise st).1
                (Inv_new_promise E st HI) Hnd) as Hreq.
  destruct (call_each _ _ _) as [st1 qs]. cbn [fst snd] in *.
  pose proof (calls_Promise_all qs st1) as Hc.
  destruct (Promise_all qs st1) as [st2 a]. cbn [fst snd] in *.
  rewrite calls_subscribe, Hc. apply Hreq.
  intros name Hname. destruct (Hfresh name Hname) as (H1 & H2 & H3).
  apply (isLoaded_false E) in H1; [|done]. apply (isLoading_false E) in H2; [|done].
  done.
Qed.

(** X16 on an input: [{A: asset 1, B: a URI, C: module 7}] in the initial
    state. *)
Lemma loadAsync_map_requests_witness :
  reachable sample_env initial /\ NoDup (map fst font_mixed)
  /\ map request (calls (loadAsync sample_env (ArgMap font_mixed) initial).1)
     = [inl ("A", 1); inl ("C", 7)].
Proof.
  assert (NoDup (map fst font_mixed)) as Hnd.
  { change (NoDup ["A"; "B"; "C"]).
    repeat (apply NoDup_cons; split; [apply not_in_list; by vm_compute|]).
    apply NoDup_nil_2. }
  split; [constructor|]. split; [exact Hnd|].
  rewrite (loadAsync_map_requests sample_env initial font_mixed
             (reachable_initial sample_env) Hnd).
  - by vm_compute.
  - change (map fst font_mixed) with ["A"; "B"; "C"]. intros name Hin.
    repeat (apply elem_of_cons in Hin as [->|Hin]; [by vm_compute|]).
    by apply not_elem_of_nil in Hin.
Defined.
